(** * MazeSolver.c: maze generation, BFS/DFS solving and path reconstruction

    A shallow embedding of [src/MazeSolver.c].  C [int] values are modelled
    as [Z]; every theorem carries the size hypothesis [wf_grid], under which
    all the index arithmetic of the program stays inside the [int] range.
    The [unsigned char] arrays [cells] and [marks] and the [int] array
    [parent] are lists indexed by [Z]; the library's [rand()] is a stream
    [rand : nat -> Z] read through a counter that is part of the state. *)

From Stdlib Require Import ZArith List Lia Bool Arith Permutation.
From Stdlib Require Ascii String.
Import ListNotations.
Import String.StringSyntax.
Local Open Scope string_scope.
Local Open Scope Z_scope.

(** ** Arrays *)

Section Arrays.
Context {A : Type}.

Fixpoint upd (l : list A) (n : nat) (v : A) : list A :=
  match l, n with
  | [], _ => []
  | _ :: t, O => v :: t
  | h :: t, S k => h :: upd t k v
  end.

(** [a[i]]; a read outside the array is undefined in C and yields [d]. *)
Definition aget (d : A) (l : list A) (i : Z) : A :=
  if i <? 0 then d else nth (Z.to_nat i) l d.

(** [a[i] = v]; a write outside the array leaves the model unchanged. *)
Definition aset (l : list A) (i : Z) (v : A) : list A :=
  if i <? 0 then l else upd l (Z.to_nat i) v.
End Arrays.

(** [memset(a, v, n)] *)
Definition memset (l : list Z) (v : Z) (n : Z) : list Z :=
  repeat v (Nat.min (Z.to_nat n) (length l)) ++ skipn (Z.to_nat n) l.

(** A C [for (i = lo; i < hi; i += step) s = body(i, s);] loop. *)
Fixpoint for_loop {S : Type} (fuel : nat) (i hi step : Z)
         (body : Z -> S -> S) (s : S) : S :=
  match fuel with
  | O => s
  | Datatypes.S f =>
      if i <? hi then for_loop f (i + step) hi step body (body i s) else s
  end.

Definition for_range {S : Type} (lo hi step : Z) (body : Z -> S -> S) (s : S) : S :=
  for_loop (Z.to_nat (hi - lo)) lo hi step body s.

(** ** Grid *)

Definition to_uchar (z : Z) : Z := z mod 256.

Definition M_NONE : Z := 0.
Definition M_VISIT : Z := 1.
Definition M_FRONT : Z := 2.
Definition M_PATH : Z := 4.

Record Grid := mkGrid {
  rows : Z;
  cols : Z;
  cells : list Z;
  marks : list Z
}.

Record CellRC := RC { rc_r : Z; rc_c : Z }.

Definition grid_get (g : Grid) (r c : Z) : Z :=
  aget 0 (cells g) (r * cols g + c).

(** The parameter [v] is a [cell_t]: the value passed is reduced to a byte. *)
Definition grid_set (g : Grid) (r c v : Z) : Grid :=
  mkGrid (rows g) (cols g) (aset (cells g) (r * cols g + c) (to_uchar v)) (marks g).

Definition mark_get (g : Grid) (r c : Z) : Z :=
  aget 0 (marks g) (r * cols g + c).

Definition mark_or (g : Grid) (r c v : Z) : Grid :=
  let i := r * cols g + c in
  mkGrid (rows g) (cols g) (cells g)
         (aset (marks g) i (to_uchar (Z.lor (aget 0 (marks g) i) v))).

Definition mark_andnot (g : Grid) (r c v : Z) : Grid :=
  let i := r * cols g + c in
  mkGrid (rows g) (cols g) (cells g)
         (aset (marks g) i (to_uchar (Z.land (aget 0 (marks g) i) (Z.lnot v)))).

Definition mark_set (g : Grid) (r c v : Z) : Grid :=
  mkGrid (rows g) (cols g) (cells g) (aset (marks g) (r * cols g + c) (to_uchar v)).

(** [malloc(n)] called with an [int].  [heap] is the memory the allocator
    still has, with whatever bytes it holds: the call fails (null pointer,
    [None]) when [n] is negative, which as a [size_t] is more than any
    memory, or exceeds what is left; else it returns a block of [n] bytes,
    whose content is not specified. *)
Definition malloc (heap : list Z) (n : Z) : option (list Z) :=
  if (n <? 0) || (Z.of_nat (length heap) <? n) then None
  else Some (firstn (Z.to_nat n) heap).

(** [grid_init], with the memory available to each of its two [malloc]
    calls.  When either returns a null pointer the program prints
    "Out of memory" and leaves through [exit(1)]: the result is [None]. *)
Definition grid_init (heap_cells heap_marks : list Z) (rows cols : Z)
  : option Grid :=
  match malloc heap_cells (rows * cols), malloc heap_marks (rows * cols) with
  | Some cb, Some mb =>
      Some (mkGrid rows cols (memset cb 1 (rows * cols))
                   (memset mb M_NONE (rows * cols)))
  | _, _ => None
  end.

Definition is_inside (g : Grid) (r c : Z) : bool :=
  (r >=? 0) && (r <? rows g) && (c >=? 0) && (c <? cols g).

Definition nbrs4 : list (Z * Z) := [(-1, 0); (1, 0); (0, -1); (0, 1)].

Definition INT_MAX : Z := 2147483647.

(** Dimensions the program can allocate and index with [int]. *)
Definition wf_grid (g : Grid) : Prop :=
  0 < rows g /\ 0 < cols g /\ rows g * cols g + 5 <= INT_MAX /\
  Z.of_nat (length (cells g)) = rows g * cols g /\
  Z.of_nat (length (marks g)) = rows g * cols g.

(** ** Stack and queue *)

Record Stack := mkStack { s_data : list CellRC; s_top : Z; s_cap : Z }.

Definition stack_create (cap : Z) : Stack :=
  mkStack (repeat (RC 0 0) (Z.to_nat cap)) 0 cap.

Definition stack_push (s : Stack) (v : CellRC) : Stack :=
  if s_top s <? s_cap s
  then mkStack (aset (s_data s) (s_top s) v) (s_top s + 1) (s_cap s)
  else s.

Definition stack_pop (s : Stack) : CellRC * Stack :=
  let top := s_top s - 1 in
  (aget (RC 0 0) (s_data s) top, mkStack (s_data s) top (s_cap s)).

Definition stack_empty (s : Stack) : bool := s_top s =? 0.

Record Queue := mkQueue { q_data : list CellRC; q_head : Z; q_tail : Z; q_cap : Z }.

Definition queue_create (cap : Z) : Queue :=
  mkQueue (repeat (RC 0 0) (Z.to_nat cap)) 0 0 cap.

Definition queue_push (q : Queue) (v : CellRC) : Queue :=
  let data := aset (q_data q) (q_tail q) v in
  let tail := q_tail q + 1 in
  mkQueue data (q_head q) (if tail >=? q_cap q then 0 else tail) (q_cap q).

Definition queue_pop (q : Queue) : CellRC * Queue :=
  let v := aget (RC 0 0) (q_data q) (q_head q) in
  let head := q_head q + 1 in
  (v, mkQueue (q_data q) (if head >=? q_cap q then 0 else head) (q_tail q) (q_cap q)).

Definition queue_empty (q : Queue) : bool := q_head q =? q_tail q.

(** ** Path reconstruction *)

(** The [while (cur != -2 && cur != -1)] loop of [reconstruct_and_mark].
    The second component lists the cells marked, in the order the frames are
    drawn; [None] means the loop was still running when the fuel ran out. *)
Fixpoint recon_loop (fuel : nat) (parent : list Z) (cols : Z) (g : Grid) (cur : Z)
  : option (Grid * list CellRC) :=
  if (cur =? -2) || (cur =? -1) then Some (g, [])
  else
    match fuel with
    | O => None
    | S f =>
        let rr := Z.quot cur cols in
        let cc := Z.rem cur cols in
        let g1 := mark_or g rr cc M_PATH in
        match recon_loop f parent cols g1 (aget 0 parent cur) with
        | Some (g', p) => Some (g', RC rr cc :: p)
        | None => None
        end
    end.

Definition reconstruct_and_mark (fuel : nat) (g : Grid) (parent : list Z)
           (cols er ec : Z) : option (Grid * list CellRC) :=
  let idx := er * cols + ec in
  if aget 0 parent idx =? -1 then Some (g, [])
  else recon_loop fuel parent cols g idx.

(** ** Breadth-first search *)

Record BfsState := mkBfs {
  b_grid : Grid;
  b_parent : list Z;
  b_queue : Queue;
  b_brk : bool      (* the [break] at [end] was taken *)
}.

Definition bfs_init (g : Grid) (sr sc : Z) : BfsState :=
  let n := rows g * cols g in
  let parent := repeat (-1) (Z.to_nat n) in
  let g0 := mkGrid (rows g) (cols g) (cells g) (memset (marks g) M_NONE n) in
  let q := queue_push (queue_create (n + 5)) (RC sr sc) in
  let parent := aset parent (sr * cols g + sc) (-2) in
  mkBfs (mark_or g0 sr sc M_FRONT) parent q false.

(** One pass of the [for (k...)] body for the popped cell [(r, c)]. *)
Definition bfs_visit (r c : Z) (st : BfsState) (k : Z) : BfsState :=
  let g := b_grid st in
  let d := aget (0, 0) nbrs4 k in
  let nr := r + fst d in
  let nc := c + snd d in
  if is_inside g nr nc && (grid_get g nr nc =? 0)
     && (aget 0 (b_parent st) (nr * cols g + nc) =? -1)
  then
    mkBfs (mark_or g nr nc M_FRONT)
          (aset (b_parent st) (nr * cols g + nc) (r * cols g + c))
          (queue_push (b_queue st) (RC nr nc))
          (b_brk st)
  else st.

(** The state after [queue_pop] and the mark updates of the popped cell. *)
Definition bfs_pop (st : BfsState) : CellRC * BfsState :=
  let (cur, q) := queue_pop (b_queue st) in
  let r := rc_r cur in
  let c := rc_c cur in
  let g1 := mark_andnot (b_grid st) r c M_FRONT in
  let g2 := if Z.land (aget 0 (marks g1) (r * cols g1 + c)) M_VISIT =? 0
            then mark_or g1 r c M_VISIT else g1 in
  (cur, mkBfs g2 (b_parent st) q (b_brk st)).

Definition bfs_body (er ec : Z) (st : BfsState) : BfsState :=
  let (cur, st1) := bfs_pop st in
  let r := rc_r cur in
  let c := rc_c cur in
  if (r =? er) && (c =? ec)
  then mkBfs (b_grid st1) (b_parent st1) (b_queue st1) true
  else fold_left (bfs_visit r c) [0; 1; 2; 3] st1.

Definition bfs_finished (st : BfsState) : bool :=
  b_brk st || queue_empty (b_queue st).

(** The state after at most [n] iterations of the main loop. *)
Fixpoint bfs_run (n : nat) (er ec : Z) (st : BfsState) : BfsState :=
  match n with
  | O => st
  | S k => if bfs_finished st then st else bfs_run k er ec (bfs_body er ec st)
  end.

Definition solve_bfs (fuel : nat) (g : Grid) (sr sc er ec : Z)
  : option (Grid * list CellRC) :=
  let st := bfs_run fuel er ec (bfs_init g sr sc) in
  if bfs_finished st
  then reconstruct_and_mark fuel (b_grid st) (b_parent st) (cols g) er ec
  else None.

(** ** Configuration read by [main] *)

(** [input] is the integer [sscanf] parsed from the line, if any. *)
Definition get_int_with_default (input : option Z) (def : Z) : Z :=
  match input with Some x => x | None => def end.

Record Config := mkConfig {
  cfg_cols : Z; cfg_rows : Z; cfg_algo : Z; cfg_delay : Z
}.

Definition main_config (in_cols in_rows in_algo in_delay : option Z) : Config :=
  let cols := get_int_with_default in_cols 31 in
  let rows := get_int_with_default in_rows 21 in
  let cols := if cols <? 11 then 11 else cols in
  let rows := if rows <? 11 then 11 else rows in
  let cols := if Z.rem cols 2 =? 0 then cols + 1 else cols in
  let rows := if Z.rem rows 2 =? 0 then rows + 1 else rows in
  let algo_choice := get_int_with_default in_algo 2 in
  let delay := get_int_with_default in_delay 40 in
  mkConfig cols rows algo_choice delay.

(** The arguments of the call of [solve_dfs] or [solve_bfs] made by [main]. *)
Record SolveCall := mkCall {
  call_dfs : bool;
  call_sr : Z; call_sc : Z; call_er : Z; call_ec : Z;
  call_delay : Z
}.

Definition main_solve_call (cfg : Config) : SolveCall :=
  let sr := 1 in
  let sc := 1 in
  let er := cfg_rows cfg - 2 in
  let ec := cfg_cols cfg - 2 in
  mkCall (cfg_algo cfg =? 1) sr sc er ec (cfg_delay cfg).

(** Conversion to a 32-bit unsigned argument ([DWORD], [useconds_t]). *)
Definition to_uint (z : Z) : Z := z mod 2 ^ 32.

(** [sleep_ms]: the argument of the system call made, if one is made.
    [win] selects the branch compiled for Windows, which calls [Sleep(ms)]
    whatever [ms] is; the other branch calls [usleep(ms * 1000)] when
    [ms > 0].  The product is computed in [int]: past [INT_MAX] it
    overflows, which C leaves undefined and the usual targets wrap, so
    that the argument received is the product modulo [2 ^ 32]. *)
Definition sleep_ms (win : bool) (ms : Z) : option Z :=
  if win then Some (to_uint ms)
  else if ms >? 0 then Some (to_uint (ms * 1000)) else None.

Section WithRand.
(** [rand n] is the value returned by the [n]-th call of [rand()]. *)
Variable rand : nat -> Z.

(** ** shuffle_ints *)

Fixpoint shuffle_from (i : nat) (arr : list Z) (rng : nat) : list Z * nat :=
  match i with
  | O => (arr, rng)
  | S i' =>
      let j := Z.rem (rand rng) (Z.of_nat i + 1) in
      let t := aget 0 arr (Z.of_nat i) in
      let arr1 := aset arr (Z.of_nat i) (aget 0 arr j) in
      let arr2 := aset arr1 j t in
      shuffle_from i' arr2 (S rng)
  end.

Definition shuffle_ints (arr : list Z) (n : Z) (rng : nat) : list Z * nat :=
  shuffle_from (Z.to_nat (n - 1)) arr rng.

(** ** Maze generation *)

Record GenState := mkGen {
  gn_grid : Grid;
  gn_vis : list Z;
  gn_stack : list CellRC;
  gn_top : Z;
  gn_rng : nat
}.

Definition dirs : list (Z * Z) := [(-2, 0); (2, 0); (0, -2); (0, 2)].

Definition gen_fill (g : Grid) : Grid :=
  let g1 := for_range 0 (rows g) 1
              (fun r t => for_range 0 (cols g) 1 (fun c u => grid_set u r c 1) t) g in
  for_range 1 (rows g) 2
    (fun r t => for_range 1 (cols g) 2 (fun c u => grid_set u r c 0) t) g1.

Definition gen_init (g : Grid) (rng : nat) : GenState :=
  let g2 := gen_fill g in
  let maxcells := Z.quot (rows g) 2 * Z.quot (cols g) 2 in
  let stack := repeat (RC 0 0) (Z.to_nat maxcells) in
  let vis := repeat 0 (Z.to_nat (rows g * cols g)) in
  mkGen g2 (aset vis (1 * cols g + 1) 1) (aset stack 0 (RC 1 1)) 1 rng.

(** The directions stored in [choices] by the [for (i...)] scan. *)
Definition gen_choices (g : Grid) (vis : list Z) (r c : Z) : list Z :=
  filter (fun i =>
            let d := aget (0, 0) dirs i in
            let nr := r + fst d in
            let nc := c + snd d in
            (nr >? 0) && (nr <? rows g - 1) && (nc >? 0) && (nc <? cols g - 1)
            && (aget 0 vis (nr * cols g + nc) =? 0))
         [0; 1; 2; 3].

Definition gen_body (st : GenState) : GenState :=
  let g := gn_grid st in
  let cur := aget (RC 0 0) (gn_stack st) (gn_top st - 1) in
  let r := rc_r cur in
  let c := rc_c cur in
  let choices := gen_choices g (gn_vis st) r c in
  let ch := Z.of_nat (length choices) in
  if ch >? 0 then
    let pick := aget 0 choices (Z.rem (rand (gn_rng st)) ch) in
    let d := aget (0, 0) dirs pick in
    let nr := r + fst d in
    let nc := c + snd d in
    let wr := r + Z.quot (fst d) 2 in
    let wc := c + Z.quot (snd d) 2 in
    mkGen (grid_set g wr wc 0)
          (aset (gn_vis st) (nr * cols g + nc) 1)
          (aset (gn_stack st) (gn_top st) (RC nr nc))
          (gn_top st + 1)
          (S (gn_rng st))
  else
    mkGen g (gn_vis st) (gn_stack st) (gn_top st - 1) (gn_rng st).

Fixpoint gen_run (n : nat) (st : GenState) : GenState :=
  match n with
  | O => st
  | S k => if gn_top st >? 0 then gen_run k (gen_body st) else st
  end.

(** [generate_maze]: the carved grid and the position reached in the
    [rand()] stream, or [None] when the fuel does not cover the loop. *)
Definition generate_maze (fuel : nat) (g : Grid) (rng : nat) : option (Grid * nat) :=
  let st := gen_run fuel (gen_init g rng) in
  if gn_top st >? 0 then None else Some (gn_grid st, gn_rng st).

(** ** Depth-first search *)

Record DfsState := mkDfs {
  d_grid : Grid;
  d_parent : list Z;
  d_stack : Stack;
  d_rng : nat;
  d_brk : bool
}.

Definition dfs_init (g : Grid) (sr sc : Z) (rng : nat) : DfsState :=
  let n := rows g * cols g in
  let parent := repeat (-1) (Z.to_nat n) in
  let g0 := mkGrid (rows g) (cols g) (cells g) (memset (marks g) M_NONE n) in
  let st := stack_push (stack_create (n + 5)) (RC sr sc) in
  let parent := aset parent (sr * cols g + sc) (-2) in
  mkDfs (mark_or g0 sr sc M_FRONT) parent st rng false.

Definition dfs_visit (r c : Z) (st : DfsState) (k : Z) : DfsState :=
  let g := d_grid st in
  let d := aget (0, 0) nbrs4 k in
  let nr := r + fst d in
  let nc := c + snd d in
  if is_inside g nr nc && (grid_get g nr nc =? 0)
     && (aget 0 (marks g) (nr * cols g + nc) =? M_NONE)
  then
    let parent :=
      if aget 0 (d_parent st) (nr * cols g + nc) =? -1
      then aset (d_parent st) (nr * cols g + nc) (r * cols g + c)
      else d_parent st in
    mkDfs (mark_or g nr nc M_FRONT) parent
          (stack_push (d_stack st) (RC nr nc)) (d_rng st) (d_brk st)
  else st.

Definition dfs_pop (st : DfsState) : CellRC * DfsState :=
  let (cur, s) := stack_pop (d_stack st) in
  let r := rc_r cur in
  let c := rc_c cur in
  let g1 := mark_andnot (d_grid st) r c M_FRONT in
  let g2 := if Z.land (aget 0 (marks g1) (r * cols g1 + c)) M_VISIT =? 0
            then mark_or g1 r c M_VISIT else g1 in
  (cur, mkDfs g2 (d_parent st) s (d_rng st) (d_brk st)).

Definition dfs_body (er ec : Z) (st : DfsState) : DfsState :=
  let (cur, st1) := dfs_pop st in
  let r := rc_r cur in
  let c := rc_c cur in
  if (r =? er) && (c =? ec)
  then mkDfs (d_grid st1) (d_parent st1) (d_stack st1) (d_rng st1) true
  else
    let (order, rng) := shuffle_ints [0; 1; 2; 3] 4 (d_rng st1) in
    fold_left (dfs_visit r c) order
              (mkDfs (d_grid st1) (d_parent st1) (d_stack st1) rng (d_brk st1)).

Definition dfs_finished (st : DfsState) : bool :=
  d_brk st || stack_empty (d_stack st).

Fixpoint dfs_run (n : nat) (er ec : Z) (st : DfsState) : DfsState :=
  match n with
  | O => st
  | S k => if dfs_finished st then st else dfs_run k er ec (dfs_body er ec st)
  end.

Definition solve_dfs (fuel : nat) (g : Grid) (sr sc er ec : Z) (rng : nat)
  : option (Grid * list CellRC) :=
  let st := dfs_run fuel er ec (dfs_init g sr sc rng) in
  if dfs_finished st
  then reconstruct_and_mark fuel (d_grid st) (d_parent st) (cols g) er ec
  else None.

End WithRand.

(** ** The maze graph and the shape of a reconstructed path *)

(** Index of a cell in the flat arrays, and the cell [reconstruct_and_mark]
    computes back from an index. *)
Definition cidx (w : Z) (p : CellRC) : Z := rc_r p * w + rc_c p.
Definition cell_of (w : Z) (i : Z) : CellRC := RC (Z.quot i w) (Z.rem i w).

Definition inside (g : Grid) (p : CellRC) : Prop :=
  is_inside g (rc_r p) (rc_c p) = true.

Definition cell_open (g : Grid) (p : CellRC) : Prop :=
  inside g p /\ grid_get g (rc_r p) (rc_c p) = 0.

Definition adjacent (p q : CellRC) : Prop :=
  Z.abs (rc_r p - rc_r q) + Z.abs (rc_c p - rc_c q) = 1.

(** [walk g s k p]: [p] is reached from [s] by [k] single steps, each onto an
    adjacent open cell of the grid. *)
Inductive walk (g : Grid) (s : CellRC) : nat -> CellRC -> Prop :=
| walk_here : walk g s O s
| walk_step : forall k p q,
    walk g s k p -> adjacent p q -> cell_open g q -> walk g s (S k) q.

(** Consecutive cells of a list are grid-adjacent. *)
Fixpoint steps_adjacent (l : list CellRC) : Prop :=
  match l with
  | p :: (q :: _) as t => adjacent p q /\ steps_adjacent t
  | _ => True
  end.

(** The [k]-th predecessor of [i] along the parent links; the sentinels are
    their own predecessors. *)
Fixpoint ancestor (parent : list Z) (k : nat) (i : Z) : Z :=
  match k with
  | O => i
  | S k' =>
      if (i =? -2) || (i =? -1) then i else ancestor parent k' (aget 0 parent i)
  end.

(** The parent array over [n] cells is a tree rooted at [start]: [start]
    alone carries the root sentinel, every other set entry links to a cell
    whose entry is set, and no cell is its own proper ancestor. *)
Record parent_tree (n start : Z) (parent : list Z) : Prop := {
  pt_len : Z.of_nat (length parent) = n;
  pt_start : 0 <= start < n;
  pt_root : aget 0 parent start = -2;
  pt_only_root : forall i, 0 <= i < n -> aget 0 parent i = -2 -> i = start;
  pt_link : forall i, 0 <= i < n ->
      aget 0 parent i <> -1 -> aget 0 parent i <> -2 ->
      0 <= aget 0 parent i < n /\ aget 0 parent (aget 0 parent i) <> -1;
  pt_acyclic : forall i k, 0 <= i < n -> (0 < k)%nat -> ancestor parent k i <> i
}.

(** Bit [M_PATH] of a mark. *)
Definition has_path (m : Z) : bool := Z.testbit m 2.

(** No mark of [g] has its path bit set. *)
Definition no_path (g : Grid) : Prop :=
  forall i, has_path (aget 0 (marks g) i) = false.

(** The links recorded by a search from [s]: every set entry other than the
    root's names an adjacent cell discovered earlier, one level closer to
    [s] in the levels [d], and belongs to an open cell. *)
Record tree_inv (g : Grid) (s : CellRC) (parent : list Z) (d : Z -> nat) : Prop := {
  ti_len : Z.of_nat (length parent) = rows g * cols g;
  ti_start : inside g s;
  ti_root : aget 0 parent (cidx (cols g) s) = -2;
  ti_root_d : d (cidx (cols g) s) = O;
  ti_node : forall i, 0 <= i < rows g * cols g ->
      aget 0 parent i = -1 \/
      (aget 0 parent i = -2 /\ i = cidx (cols g) s) \/
      (0 <= aget 0 parent i < rows g * cols g /\
       aget 0 parent (aget 0 parent i) <> -1 /\
       d i = S (d (aget 0 parent i)) /\
       adjacent (cell_of (cols g) (aget 0 parent i)) (cell_of (cols g) i) /\
       cell_open g (cell_of (cols g) i))
}.

(** ** The contents of the containers *)

(** Every cell written to the queue so far (the queue has not wrapped), the
    cells still to be read, and the cells on the stack, bottom first. *)
Definition q_pushed (q : Queue) : list CellRC :=
  firstn (Z.to_nat (q_tail q)) (q_data q).

Definition q_pending (q : Queue) : list CellRC :=
  skipn (Z.to_nat (q_head q)) (q_pushed q).

Definition s_live (s : Stack) : list CellRC :=
  firstn (Z.to_nat (s_top s)) (s_data s).

(** ** Counting cells *)

Definition idxs (n : Z) : list Z := map Z.of_nat (seq 0 (Z.to_nat n)).

Definition count_if (f : Z -> bool) (n : Z) : nat := length (filter f (idxs n)).

(** Number of entries of [parent], among the first [n], that are set. *)
Definition count_set (parent : list Z) (n : Z) : nat :=
  count_if (fun i => negb (aget 0 parent i =? -1)) n.

(** Number of marks, among the first [n], that are still [M_NONE]. *)
Definition count_none (marks : list Z) (n : Z) : nat :=
  count_if (fun i => aget 0 marks i =? M_NONE) n.

(** ** Invariants of the searches *)

Definition discovered (parent : list Z) (i : Z) : Prop := aget 0 parent i <> -1.

(** Every open neighbour of [p] has been discovered. *)
Definition scanned (g : Grid) (parent : list Z) (p : CellRC) : Prop :=
  forall q, adjacent p q -> cell_open g q -> discovered parent (cidx (cols g) q).

(** [g'] is the maze [g], possibly with other marks. *)
Definition same_maze (g g' : Grid) : Prop :=
  rows g' = rows g /\ cols g' = cols g /\ cells g' = cells g /\
  length (marks g') = length (marks g).

Definition level (d : Z -> nat) (w : Z) (c : CellRC) : nat := d (cidx w c).

(** The cells waiting in the queue span at most two consecutive levels,
    the lower one first. *)
Definition two_levels (d : Z -> nat) (w : Z) (m : nat) (l : list CellRC) : Prop :=
  exists A B, l = A ++ B /\
              Forall (fun c => level d w c = m) A /\
              Forall (fun c => level d w c = S m) B.

Record bfs_core (g : Grid) (s : CellRC) (st : BfsState) (d : Z -> nat) : Prop := {
  bc_maze : same_maze g (b_grid st);
  bc_tree : tree_inv g s (b_parent st) d;
  bc_short : forall k v, walk g s k v ->
      discovered (b_parent st) (cidx (cols g) v) -> (level d (cols g) v <= k)%nat;
  bc_len : Z.of_nat (length (q_data (b_queue st))) = q_cap (b_queue st);
  bc_cap : q_cap (b_queue st) = rows g * cols g + 5;
  bc_head : 0 <= q_head (b_queue st) <= q_tail (b_queue st);
  bc_tail : q_tail (b_queue st) = Z.of_nat (count_set (b_parent st) (rows g * cols g));
  bc_nodup : NoDup (q_pushed (b_queue st));
  bc_pushed : forall c, In c (q_pushed (b_queue st)) ->
      inside g c /\ discovered (b_parent st) (cidx (cols g) c);
  bc_disc : forall i, 0 <= i < rows g * cols g -> discovered (b_parent st) i ->
      In (cell_of (cols g) i) (q_pushed (b_queue st))
}.

(** At the head of the main loop, while [e] has not been popped: a cell
    discovered so far is still waiting in the queue, or it has been scanned
    and is not [e]. *)
Record bfs_head (g : Grid) (s e : CellRC) (st : BfsState) (d : Z -> nat) : Prop := {
  bh_core : bfs_core g s st d;
  bh_levels : exists m, two_levels d (cols g) m (q_pending (b_queue st));
  bh_done : forall i, 0 <= i < rows g * cols g -> discovered (b_parent st) i ->
      In (cell_of (cols g) i) (q_pending (b_queue st)) \/
      (scanned g (b_parent st) (cell_of (cols g) i) /\ i <> cidx (cols g) e)
}.

(** Inside the scan of the neighbours of [cur], popped at level [m]. *)
Record bfs_mid (g : Grid) (s e : CellRC) (st : BfsState) (d : Z -> nat)
       (cur : CellRC) (m : nat) : Prop := {
  bm_core : bfs_core g s st d;
  bm_cur_in : inside g cur;
  bm_cur_disc : discovered (b_parent st) (cidx (cols g) cur);
  bm_cur_level : level d (cols g) cur = m;
  bm_levels : two_levels d (cols g) m (q_pending (b_queue st));
  bm_done : forall i, 0 <= i < rows g * cols g -> discovered (b_parent st) i ->
      i <> cidx (cols g) cur ->
      In (cell_of (cols g) i) (q_pending (b_queue st)) \/
      (scanned g (b_parent st) (cell_of (cols g) i) /\ i <> cidx (cols g) e);
  bm_front : forall k v, walk g s k v ->
      ~ discovered (b_parent st) (cidx (cols g) v) -> (m < k)%nat
}.

(** The invariant of [bfs_run]. *)
Definition bfs_inv (g : Grid) (s e : CellRC) (st : BfsState) : Prop :=
  exists d, bfs_core g s st d /\
            if b_brk st then discovered (b_parent st) (cidx (cols g) e)
            else bfs_head g s e st d.

(** The neighbour of [cur] in direction [k]. *)
Definition nbr (cur : CellRC) (k : Z) : CellRC :=
  RC (rc_r cur + fst (aget (0, 0) nbrs4 k)) (rc_c cur + snd (aget (0, 0) nbrs4 k)).

Record dfs_core (g : Grid) (s : CellRC) (st : DfsState) (d : Z -> nat) : Prop := {
  dc_maze : same_maze g (d_grid st);
  dc_tree : tree_inv g s (d_parent st) d;
  dc_len : Z.of_nat (length (s_data (d_stack st))) = s_cap (d_stack st);
  dc_cap : s_cap (d_stack st) = rows g * cols g + 5;
  dc_top : 0 <= s_top (d_stack st) <= rows g * cols g;
  dc_nodup : NoDup (s_live (d_stack st));
  dc_live : forall c, In c (s_live (d_stack st)) ->
      inside g c /\ discovered (d_parent st) (cidx (cols g) c) /\
      aget 0 (marks (d_grid st)) (cidx (cols g) c) <> M_NONE
}.

(** While [e] has not been popped: a discovered cell is on the stack or
    is not [e]. *)
Definition dfs_pending (g : Grid) (e : CellRC) (st : DfsState) : Prop :=
  forall i, 0 <= i < rows g * cols g -> discovered (d_parent st) i ->
            In (cell_of (cols g) i) (s_live (d_stack st)) \/ i <> cidx (cols g) e.

(** The invariant of [dfs_run]. *)
Definition dfs_inv (g : Grid) (s e : CellRC) (st : DfsState) : Prop :=
  exists d, dfs_core g s st d /\
            if d_brk st then discovered (d_parent st) (cidx (cols g) e)
            else dfs_pending g e st.

(** The quantity that every iteration of the main loop decreases. *)
Definition dfs_measure (g : Grid) (st : DfsState) : Z :=
  s_top (d_stack st) + Z.of_nat (count_none (marks (d_grid st)) (rows g * cols g)).

(** ** Capacity of the containers *)

(** The queue over [n] cells has not wrapped: [q_tail] counts the pushes,
    one per set entry of [parent], no cell was written twice, and the
    write position is below the capacity. *)
Definition queue_safe (n : Z) (parent : list Z) (q : Queue) : Prop :=
  0 <= q_head q <= q_tail q /\
  q_tail q = Z.of_nat (count_set parent n) /\
  q_tail q <= n /\ n < q_cap q /\
  NoDup (q_pushed q).

(** The stack over [n] cells holds pairwise distinct cells and has room
    for the next push. *)
Definition stack_safe (n : Z) (s : Stack) : Prop :=
  0 <= s_top s <= n /\ n < s_cap s /\ NoDup (s_live s).

(** A pass of the neighbour loop of [solve_bfs] that changes the queue
    pushes a cell whose parent entry was unset, and sets that entry. *)
Definition bfs_push_fresh (r c : Z) (st : BfsState) (k : Z) : Prop :=
  let st' := bfs_visit r c st k in
  let i := cidx (cols (b_grid st)) (nbr (RC r c) k) in
  b_queue st' <> b_queue st ->
  aget 0 (b_parent st) i = -1 /\ aget 0 (b_parent st') i <> -1.

(** A pass of the neighbour loop of [solve_dfs] that changes the stack
    pushes a cell whose mark was [M_NONE], and marks that cell. *)
Definition dfs_push_fresh (r c : Z) (st : DfsState) (k : Z) : Prop :=
  let st' := dfs_visit r c st k in
  let i := cidx (cols (d_grid st)) (nbr (RC r c) k) in
  d_stack st' <> d_stack st ->
  aget 0 (marks (d_grid st)) i = M_NONE /\ aget 0 (marks (d_grid st')) i <> M_NONE.

(** ** The generated maze *)

(** [g'] has the dimensions, the marks and the number of cells of [g]. *)
Definition shape (g g' : Grid) : Prop :=
  rows g' = rows g /\ cols g' = cols g /\ marks g' = marks g /\
  length (cells g') = length (cells g).

(** Room cells have both coordinates odd. *)
Definition is_room (p : CellRC) : bool := Z.odd (rc_r p) && Z.odd (rc_c p).

(** Strictly inside the border, as [generate_maze] tests it. *)
Definition interior (g : Grid) (p : CellRC) : Prop :=
  0 < rc_r p < rows g - 1 /\ 0 < rc_c p < cols g - 1.

Definition room (g : Grid) (p : CellRC) : Prop :=
  interior g p /\ is_room p = true.

(** The room two cells away in direction [k] of [dirs], and the wall
    position in between. *)
Definition room_nbr (p : CellRC) (k : Z) : CellRC :=
  RC (rc_r p + fst (aget (0, 0) dirs k)) (rc_c p + snd (aget (0, 0) dirs k)).

Definition wall_between (p : CellRC) (k : Z) : CellRC :=
  RC (rc_r p + Z.quot (fst (aget (0, 0) dirs k)) 2)
     (rc_c p + Z.quot (snd (aget (0, 0) dirs k)) 2).

(** Indices of the open cells at wall positions, and of the room cells. *)
Definition open_walls (g : Grid) : list Z :=
  filter (fun i => negb (is_room (cell_of (cols g) i)) && (aget 0 (cells g) i =? 0))
         (idxs (rows g * cols g)).

Definition room_cells (g : Grid) : list Z :=
  filter (fun i => is_room (cell_of (cols g) i)) (idxs (rows g * cols g)).

Definition visited (vis : list Z) (i : Z) : Prop := aget 0 vis i <> 0.

Definition count_visited (vis : list Z) (n : Z) : nat :=
  count_if (fun i => negb (aget 0 vis i =? 0)) n.

Definition gn_live (st : GenState) : list CellRC :=
  firstn (Z.to_nat (gn_top st)) (gn_stack st).

(** The invariant of the carving loop of [generate_maze]. *)
Record gen_inv (g : Grid) (st : GenState) : Prop := {
  gi_shape : shape g (gn_grid st);
  gi_vis_len : Z.of_nat (length (gn_vis st)) = rows g * cols g;
  gi_vis_room : forall i, 0 <= i < rows g * cols g -> visited (gn_vis st) i ->
      room g (cell_of (cols g) i);
  gi_rooms_open : forall p, inside g p -> is_room p = true ->
      grid_get (gn_grid st) (rc_r p) (rc_c p) = 0;
  gi_walls : forall p k, room g p -> 0 <= k < 4 -> interior g (room_nbr p k) ->
      grid_get (gn_grid st) (rc_r (wall_between p k)) (rc_c (wall_between p k)) = 0 ->
      visited (gn_vis st) (cidx (cols g) p) /\
      visited (gn_vis st) (cidx (cols g) (room_nbr p k));
  gi_count : S (length (open_walls (gn_grid st)))
             = count_visited (gn_vis st) (rows g * cols g);
  gi_reach : forall i, 0 <= i < rows g * cols g -> visited (gn_vis st) i ->
      exists k, walk (gn_grid st) (RC 1 1) k (cell_of (cols g) i);
  gi_stack_len : Z.of_nat (length (gn_stack st))
                 = Z.quot (rows g) 2 * Z.quot (cols g) 2;
  gi_top : 0 <= gn_top st <= Z.quot (rows g) 2 * Z.quot (cols g) 2;
  gi_live_nodup : NoDup (gn_live st);
  gi_live : forall c, In c (gn_live st) ->
      room g c /\ visited (gn_vis st) (cidx (cols g) c);
  gi_done : forall i, 0 <= i < rows g * cols g -> visited (gn_vis st) i ->
      In (cell_of (cols g) i) (gn_live st) \/
      forall k, 0 <= k < 4 -> interior g (room_nbr (cell_of (cols g) i) k) ->
                visited (gn_vis st) (cidx (cols g) (room_nbr (cell_of (cols g) i) k));
  gi_first : visited (gn_vis st) (cidx (cols g) (RC 1 1))
}.

(** The quantity that every iteration of the carving loop decreases. *)
Definition gen_measure (g : Grid) (st : GenState) : Z :=
  2 * Z.of_nat (count_if (fun i => aget 0 (gn_vis st) i =? 0) (rows g * cols g))
  + gn_top st.

(** ** Example inputs *)

(** A corridor of three open cells. *)
Definition corridor : Grid := mkGrid 1 3 [0; 0; 0] [0; 0; 0].

(** The parent links a search of the corridor from its left end leaves. *)
Definition corridor_parent : list Z := [-2; 0; 1].

(** A [rand()] that always returns 0. *)
Definition rand_zero (n : nat) : Z := 0.

(** The 11 by 11 grid that [grid_init] leaves: all walls, no marks. *)
Definition fresh11 : Grid := mkGrid 11 11 (repeat 1 121) (repeat M_NONE 121).

(** ** The circular queue in general *)

(** The queue owns [q_cap] slots and both positions are inside them. *)
Definition q_wf (q : Queue) : Prop :=
  Z.of_nat (length (q_data q)) = q_cap q /\
  0 <= q_head q < q_cap q /\ 0 <= q_tail q < q_cap q.

(** Number of cells between the read and the write position, going round. *)
Definition q_len (q : Queue) : Z := (q_tail q - q_head q) mod q_cap q.

(** The cells [queue_pop] will return, in order. *)
Definition q_contents (q : Queue) : list CellRC :=
  map (fun i => aget (RC 0 0) (q_data q) ((q_head q + Z.of_nat i) mod q_cap q))
      (seq 0 (Z.to_nat (q_len q))).

(** ** Depth-first search reaches every reachable cell *)

(** The cell with index [i] carries some mark. *)
Definition marked (g : Grid) (i : Z) : Prop := aget 0 (marks g) i <> M_NONE.

(** Every marked cell has a parent entry. *)
Definition dfs_marked_disc (g : Grid) (st : DfsState) : Prop :=
  forall i, 0 <= i < rows g * cols g -> marked (d_grid st) i -> discovered (d_parent st) i.

(** Every marked cell outside [skip] is on the stack, or all its open
    neighbours are marked. *)
Definition dfs_closed (g : Grid) (st : DfsState) (skip : Z -> Prop) : Prop :=
  forall i, 0 <= i < rows g * cols g -> marked (d_grid st) i ->
    skip i \/ In (cell_of (cols g) i) (s_live (d_stack st)) \/
    forall q, adjacent (cell_of (cols g) i) q -> cell_open g q ->
              marked (d_grid st) (cidx (cols g) q).

(** ** More about the carving loop *)

(** Every cell is a wall or open, and an open cell lies strictly inside
    the border and has an odd coordinate. *)
Definition gen_enclosed (g : Grid) (st : GenState) : Prop :=
  forall p, inside g p ->
            grid_get (gn_grid st) (rc_r p) (rc_c p) = 1 \/
            (grid_get (gn_grid st) (rc_r p) (rc_c p) = 0 /\
             interior g p /\ Z.odd (rc_r p) || Z.odd (rc_c p) = true).

(** [rand()] has been called once for every visited room but the first. *)
Definition gen_calls (g : Grid) (rng0 : nat) (st : GenState) : Prop :=
  S (gn_rng st) = (rng0 + count_visited (gn_vis st) (rows g * cols g))%nat.

(** ** Drawing *)

Definition ESC : String.string :=
  String.String (Ascii.ascii_of_nat 27) String.EmptyString.
Definition newline : String.string :=
  String.String (Ascii.ascii_of_nat 10) String.EmptyString.

Definition COL_RESET : String.string := String.append ESC "[0m".
Definition COL_WALL : String.string := String.append ESC "[48;2;20;28;36m".
Definition COL_EMPTY : String.string := String.append ESC "[48;2;240;245;250m".
Definition COL_VISIT : String.string := String.append ESC "[48;2;16;185;129m".
Definition COL_FRONT : String.string := String.append ESC "[48;2;96;165;250m".
Definition COL_PATH : String.string := String.append ESC "[48;2;244;63;94m".
Definition COL_SE : String.string := String.append ESC "[48;2;251;191;36m".
Definition FULL_BLOCK : String.string := "  ".

(** The text written by [move_cursor_home]. *)
Definition move_cursor_home : String.string := String.append ESC "[H".

(** [printf("%s%s%s", col, FULL_BLOCK, COL_RESET)] *)
Definition block (col : String.string) : String.string :=
  String.append col (String.append FULL_BLOCK COL_RESET).

(** The text [draw_grid] writes for the cell at [(r, c)]. *)
Definition draw_cell (g : Grid) (sr sc er ec r c : Z) : String.string :=
  if (r =? sr) && (c =? sc) then block COL_SE
  else if (r =? er) && (c =? ec) then block COL_SE
  else
    let cell := grid_get g r c in
    let m := mark_get g r c in
    if cell =? 1 then block COL_WALL
    else if negb (Z.land m M_PATH =? 0) then block COL_PATH
    else if negb (Z.land m M_FRONT =? 0) then block COL_FRONT
    else if negb (Z.land m M_VISIT =? 0) then block COL_VISIT
    else block COL_EMPTY.

(** The text written by one call of [draw_grid]. *)
Definition draw_grid (g : Grid) (sr sc er ec : Z) : String.string :=
  for_range 0 (rows g) 1
    (fun r out =>
       String.append
         (for_range 0 (cols g) 1
            (fun c line => String.append line (draw_cell g sr sc er ec r c)) out)
         newline)
    move_cursor_home.

(** The strings of a list, one after the other. *)
Definition cat_all (l : list String.string) : String.string :=
  fold_right String.append String.EmptyString l.

(** ** One round of the loop of [main] *)

Section Round.
Variable rand : nat -> Z.

(** [generate_maze] followed by the chosen solver, from [(1, 1)] to
    [(rows - 2, cols - 2)]; [fg] and [fs] bound the iterations of the
    generator and of the solver. *)
Definition main_round (fg fs : nat) (algo_choice : Z) (g : Grid) (rng : nat)
  : option (Grid * list CellRC) :=
  let sr := 1 in
  let sc := 1 in
  let er := rows g - 2 in
  let ec := cols g - 2 in
  match generate_maze rand fg g rng with
  | None => None
  | Some (g1, rng1) =>
      if algo_choice =? 1
      then solve_dfs rand fs g1 sr sc er ec rng1
      else solve_bfs fs g1 sr sc er ec
  end.
End Round.

(** * Arrays *)

Section ArrayLemmas.
Context {A : Type}.
Implicit Types (l : list A) (d v : A).

Lemma length_upd l n v : length (upd l n v) = length l.
Proof. revert n; induction l; intros [|n]; simpl; auto. Qed.

Lemma nth_upd_same l n v d : (n < length l)%nat -> nth n (upd l n v) d = v.
Proof.
  revert n; induction l; intros [|n]; simpl; intros; try lia; auto.
  apply IHl; lia.
Qed.

Lemma nth_upd_other l n m v d : n <> m -> nth m (upd l n v) d = nth m l d.
Proof.
  revert n m; induction l; intros [|n] [|m]; simpl; intros; try lia; auto.
Qed.

Lemma length_aset l i v : length (aset l i v) = length l.
Proof. unfold aset; destruct (i <? 0); auto using length_upd. Qed.

Lemma aget_aset_same l i v d :
  0 <= i < Z.of_nat (length l) -> aget d (aset l i v) i = v.
Proof.
  intros H; unfold aget, aset.
  destruct (Z.ltb_spec i 0); try lia.
  apply nth_upd_same; lia.
Qed.

Lemma aget_aset_other l i j v d : i <> j -> aget d (aset l i v) j = aget d l j.
Proof.
  intros H; unfold aget, aset.
  destruct (Z.ltb_spec j 0); auto.
  destruct (Z.ltb_spec i 0); auto.
  apply nth_upd_other; lia.
Qed.

Lemma aget_aset l i j v d :
  0 <= i < Z.of_nat (length l) ->
  aget d (aset l i v) j = if i =? j then v else aget d l j.
Proof.
  intros H; destruct (Z.eqb_spec i j).
  - subst; now apply aget_aset_same.
  - now apply aget_aset_other.
Qed.

Lemma aget_repeat (x d : A) n i :
  0 <= i < Z.of_nat n -> aget d (repeat x n) i = x.
Proof.
  intros H; unfold aget; destruct (Z.ltb_spec i 0); try lia.
  apply nth_repeat_lt; lia.
Qed.

Lemma aget_outside l i d : Z.of_nat (length l) <= i -> aget d l i = d.
Proof.
  intros H; unfold aget; destruct (Z.ltb_spec i 0); auto.
  apply nth_overflow; lia.
Qed.

Lemma aget_in l i d : 0 <= i < Z.of_nat (length l) -> In (aget d l i) l.
Proof.
  intros H; unfold aget; destruct (Z.ltb_spec i 0); try lia.
  apply nth_In; lia.
Qed.

(** The first [n+1] slots after writing slot [n]. *)
Lemma firstn_upd_snoc l n v :
  (n < length l)%nat -> firstn (S n) (upd l n v) = firstn n l ++ [v].
Proof.
  revert n; induction l; intros [|n]; simpl; intros; try lia; auto.
  f_equal. apply IHl; lia.
Qed.

Lemma firstn_upd_above l n m v :
  (m <= n)%nat -> firstn m (upd l n v) = firstn m l.
Proof.
  revert n m; induction l; intros [|n] [|m]; simpl; intros; try lia; auto.
  f_equal. apply IHl; lia.
Qed.

Lemma firstn_succ_nth l n d :
  (n < length l)%nat -> firstn (S n) l = firstn n l ++ [nth n l d].
Proof.
  revert n; induction l; intros [|n]; simpl; intros; try lia; auto.
  f_equal. apply IHl; lia.
Qed.

Lemma skipn_nth_cons l n d :
  (n < length l)%nat -> skipn n l = nth n l d :: skipn (S n) l.
Proof.
  revert n; induction l; intros [|n]; simpl; intros; try lia; auto.
  apply IHl; lia.
Qed.
End ArrayLemmas.

Lemma memset_all l v n :
  Z.of_nat (length l) = n -> memset l v n = repeat v (Z.to_nat n).
Proof.
  intros H; unfold memset.
  rewrite skipn_all2 by lia.
  rewrite app_nil_r. f_equal. lia.
Qed.

(** * Cells and indices *)

Lemma is_inside_iff g r c :
  is_inside g r c = true <-> 0 <= r < rows g /\ 0 <= c < cols g.
Proof. unfold is_inside; rewrite !andb_true_iff; lia. Qed.

Lemma inside_iff g p :
  inside g p <-> 0 <= rc_r p < rows g /\ 0 <= rc_c p < cols g.
Proof. apply is_inside_iff. Qed.

Lemma cidx_range g p :
  inside g p -> 0 <= cidx (cols g) p < rows g * cols g.
Proof. rewrite inside_iff; unfold cidx; nia. Qed.

Lemma cell_of_cidx w p :
  0 <= rc_r p -> 0 <= rc_c p < w -> cell_of w (cidx w p) = p.
Proof.
  intros Hr Hc; destruct p as [r c]; unfold cell_of, cidx; simpl in *.
  assert (Hq : Z.quot (r * w + c) w = r).
  { rewrite Z.quot_div_nonneg by nia. symmetry; apply (Z.div_unique _ _ _ c); nia. }
  assert (Hm : Z.rem (r * w + c) w = c).
  { rewrite Z.rem_mod_nonneg by nia. symmetry; apply (Z.mod_unique _ _ r); nia. }
  now rewrite Hq, Hm.
Qed.

Lemma cell_of_inside g p : inside g p -> cell_of (cols g) (cidx (cols g) p) = p.
Proof. rewrite inside_iff; intros; apply cell_of_cidx; lia. Qed.

Lemma cidx_cell_of w i : cidx w (cell_of w i) = i.
Proof.
  unfold cidx, cell_of; simpl.
  pose proof (Z.quot_rem' i w). lia.
Qed.

Lemma cell_of_range g i :
  0 < cols g -> 0 <= i < rows g * cols g -> inside g (cell_of (cols g) i).
Proof.
  intros Hw Hi; apply inside_iff; unfold cell_of; simpl.
  rewrite Z.quot_div_nonneg, Z.rem_mod_nonneg by lia.
  pose proof (Z.mod_pos_bound i (cols g) Hw).
  pose proof (Z.div_pos i (cols g)).
  assert (i / cols g < rows g) by (apply Z.div_lt_upper_bound; nia).
  lia.
Qed.

Lemma cidx_inj g p q :
  inside g p -> inside g q -> cidx (cols g) p = cidx (cols g) q -> p = q.
Proof.
  intros Hp Hq E.
  rewrite <- (cell_of_inside g p Hp), <- (cell_of_inside g q Hq).
  now rewrite E.
Qed.

(** The four entries of [nbrs4] are exactly the adjacent cells. *)
Lemma nbrs4_adjacent r c k :
  0 <= k < 4 ->
  adjacent (RC r c) (RC (r + fst (aget (0, 0) nbrs4 k)) (c + snd (aget (0, 0) nbrs4 k))).
Proof.
  intros Hk; unfold adjacent; simpl.
  assert (k = 0 \/ k = 1 \/ k = 2 \/ k = 3) as [-> | [-> | [-> | ->]]] by lia;
    simpl; lia.
Qed.

Lemma adjacent_nbrs4 p q :
  adjacent p q ->
  exists k, In k [0; 1; 2; 3] /\
            q = RC (rc_r p + fst (aget (0, 0) nbrs4 k)) (rc_c p + snd (aget (0, 0) nbrs4 k)).
Proof.
  destruct p as [r c], q as [r' c']; unfold adjacent; simpl; intros H.
  assert ((r' = r - 1 /\ c' = c) \/ (r' = r + 1 /\ c' = c)
          \/ (r' = r /\ c' = c - 1) \/ (r' = r /\ c' = c + 1))
    as [[-> ->] | [[-> ->] | [[-> ->] | [-> ->]]]] by lia.
  - exists 0; simpl; split; auto; f_equal; lia.
  - exists 1; simpl; split; auto; f_equal; lia.
  - exists 2; simpl; split; auto; f_equal; lia.
  - exists 3; simpl; split; auto; f_equal; lia.
Qed.

Lemma adjacent_sym p q : adjacent p q -> adjacent q p.
Proof. unfold adjacent; lia. Qed.

(** * Counting in a range *)

Lemma NoDup_map_inj {A B} (f : A -> B) (l : list A) :
  (forall x y, In x l -> In y l -> f x = f y -> x = y) ->
  NoDup l -> NoDup (map f l).
Proof.
  intros Hinj Hnd; induction Hnd as [|x l Hx Hnd IH]; simpl; constructor.
  - rewrite in_map_iff; intros (y & Hy & Hyl).
    assert (y = x) by (apply Hinj; simpl; auto).
    now subst.
  - apply IH; intros; apply Hinj; simpl; auto.
Qed.

Lemma NoDup_range_length (l : list Z) n :
  0 <= n -> NoDup l -> (forall x, In x l -> 0 <= x < n) -> Z.of_nat (length l) <= n.
Proof.
  intros Hn Hnd Hin.
  assert (Hl : (length (map Z.to_nat l) <= length (seq 0 (Z.to_nat n)))%nat).
  { apply NoDup_incl_length.
    - apply NoDup_map_inj; auto.
      intros x y Hx Hy E. apply Hin in Hx, Hy. lia.
    - intros k Hk. apply in_map_iff in Hk as (x & <- & Hx).
      apply in_seq. specialize (Hin x Hx). lia. }
  rewrite length_map, length_seq in Hl. lia.
Qed.

(** * Marks *)

Lemma mark_or_rows g r c v : rows (mark_or g r c v) = rows g.
Proof. reflexivity. Qed.
Lemma mark_or_cols g r c v : cols (mark_or g r c v) = cols g.
Proof. reflexivity. Qed.
Lemma mark_or_cells g r c v : cells (mark_or g r c v) = cells g.
Proof. reflexivity. Qed.
Lemma mark_or_length g r c v : length (marks (mark_or g r c v)) = length (marks g).
Proof. unfold mark_or; simpl; apply length_aset. Qed.

Lemma mark_andnot_length g r c v : length (marks (mark_andnot g r c v)) = length (marks g).
Proof. unfold mark_andnot; simpl; apply length_aset. Qed.

Lemma testbit_to_uchar z n : 0 <= n < 8 -> Z.testbit (to_uchar z) n = Z.testbit z n.
Proof.
  intros H; unfold to_uchar. change 256 with (2 ^ 8).
  apply Z.mod_pow2_bits_low; lia.
Qed.

Lemma has_path_or_path m : has_path (to_uchar (Z.lor m M_PATH)) = true.
Proof.
  unfold has_path. rewrite testbit_to_uchar, Z.lor_spec by lia.
  apply orb_true_r.
Qed.

(** Marking [cur] sets its path bit and leaves the path bit of every other
    cell as it was. *)
Lemma has_path_mark_or g w cur i :
  w = cols g ->
  0 <= i < Z.of_nat (length (marks g)) ->
  has_path (aget 0 (marks (mark_or g (Z.quot cur w) (Z.rem cur w) M_PATH)) i)
  = (cur =? i) || has_path (aget 0 (marks g) i).
Proof.
  intros -> Hi; unfold mark_or; simpl.
  replace (Z.quot cur (cols g) * cols g + Z.rem cur (cols g)) with cur
    by (pose proof (Z.quot_rem' cur (cols g)); lia).
  destruct (Z.eqb_spec cur i) as [->|Hne]; simpl.
  - rewrite aget_aset_same by lia. apply has_path_or_path.
  - now rewrite aget_aset_other.
Qed.

(** * The backward walk *)

Lemma ancestor_sentinel parent k i :
  i = -2 \/ i = -1 -> ancestor parent k i = i.
Proof. intros [-> | ->]; destruct k; reflexivity. Qed.

Lemma ancestor_succ parent k i :
  i <> -2 -> i <> -1 -> ancestor parent (S k) i = ancestor parent k (aget 0 parent i).
Proof.
  intros H2 H1; simpl.
  destruct (Z.eqb_spec i (-2)); try lia.
  destruct (Z.eqb_spec i (-1)); try lia.
  reflexivity.
Qed.

Lemma recon_loop_sentinel fuel parent w g cur :
  cur = -2 \/ cur = -1 -> recon_loop fuel parent w g cur = Some (g, []).
Proof. intros [-> | ->]; destruct fuel; reflexivity. Qed.

Lemma recon_loop_step fuel parent w g cur :
  cur <> -2 -> cur <> -1 ->
  recon_loop (S fuel) parent w g cur =
  match recon_loop fuel parent w (mark_or g (Z.quot cur w) (Z.rem cur w) M_PATH)
                   (aget 0 parent cur) with
  | Some (g', p) => Some (g', cell_of w cur :: p)
  | None => None
  end.
Proof.
  intros H2 H1; simpl.
  destruct (Z.eqb_spec cur (-2)); try lia.
  destruct (Z.eqb_spec cur (-1)); try lia.
  reflexivity.
Qed.

Lemma recon_fuel_mono f parent w :
  forall f' g cur x,
    recon_loop f parent w g cur = Some x -> (f <= f')%nat ->
    recon_loop f' parent w g cur = Some x.
Proof.
  induction f as [|f IH]; intros f' g cur x H Hle.
  - simpl in H. destruct ((cur =? -2) || (cur =? -1)) eqn:E; try discriminate.
    rewrite <- H. apply recon_loop_sentinel.
    apply orb_true_iff in E as [E|E]; apply Z.eqb_eq in E; auto.
  - destruct (Z.eq_dec cur (-2)) as [E2|E2];
      [rewrite recon_loop_sentinel in * by auto; auto|].
    destruct (Z.eq_dec cur (-1)) as [E1|E1];
      [rewrite recon_loop_sentinel in * by auto; auto|].
    destruct f' as [|f']; [lia|].
    rewrite recon_loop_step in * by auto.
    destruct (recon_loop f parent w _ _) as [[g' p]|] eqn:E; try discriminate.
    now rewrite (IH f' _ _ _ E) by lia.
Qed.

(** What a finished walk did: the grid keeps its shape, the cells marked
    are the successive ancestors of [cur], the walk stopped at a sentinel,
    and a path bit is set afterwards exactly where it was set before or
    where the walk passed. *)
Lemma recon_loop_spec fuel parent :
  forall g cur g' p,
    recon_loop fuel parent (cols g) g cur = Some (g', p) ->
    rows g' = rows g /\ cols g' = cols g /\ cells g' = cells g /\
    length (marks g') = length (marks g) /\
    (length p <= fuel)%nat /\
    p = map (fun j => cell_of (cols g) (ancestor parent j cur)) (seq 0 (length p)) /\
    (ancestor parent (length p) cur = -2 \/ ancestor parent (length p) cur = -1) /\
    (forall i, 0 <= i < Z.of_nat (length (marks g)) ->
               has_path (aget 0 (marks g') i)
               = has_path (aget 0 (marks g) i)
                 || existsb (fun c => cidx (cols g) c =? i) p).
Proof.
  induction fuel as [|fuel IH]; intros g cur g' p H.
  - simpl in H. destruct ((cur =? -2) || (cur =? -1)) eqn:E; try discriminate.
    inversion H; subst; simpl.
    repeat split; auto.
    + apply orb_true_iff in E as [E|E]; apply Z.eqb_eq in E; auto.
    + intros; now rewrite orb_false_r.
  - destruct (Z.eq_dec cur (-2)) as [E2|E2].
    { rewrite recon_loop_sentinel in H by auto. inversion H; subst; simpl.
      repeat split; auto; try lia. intros; now rewrite orb_false_r. }
    destruct (Z.eq_dec cur (-1)) as [E1|E1].
    { rewrite recon_loop_sentinel in H by auto. inversion H; subst; simpl.
      repeat split; auto; try lia. intros; now rewrite orb_false_r. }
    rewrite recon_loop_step in H by auto.
    set (g1 := mark_or g _ _ _) in H.
    destruct (recon_loop fuel parent (cols g) g1 _) as [[g2 p2]|] eqn:E; try discriminate.
    inversion H; subst g2 p; clear H.
    change (cols g) with (cols g1) in E.
    apply IH in E as (Hr & Hc & Hce & Hl & Hlen & Hp & Hend & Hm).
    unfold g1 in *; rewrite ?mark_or_rows, ?mark_or_cols, ?mark_or_cells,
                    ?mark_or_length in *.
    repeat split; auto.
    + simpl; lia.
    + simpl. f_equal. rewrite <- seq_shift, map_map.
      rewrite Hp at 1. apply map_ext; intros j.
      now rewrite ancestor_succ.
    + simpl length. now rewrite ancestor_succ.
    + intros i Hi. rewrite Hm by auto.
      rewrite has_path_mark_or by auto.
      simpl existsb. rewrite cidx_cell_of.
      destruct (cur =? i), (has_path (aget 0 (marks g) i)); reflexivity.
Qed.

(** * A tree of parent links *)

Lemma ancestor_add parent a :
  forall b i, ancestor parent (a + b) i = ancestor parent b (ancestor parent a i).
Proof.
  induction a as [|a IH]; intros b i; simpl; auto.
  destruct ((i =? -2) || (i =? -1)) eqn:E.
  - symmetry; apply ancestor_sentinel.
    apply orb_true_iff in E as [E|E]; apply Z.eqb_eq in E; auto.
  - apply IH.
Qed.

Section Tree.
Variables (n start : Z) (parent : list Z) (w : Z).
Hypothesis T : parent_tree n start parent.

(** The walk from [cur] ends before it has used one step per cell that
    is not already known to lie below [cur]. *)
Lemma recon_terminates :
  forall (m : nat) (seen : list Z) (cur : Z) (g : Grid),
    NoDup seen ->
    (forall x, In x seen ->
               0 <= x < n /\ exists k, (0 < k)%nat /\ ancestor parent k x = cur) ->
    0 <= cur < n -> aget 0 parent cur <> -1 ->
    n - Z.of_nat (length seen) <= Z.of_nat m ->
    exists g' p,
      recon_loop m parent w g cur = Some (g', p) /\
      p <> [] /\
      ancestor parent (length p) cur = -2 /\
      ancestor parent (length p - 1) cur = start.
Proof.
  induction m as [|m IH]; intros seen cur g Hnd Hseen Hcur Hset Hm.
  - exfalso.
    assert (Hnot : ~ In cur seen).
    { intros Hin. destruct (Hseen _ Hin) as (_ & k & Hk & E).
      now apply (pt_acyclic _ _ _ T cur k). }
    assert (Z.of_nat (length (cur :: seen)) <= n).
    { apply NoDup_range_length; try lia.
      - now constructor.
      - intros x [<-|Hx]; auto. now apply Hseen. }
    simpl length in *. lia.
  - assert (Hnot : ~ In cur seen).
    { intros Hin. destruct (Hseen _ Hin) as (_ & k & Hk & E).
      now apply (pt_acyclic _ _ _ T cur k). }
    rewrite recon_loop_step by lia.
    set (g1 := mark_or g _ _ _).
    destruct (Z.eq_dec (aget 0 parent cur) (-2)) as [Er|Er].
    + rewrite Er, recon_loop_sentinel by auto.
      exists g1, [cell_of w cur]. repeat split; try discriminate.
      * simpl length. rewrite ancestor_succ by lia. now rewrite Er.
      * simpl. now apply (pt_only_root _ _ _ T).
    + destruct (pt_link _ _ _ T cur Hcur Hset Er) as (Hnext & Hnset).
      destruct (IH (cur :: seen) (aget 0 parent cur) g1) as (g' & p & E & Hne & H2 & Hs);
        auto.
      * now constructor.
      * intros x [<-|Hx].
        -- split; auto. exists 1%nat. split; [lia|].
           now rewrite ancestor_succ by lia.
        -- destruct (Hseen _ Hx) as (Hxr & k & Hk & Ek). split; auto.
           exists (k + 1)%nat. split; [lia|].
           rewrite ancestor_add, Ek. now rewrite ancestor_succ by lia.
      * simpl length. lia.
      * rewrite E. exists g', (cell_of w cur :: p).
        repeat split; try discriminate.
        -- simpl length. now rewrite ancestor_succ by lia.
        -- destruct p as [|c p]; [congruence|].
           simpl length in *.
           replace (S (S (length p)) - 1)%nat with (S (length p)) by lia.
           replace (S (length p) - 1)%nat with (length p) in Hs by lia.
           now rewrite ancestor_succ by lia.
Qed.
End Tree.

Lemma last_map_seq {A} (f : nat -> A) n d : last (map f (seq 0 (S n))) d = f n.
Proof. rewrite seq_S, map_app; simpl. apply last_last. Qed.

Lemma last_default_irrelevant {A} (l : list A) d d' :
  l <> [] -> last l d = last l d'.
Proof.
  induction l as [|a [|b l] IH]; intros H; try congruence; auto.
  change (last (b :: l) d = last (b :: l) d'). apply IH; discriminate.
Qed.

Lemma not_minus_one_eqb x : x <> -1 -> (x =? -1) = false.
Proof. intros; now apply Z.eqb_neq. Qed.

(** * Levels give a tree *)

Section TreeInv.
Variables (g : Grid) (s : CellRC) (parent : list Z) (d : Z -> nat).
Hypothesis TI : tree_inv g s parent d.

Local Abbreviation N := (rows g * cols g).
Local Abbreviation W := (cols g).

Lemma tree_ancestor_level :
  forall k i, 0 <= i < N ->
    let a := ancestor parent k i in
    a = -1 \/ a = -2 \/ (0 <= a < N /\ (d a + k = d i)%nat).
Proof.
  induction k as [|k IH]; intros i Hi; simpl.
  - right; right; split; auto.
  - destruct (ti_node _ _ _ _ TI i Hi) as [E | [[E _] | (Hp & _ & Hd & _)]].
    + destruct ((i =? -2) || (i =? -1)) eqn:Es; [lia|].
      rewrite E. left. now apply ancestor_sentinel; right.
    + destruct ((i =? -2) || (i =? -1)) eqn:Es; [lia|].
      rewrite E. right; left. now apply ancestor_sentinel; left.
    + destruct ((i =? -2) || (i =? -1)) eqn:Es; [lia|].
      destruct (IH _ Hp) as [E | [E | [Ha Hl]]]; auto.
      right; right. split; auto. lia.
Qed.

Lemma tree_inv_parent_tree : parent_tree N (cidx W s) parent.
Proof.
  constructor.
  - apply (ti_len _ _ _ _ TI).
  - apply cidx_range, (ti_start _ _ _ _ TI).
  - apply (ti_root _ _ _ _ TI).
  - intros i Hi E.
    destruct (ti_node _ _ _ _ TI i Hi) as [E' | [[_ E'] | (Hp & _)]]; auto; lia.
  - intros i Hi E1 E2.
    destruct (ti_node _ _ _ _ TI i Hi) as [E' | [[E' _] | (Hp & Hs & _)]]; auto; lia.
  - intros i k Hi Hk E.
    pose proof (tree_ancestor_level k i Hi) as H. simpl in H. rewrite E in H.
    lia.
Qed.

(** The walk from a discovered cell [i]: [d i + 1] cells, starting at [i]
    and ending at [s], each adjacent to the next, open except possibly
    [s], pairwise distinct; and a walk of the maze graph of [d i] steps. *)
Lemma tree_path :
  forall (n : nat) (i : Z) (g0 : Grid) (fuel : nat),
    0 <= i < N -> aget 0 parent i <> -1 -> d i = n -> (n < fuel)%nat ->
    exists g' p,
      recon_loop fuel parent W g0 i = Some (g', p) /\
      length p = S n /\
      hd s p = cell_of W i /\
      last p (cell_of W i) = s /\
      steps_adjacent p /\
      (forall c, In c p -> c = s \/ cell_open g c) /\
      (forall c, In c p -> exists j, c = cell_of W j /\ 0 <= j < N /\ (d j <= n)%nat) /\
      NoDup p /\
      walk g s n (cell_of W i).
Proof.
  induction n as [|n IH]; intros i g0 fuel Hi Hset Hd Hf;
    (destruct fuel as [|fuel]; [lia|]); rewrite recon_loop_step by lia;
    destruct (ti_node _ _ _ _ TI i Hi) as [E | [[E Es] | (Hp & Hps & Hdp & Hadj & Hop)]];
    try lia.
  - rewrite E, recon_loop_sentinel by auto.
    assert (Hc : cell_of W i = s).
    { subst i. apply cell_of_inside, (ti_start _ _ _ _ TI). }
    eexists; eexists; split; [reflexivity|].
    rewrite Hc. simpl. repeat split; auto.
    + intros c [<-|[]]; auto.
    + intros c [<-|[]]. exists i. rewrite Hc. repeat split; auto; lia.
    + repeat constructor; auto.
    + constructor.
  - rewrite E, recon_loop_sentinel by auto.
    assert (Hc : cell_of W i = s).
    { subst i. apply cell_of_inside, (ti_start _ _ _ _ TI). }
    subst i. rewrite (ti_root_d _ _ _ _ TI) in Hd. discriminate.
  - set (g1 := mark_or g0 _ _ _).
    destruct (IH (aget 0 parent i) g1 fuel) as
        (g' & p & E & Hlen & Hhd & Hlast & Hst & Hopen & Hlev & Hnd & Hwalk);
      auto; try lia.
    rewrite E. exists g', (cell_of W i :: p).
    destruct p as [|q p]; [discriminate|]. simpl in Hhd. subst q.
    split; [reflexivity|]. repeat split.
    + simpl in Hlen |- *; lia.
    + change (last (cell_of W (aget 0 parent i) :: p) (cell_of W i) = s).
      rewrite <- Hlast. apply last_default_irrelevant; discriminate.
    + now apply adjacent_sym.
    + exact Hst.
    + intros c [<-|Hc]; auto.
    + intros c [<-|Hc].
      * exists i; repeat split; auto; lia.
      * destruct (Hlev c Hc) as (j & -> & Hj & Hdj). exists j; repeat split; auto; lia.
    + constructor; auto.
      intros Hin. destruct (Hlev _ Hin) as (j & Ej & Hj & Hdj).
      assert (i = j).
      { rewrite <- (cidx_cell_of W i), <- (cidx_cell_of W j). now rewrite Ej. }
      subst j. lia.
    + econstructor; eauto.
Qed.

(** The same walk, run with the fuel the solvers give it. *)
Lemma tree_recon :
  forall (i : Z) (g0 : Grid) (fuel : nat),
    0 <= i < N -> aget 0 parent i <> -1 -> (Z.to_nat N <= fuel)%nat ->
    exists g' p,
      recon_loop fuel parent W g0 i = Some (g', p) /\
      length p = S (d i) /\
      hd s p = cell_of W i /\
      last p (cell_of W i) = s /\
      steps_adjacent p /\
      (forall c, In c p -> c = s \/ cell_open g c) /\
      NoDup p /\
      walk g s (d i) (cell_of W i).
Proof.
  intros i g0 fuel Hi Hset Hf.
  destruct (recon_terminates N (cidx W s) parent W tree_inv_parent_tree
                             (Z.to_nat N) [] i g0 (NoDup_nil _)
                             ltac:(intros x []) Hi Hset ltac:(simpl; lia))
    as (g1 & p1 & E1 & _).
  destruct (tree_path (d i) i g0 (S (d i)) Hi Hset eq_refl) as
      (g' & p & E & Hlen & Hhd & Hlast & Hst & Hopen & _ & Hnd & Hwalk); [lia|].
  assert (Some (g1, p1) = Some (g', p)).
  { rewrite <- (recon_fuel_mono _ _ _ (Nat.max (Z.to_nat N) (S (d i))) _ _ _ E1) by lia.
    now rewrite <- (recon_fuel_mono _ _ _ (Nat.max (Z.to_nat N) (S (d i))) _ _ _ E) by lia. }
  exists g', p. split; [|repeat split; auto].
  rewrite <- H. apply (recon_fuel_mono _ _ _ fuel _ _ _ E1). lia.
Qed.
End TreeInv.

(** * Claims on [reconstruct_and_mark] alone *)

(** C5: when [parent[end]] is the unset sentinel, [reconstruct_and_mark]
    returns at once: no frame is drawn and the grid, its marks included, is
    the one it was given. *)
Theorem reconstruct_unset_no_marks (fuel : nat) (g : Grid) (parent : list Z)
        (cols er ec : Z) :
  aget 0 parent (er * cols + ec) = -1 ->
  reconstruct_and_mark fuel g parent cols er ec = Some (g, []).
Proof.
  intros H; unfold reconstruct_and_mark. now rewrite H.
Qed.

(** C6: on a parent array that is a tree rooted at [start], the backward
    walk from any [end] whose entry is set stops at the root sentinel -2
    after at most [rows*cols] steps, and the last cell it marks is
    [start]. *)
Theorem reconstruct_reaches_root (g : Grid) (parent : list Z) (sr sc er ec : Z) :
  wf_grid g ->
  parent_tree (rows g * cols g) (sr * cols g + sc) parent ->
  inside g (RC sr sc) -> inside g (RC er ec) ->
  aget 0 parent (er * cols g + ec) <> -1 ->
  exists g' path,
    reconstruct_and_mark (Z.to_nat (rows g * cols g)) g parent (cols g) er ec
    = Some (g', path) /\
    (0 < length path)%nat /\
    Z.of_nat (length path) <= rows g * cols g /\
    ancestor parent (length path) (er * cols g + ec) = -2 /\
    last path (RC er ec) = RC sr sc /\
    has_path (mark_get g' sr sc) = true.
Proof.
  intros WF T Hs He Hset.
  pose proof (cidx_range g _ He) as Hei. unfold cidx in Hei; simpl in Hei.
  unfold reconstruct_and_mark. rewrite not_minus_one_eqb by auto.
  destruct (recon_terminates _ _ parent (cols g) T (Z.to_nat (rows g * cols g)) []
                             (er * cols g + ec) g (NoDup_nil _)
                             ltac:(intros x []) Hei Hset ltac:(simpl; lia))
    as (g' & p & E & Hne & H2 & Hst).
  exists g', p. split; auto.
  destruct (recon_loop_spec _ _ _ _ _ _ E) as (Hr & Hc & Hce & Hl & Hlen & Hp & _ & Hm).
  assert (Hlast : last p (RC er ec) = RC sr sc).
  { rewrite Hp. destruct p as [|c p]; [congruence|].
    simpl length. rewrite last_map_seq.
    simpl length in Hst. replace (S (length p) - 1)%nat with (length p) in Hst by lia.
    rewrite Hst. apply (cell_of_cidx (cols g) (RC sr sc)); apply inside_iff in Hs; simpl in *; lia. }
  repeat split; auto.
  - destruct p; [congruence|simpl; lia].
  - lia.
  - unfold mark_get. rewrite Hc.
    pose proof (cidx_range g _ Hs) as Hsi. unfold cidx in Hsi; simpl in Hsi.
    destruct WF as (_ & _ & _ & _ & Hml).
    rewrite Hm by lia.
    apply orb_true_iff; right. apply existsb_exists.
    exists (RC sr sc). split.
    + rewrite <- Hlast. destruct p; [congruence|]. apply exists_last in Hne as (l' & a & ->).
      rewrite last_last. apply in_or_app; right; now left.
    + apply Z.eqb_eq. reflexivity.
Qed.

(** * The queue as a list *)

Section QueueLemmas.
Variable q : Queue.
Hypothesis Hlen : Z.of_nat (length (q_data q)) = q_cap q.

Lemma queue_push_spec v :
  0 <= q_head q <= q_tail q -> q_tail q + 1 < q_cap q ->
  let q' := queue_push q v in
  Z.of_nat (length (q_data q')) = q_cap q' /\
  q_cap q' = q_cap q /\ q_head q' = q_head q /\ q_tail q' = q_tail q + 1 /\
  q_pushed q' = q_pushed q ++ [v] /\
  q_pending q' = q_pending q ++ [v].
Proof.
  intros Hh Ht; unfold queue_push; simpl.
  destruct (Z.geb_spec (q_tail q + 1) (q_cap q)); try lia.
  assert (Hp : q_pushed
                 (mkQueue (aset (q_data q) (q_tail q) v) (q_head q) (q_tail q + 1) (q_cap q))
               = q_pushed q ++ [v]).
  { unfold q_pushed, aset; simpl.
    destruct (Z.ltb_spec (q_tail q) 0); try lia.
    replace (Z.to_nat (q_tail q + 1)) with (S (Z.to_nat (q_tail q))) by lia.
    apply firstn_upd_snoc. lia. }
  rewrite length_aset. repeat split; auto.
  unfold q_pending. rewrite Hp. simpl.
  rewrite skipn_app.
  replace (Z.to_nat (q_head q) - length (q_pushed q))%nat with O
    by (unfold q_pushed; rewrite length_firstn; lia).
  reflexivity.
Qed.

Lemma queue_pop_spec :
  0 <= q_head q < q_tail q -> q_tail q < q_cap q ->
  let '(c, q') := queue_pop q in
  q_data q' = q_data q /\ q_cap q' = q_cap q /\
  q_head q' = q_head q + 1 /\ q_tail q' = q_tail q /\
  q_pushed q' = q_pushed q /\
  q_pending q = c :: q_pending q'.
Proof.
  intros Hh Ht; unfold queue_pop; simpl.
  destruct (Z.geb_spec (q_head q + 1) (q_cap q)); try lia.
  repeat split; auto.
  unfold q_pending, q_pushed; simpl.
  replace (Z.to_nat (q_head q + 1)) with (S (Z.to_nat (q_head q))) by lia.
  rewrite (skipn_nth_cons _ (Z.to_nat (q_head q)) (RC 0 0))
    by (rewrite length_firstn; lia).
  f_equal. unfold aget. destruct (Z.ltb_spec (q_head q) 0); try lia.
  rewrite nth_firstn.
  destruct (Nat.ltb_spec (Z.to_nat (q_head q)) (Z.to_nat (q_tail q))); auto; lia.
Qed.

Lemma queue_empty_spec :
  0 <= q_head q <= q_tail q -> q_tail q <= q_cap q ->
  queue_empty q = true <-> q_pending q = [].
Proof.
  intros Hh Ht; unfold queue_empty, q_pending, q_pushed.
  rewrite Z.eqb_eq. split; intros H.
  - rewrite H. apply skipn_all2. rewrite length_firstn; lia.
  - apply (f_equal (@length _)) in H.
    rewrite length_skipn, length_firstn in H. simpl in H. lia.
Qed.

Lemma q_pending_incl c :
  In c (q_pending q) -> In c (q_pushed q).
Proof.
  unfold q_pending; intros H.
  rewrite <- (firstn_skipn (Z.to_nat (q_head q)) (q_pushed q)).
  apply in_or_app; now right.
Qed.

Lemma q_pushed_length :
  0 <= q_tail q <= q_cap q -> Z.of_nat (length (q_pushed q)) = q_tail q.
Proof. intros H; unfold q_pushed; rewrite length_firstn; lia. Qed.
End QueueLemmas.

(** * The stack as a list *)

Section StackLemmas.
Variable s : Stack.
Hypothesis Hlen : Z.of_nat (length (s_data s)) = s_cap s.

Lemma stack_push_spec v :
  0 <= s_top s < s_cap s ->
  let s' := stack_push s v in
  Z.of_nat (length (s_data s')) = s_cap s' /\
  s_cap s' = s_cap s /\ s_top s' = s_top s + 1 /\
  s_live s' = s_live s ++ [v].
Proof.
  intros Ht; unfold stack_push.
  destruct (Z.ltb_spec (s_top s) (s_cap s)); try lia. simpl.
  rewrite length_aset. repeat split; auto.
  unfold s_live, aset; simpl.
  destruct (Z.ltb_spec (s_top s) 0); try lia.
  replace (Z.to_nat (s_top s + 1)) with (S (Z.to_nat (s_top s))) by lia.
  apply firstn_upd_snoc. lia.
Qed.

Lemma stack_pop_spec :
  0 < s_top s <= s_cap s ->
  let '(c, s') := stack_pop s in
  s_data s' = s_data s /\ s_cap s' = s_cap s /\ s_top s' = s_top s - 1 /\
  s_live s = s_live s' ++ [c].
Proof.
  intros Ht; unfold stack_pop; simpl. repeat split; auto.
  unfold s_live, aget; simpl.
  destruct (Z.ltb_spec (s_top s - 1) 0); try lia.
  replace (Z.to_nat (s_top s)) with (S (Z.to_nat (s_top s - 1))) by lia.
  apply firstn_succ_nth. lia.
Qed.

Lemma stack_empty_spec :
  0 <= s_top s <= s_cap s -> stack_empty s = true <-> s_live s = [].
Proof.
  intros Ht; unfold stack_empty, s_live. rewrite Z.eqb_eq. split; intros H.
  - now rewrite H.
  - apply (f_equal (@length _)) in H. rewrite length_firstn in H. simpl in H. lia.
Qed.

Lemma s_live_length :
  0 <= s_top s <= s_cap s -> Z.of_nat (length (s_live s)) = s_top s.
Proof. intros H; unfold s_live; rewrite length_firstn; lia. Qed.
End StackLemmas.

(** * Counting *)

Lemma filter_length_le {A} (f h : A -> bool) (l : list A) :
  (forall x, In x l -> f x = true -> h x = true) ->
  (length (filter f l) <= length (filter h l))%nat.
Proof.
  induction l as [|a l IH]; simpl; intros H; auto.
  assert (IH' := IH (fun x Hx => H x (or_intror Hx))).
  destruct (f a) eqn:Ef.
  - rewrite (H a (or_introl eq_refl) Ef). simpl; lia.
  - destruct (h a); simpl; lia.
Qed.

Lemma filter_length_lt {A} (f h : A -> bool) (l : list A) (x : A) :
  In x l -> f x = false -> h x = true ->
  (forall y, In y l -> f y = true -> h y = true) ->
  (length (filter f l) < length (filter h l))%nat.
Proof.
  induction l as [|a l IH]; simpl; intros Hin Hf Hh H; [tauto|].
  destruct Hin as [->|Hin].
  - rewrite Hf, Hh. simpl.
    pose proof (filter_length_le f h l (fun y Hy => H y (or_intror Hy))). lia.
  - assert (IH' := IH Hin Hf Hh (fun y Hy => H y (or_intror Hy))).
    destruct (f a) eqn:Ef.
    + rewrite (H a (or_introl eq_refl) Ef). simpl; lia.
    + destruct (h a); simpl; lia.
Qed.

Lemma filter_length_flip {A} (f h : A -> bool) (l : list A) (x : A) :
  NoDup l -> In x l -> f x = false -> h x = true ->
  (forall y, In y l -> y <> x -> h y = f y) ->
  length (filter h l) = S (length (filter f l)).
Proof.
  induction l as [|a l IH]; simpl; intros Hnd Hin Hf Hh H; [tauto|].
  inversion Hnd as [|? ? Hna Hnd']; subst.
  destruct Hin as [->|Hin].
  - rewrite Hf, Hh. simpl. f_equal.
    f_equal. apply filter_ext_in. intros y Hy. apply H; auto.
    intros ->; contradiction.
  - rewrite (H a) by (auto; intros ->; contradiction).
    specialize (IH Hnd' Hin Hf Hh (fun y Hy => H y (or_intror Hy))).
    destruct (f a); simpl; lia.
Qed.

Lemma in_idxs n i : In i (idxs n) <-> 0 <= i < n.
Proof.
  unfold idxs; rewrite in_map_iff; split.
  - intros (k & <- & Hk). apply in_seq in Hk. lia.
  - intros H. exists (Z.to_nat i). split; [lia|]. apply in_seq. lia.
Qed.

Lemma NoDup_idxs n : NoDup (idxs n).
Proof.
  unfold idxs. apply NoDup_map_inj; [|apply seq_NoDup].
  intros; lia.
Qed.

Lemma length_idxs n : length (idxs n) = Z.to_nat n.
Proof. unfold idxs; now rewrite length_map, length_seq. Qed.

Lemma count_if_le f n : (count_if f n <= Z.to_nat n)%nat.
Proof.
  unfold count_if. rewrite <- length_idxs.
  pose proof (filter_length f (idxs n)). lia.
Qed.

Lemma count_set_aset parent n i v :
  Z.of_nat (length parent) = n -> 0 <= i < n ->
  aget 0 parent i = -1 -> v <> -1 ->
  count_set (aset parent i v) n = S (count_set parent n).
Proof.
  intros Hl Hi Hu Hv. unfold count_set, count_if.
  apply (filter_length_flip _ _ _ i).
  - apply NoDup_idxs.
  - now apply in_idxs.
  - now rewrite Hu.
  - rewrite aget_aset_same by lia. now rewrite not_minus_one_eqb.
  - intros y _ Hy. now rewrite aget_aset_other by auto.
Qed.

Lemma count_set_unset n : count_set (repeat (-1) (Z.to_nat n)) n = O.
Proof.
  unfold count_set, count_if.
  rewrite (filter_ext_in _ (fun _ => false)); [now rewrite filter_false|].
  intros i Hi. apply in_idxs in Hi. rewrite aget_repeat by lia. reflexivity.
Qed.

(** * Walks of the maze graph *)

Lemma walk_inside g s k v : inside g s -> walk g s k v -> inside g v.
Proof. intros Hs H; destruct H; auto. now destruct H1. Qed.

Lemma discovered_dec parent i : {discovered parent i} + {~ discovered parent i}.
Proof.
  unfold discovered. destruct (Z.eq_dec (aget 0 parent i) (-1)); [right|left]; lia.
Qed.

Lemma two_levels_min d w m c l :
  two_levels d w m (c :: l) ->
  two_levels d w (level d w c) l /\
  forall u, In u (c :: l) -> (level d w c <= level d w u)%nat.
Proof.
  intros (A & B & E & HA & HB).
  destruct A as [|a A]; simpl in E.
  - subst B. pose proof (Forall_inv HB) as Hc. pose proof (Forall_inv_tail HB) as HB'.
    simpl in Hc. split.
    + exists l, []. rewrite app_nil_r. repeat split; auto.
      rewrite Hc. exact HB'.
    + intros u Hu. rewrite Forall_forall in HB.
      rewrite Hc, (HB u Hu). lia.
  - inversion E; subst a l.
    pose proof (Forall_inv HA) as Hc. pose proof (Forall_inv_tail HA) as HA'.
    simpl in Hc. split.
    + exists A, B. rewrite Hc. auto.
    + intros u [<-|Hu]; [lia|]. rewrite Hc.
      apply in_app_or in Hu as [Hu|Hu].
      * rewrite Forall_forall in HA'. rewrite (HA' u Hu). lia.
      * rewrite Forall_forall in HB. rewrite (HB u Hu). lia.
Qed.

Lemma two_levels_snoc d w m l v :
  two_levels d w m l -> level d w v = S m -> two_levels d w m (l ++ [v]).
Proof.
  intros (A & B & -> & HA & HB) Hv.
  exists A, (B ++ [v]). rewrite app_assoc. repeat split; auto.
  apply Forall_app; split; auto.
Qed.

Lemma two_levels_ext d d' w m l :
  (forall c, In c l -> level d' w c = level d w c) ->
  two_levels d w m l -> two_levels d' w m l.
Proof.
  intros H (A & B & -> & HA & HB).
  exists A, B. repeat split; auto.
  - rewrite Forall_forall in *. intros c Hc. rewrite H; auto.
    apply in_or_app; auto.
  - rewrite Forall_forall in *. intros c Hc. rewrite H; auto.
    apply in_or_app; auto.
Qed.

(** * Facts shared by the two searches *)

Lemma same_maze_refl g : same_maze g g.
Proof. repeat split. Qed.

Lemma same_maze_mark_or g g' r c v : same_maze g g' -> same_maze g (mark_or g' r c v).
Proof.
  intros (Hr & Hc & Hce & Hl). repeat split; auto.
  now rewrite mark_or_length.
Qed.

Lemma same_maze_mark_andnot g g' r c v :
  same_maze g g' -> same_maze g (mark_andnot g' r c v).
Proof.
  intros (Hr & Hc & Hce & Hl). repeat split; auto.
  now rewrite mark_andnot_length.
Qed.

Lemma same_maze_is_inside g g' r c :
  same_maze g g' -> is_inside g' r c = is_inside g r c.
Proof. intros (Hr & Hc & _); unfold is_inside; now rewrite Hr, Hc. Qed.

Lemma same_maze_grid_get g g' r c :
  same_maze g g' -> grid_get g' r c = grid_get g r c.
Proof. intros (_ & Hc & Hce & _); unfold grid_get; now rewrite Hc, Hce. Qed.

Lemma nbr_adjacent cur k : 0 <= k < 4 -> adjacent cur (nbr cur k).
Proof. destruct cur as [r c]; intros; now apply nbrs4_adjacent. Qed.

Lemma adjacent_nbr p q :
  adjacent p q -> exists k, 0 <= k < 4 /\ q = nbr p k.
Proof.
  intros H. destruct (adjacent_nbrs4 p q H) as (k & Hk & ->).
  exists k; split; auto. simpl in Hk; lia.
Qed.

Lemma adjacent_neq p q : adjacent p q -> p <> q.
Proof. unfold adjacent; intros H ->. lia. Qed.

Section Discover.
Variables (g : Grid) (s : CellRC).
Hypothesis WF : wf_grid g.

Local Abbreviation N := (rows g * cols g).
Local Abbreviation W := (cols g).

(** Recording [cur] as the parent of the undiscovered open neighbour [v]
    keeps the links a tree, with [v] one level below [cur]. *)
Lemma tree_inv_discover parent d cur v :
  tree_inv g s parent d ->
  inside g cur -> discovered parent (cidx W cur) ->
  cell_open g v -> adjacent cur v ->
  aget 0 parent (cidx W v) = -1 ->
  tree_inv g s (aset parent (cidx W v) (cidx W cur))
           (fun j => if j =? cidx W v then S (d (cidx W cur)) else d j).
Proof.
  intros TI Hcin Hcd Hvo Hadj Hvu.
  pose proof (cidx_range g _ Hcin) as Hci.
  pose proof (cidx_range g _ (proj1 Hvo)) as Hvi.
  pose proof (ti_len _ _ _ _ TI) as Hlen.
  assert (Hne : cidx W cur <> cidx W v) by (intros E; apply Hcd; now rewrite E).
  assert (Hsv : cidx W s <> cidx W v).
  { intros E. pose proof (ti_root _ _ _ _ TI) as Hr. rewrite E in Hr. lia. }
  constructor.
  - now rewrite length_aset.
  - apply (ti_start _ _ _ _ TI).
  - rewrite aget_aset_other by auto. apply (ti_root _ _ _ _ TI).
  - destruct (Z.eqb_spec (cidx W s) (cidx W v)); try contradiction.
    apply (ti_root_d _ _ _ _ TI).
  - intros i Hi.
    destruct (Z.eq_dec i (cidx W v)) as [->|Hiv].
    + right; right. rewrite aget_aset_same by lia.
      rewrite aget_aset_other by auto.
      rewrite Z.eqb_refl.
      destruct (Z.eqb_spec (cidx W cur) (cidx W v)); try contradiction.
      rewrite !cell_of_inside by (auto; apply Hvo).
      repeat split; auto; try lia; apply Hvo.
    + rewrite aget_aset_other by auto.
      destruct (ti_node _ _ _ _ TI i Hi) as [E | [E | (Hp & Hps & Hd & Ha & Ho)]]; auto.
      right; right.
      assert (aget 0 parent i <> cidx W v) by (intros E; apply Hps; now rewrite E).
      rewrite aget_aset_other by auto.
      destruct (Z.eqb_spec i (cidx W v)); try contradiction.
      destruct (Z.eqb_spec (aget 0 parent i) (cidx W v)); try contradiction.
      repeat split; auto; try lia; apply Ho.
Qed.

Lemma discovered_aset parent i j v :
  discovered parent i -> aget 0 parent j = -1 -> discovered (aset parent j v) i.
Proof.
  unfold discovered; intros Hi Hj.
  rewrite aget_aset_other; auto. intros ->; contradiction.
Qed.
End Discover.

Lemma NoDup_snoc {A} (l : list A) (v : A) : NoDup l -> ~ In v l -> NoDup (l ++ [v]).
Proof.
  induction l as [|a l IH]; simpl; intros Hnd Hin.
  - repeat constructor; auto.
  - inversion Hnd; subst. constructor.
    + rewrite in_app_iff; simpl. intuition congruence.
    + apply IH; auto.
Qed.

(** * Breadth-first search: the invariant *)

Section Bfs.
Variables (g : Grid) (s e : CellRC).
Hypothesis WF : wf_grid g.
Hypothesis Hs : inside g s.
Hypothesis He : inside g e.

Local Abbreviation N := (rows g * cols g).
Local Abbreviation W := (cols g).

Lemma bfs_visit_unfold st cur k :
  same_maze g (b_grid st) ->
  bfs_visit (rc_r cur) (rc_c cur) st k =
  let v := nbr cur k in
  if is_inside g (rc_r v) (rc_c v) && (grid_get g (rc_r v) (rc_c v) =? 0)
     && (aget 0 (b_parent st) (cidx W v) =? -1)
  then mkBfs (mark_or (b_grid st) (rc_r v) (rc_c v) M_FRONT)
             (aset (b_parent st) (cidx W v) (cidx W cur))
             (queue_push (b_queue st) v) (b_brk st)
  else st.
Proof.
  intros SM. unfold bfs_visit, nbr, cidx; simpl.
  rewrite (same_maze_is_inside g), (same_maze_grid_get g) by auto.
  destruct SM as (_ & -> & _). reflexivity.
Qed.

Lemma scanned_aset parent p j v :
  scanned g parent p -> aget 0 parent j = -1 -> scanned g (aset parent j v) p.
Proof. intros H Hj q Ha Ho. apply discovered_aset; auto. Qed.

Lemma bfs_visit_mid st d cur m k :
  bfs_mid g s e st d cur m -> 0 <= k < 4 ->
  let st' := bfs_visit (rc_r cur) (rc_c cur) st k in
  exists d',
    bfs_mid g s e st' d' cur m /\
    (cell_open g (nbr cur k) -> discovered (b_parent st') (cidx W (nbr cur k))) /\
    (forall i, discovered (b_parent st) i -> discovered (b_parent st') i) /\
    b_brk st' = b_brk st /\
    q_head (b_queue st') = q_head (b_queue st).
Proof.
  intros M Hk st'. subst st'.
  pose proof M as [C Hcin Hcd Hcl Hlev Hdone Hfront].
  pose proof C as [SM TI Hshort Qlen0 Qcap0 Qhead0 Qtail0 Qnd Qpu Qdi].
  rewrite bfs_visit_unfold by exact SM.
  cbv zeta. remember (nbr cur k) as v eqn:Ev.
  destruct (is_inside g (rc_r v) (rc_c v)) eqn:Ein; simpl;
    [|exists d; split; [exact M|]; split; [|repeat split; auto];
      intros [Hin _]; unfold inside in Hin; congruence].
  destruct (Z.eqb_spec (grid_get g (rc_r v) (rc_c v)) 0) as [Eop|Eop]; simpl;
    [|exists d; split; [exact M|]; split; [|repeat split; auto];
      intros [_ Hop]; congruence].
  destruct (Z.eqb_spec (aget 0 (b_parent st) (cidx W v)) (-1)) as [Eun|Eun]; simpl;
    [|exists d; split; [exact M|]; repeat split; auto].
  assert (Hvo : cell_open g v) by (split; auto).
  pose proof (cidx_range g _ Ein) as Hvi.
  pose proof (cidx_range g _ Hcin) as Hci.
  pose proof (ti_len _ _ _ _ TI) as Hplen.
  assert (Hadj : adjacent cur v) by (subst v; now apply nbr_adjacent).
  assert (Hne : cidx W cur <> cidx W v).
  { intros E. apply Hcd. now rewrite E. }
  assert (Htail : q_tail (b_queue st) + 1 < q_cap (b_queue st)).
  { rewrite Qtail0, Qcap0.
    pose proof (count_if_le (fun i => negb (aget 0 (b_parent st) i =? -1)) N).
    fold (count_set (b_parent st) N) in H. destruct WF as (? & ? & ? & _). nia. }
  destruct (queue_push_spec (b_queue st) Qlen0 v Qhead0 Htail)
    as (Qlen & Qcap & Qhead & Qtail & Qpushed & Qpending).
  set (d' := fun j => if j =? cidx W v then S (d (cidx W cur)) else d j).
  assert (Hd'old : forall c, discovered (b_parent st) (cidx W c) ->
                             level d' W c = level d W c).
  { intros c Hc. unfold level, d'.
    destruct (Z.eqb_spec (cidx W c) (cidx W v)) as [E|E]; auto.
    rewrite E in Hc. contradiction. }
  exists d'. split; [|repeat split; auto].
  - assert (C' : bfs_core g s
                   (mkBfs (mark_or (b_grid st) (rc_r v) (rc_c v) M_FRONT)
                          (aset (b_parent st) (cidx W v) (cidx W cur))
                          (queue_push (b_queue st) v) (b_brk st)) d').
    { constructor; cbn [b_grid b_parent b_queue b_brk].
      - now apply same_maze_mark_or.
      - now apply tree_inv_discover.
      - intros k0 v' Hw Hd.
        destruct (Z.eq_dec (cidx W v') (cidx W v)) as [E|E].
        + unfold level, d'. rewrite E, Z.eqb_refl.
          assert ((m < k0)%nat).
          { apply (Hfront k0 v' Hw). unfold discovered. rewrite E. lia. }
          unfold level in Hcl. lia.
        + unfold discovered in Hd. rewrite aget_aset_other in Hd by auto.
          rewrite Hd'old by auto. now apply Hshort.
      - exact Qlen.
      - now rewrite Qcap.
      - rewrite Qhead, Qtail. lia.
      - rewrite Qtail, count_set_aset by (auto; lia). lia.
      - rewrite Qpushed. apply NoDup_snoc; auto.
        intros Hin. apply Qpu in Hin as [_ Hin]. contradiction.
      - rewrite Qpushed. intros c Hc. apply in_app_or in Hc as [Hc|[<-|[]]].
        + apply Qpu in Hc as [Hc1 Hc2]. split; auto.
          now apply discovered_aset.
        + split; auto. unfold discovered. rewrite aget_aset_same by lia. lia.
      - rewrite Qpushed. intros i Hi Hd. apply in_or_app.
        destruct (Z.eq_dec i (cidx W v)) as [->|E].
        + right. left. symmetry. now apply cell_of_inside.
        + left. apply Qdi; auto.
          unfold discovered in *. now rewrite aget_aset_other in Hd by auto. }
    constructor; auto; cbn [b_grid b_parent b_queue b_brk].
    + now apply discovered_aset.
    + now rewrite Hd'old.
    + rewrite Qpending. apply two_levels_snoc.
      * apply (two_levels_ext d); auto.
        intros c Hc. apply Hd'old. apply Qpu. now apply q_pending_incl.
      * unfold level, d'. rewrite Z.eqb_refl. unfold level in Hcl. lia.
    + rewrite Qpending. intros i Hi Hd Hic.
      destruct (Z.eq_dec i (cidx W v)) as [->|E].
      * left. apply in_or_app. right. left. symmetry. now apply cell_of_inside.
      * unfold discovered in Hd. rewrite aget_aset_other in Hd by auto.
        destruct (Hdone i Hi Hd Hic) as [Hp|[Hsc Hie]].
        -- left. apply in_or_app. now left.
        -- right. split; auto. now apply scanned_aset.
    + intros k0 v' Hw Hnd. apply (Hfront k0 v' Hw).
      intros Hd. apply Hnd. now apply discovered_aset.
  - intros _. unfold discovered. rewrite aget_aset_same by lia. lia.
  - intros i Hi. now apply discovered_aset.
Qed.

Lemma bfs_scan_mid cur m :
  forall ks st d,
    Forall (fun k => 0 <= k < 4) ks ->
    bfs_mid g s e st d cur m ->
    let st' := fold_left (bfs_visit (rc_r cur) (rc_c cur)) ks st in
    exists d',
      bfs_mid g s e st' d' cur m /\
      (forall k, In k ks -> cell_open g (nbr cur k) ->
                 discovered (b_parent st') (cidx W (nbr cur k))) /\
      (forall i, discovered (b_parent st) i -> discovered (b_parent st') i) /\
      b_brk st' = b_brk st /\
      q_head (b_queue st') = q_head (b_queue st).
Proof.
  induction ks as [|k ks IH]; intros st d Hks M; simpl.
  - exists d. split; [exact M|]. split; [intros k []|]. repeat split; auto.
  - inversion Hks as [|? ? Hk Hks']; subst.
    destruct (bfs_visit_mid st d cur m k M Hk) as (d1 & M1 & Hv1 & Hmono1 & Hb1 & Hh1).
    destruct (IH _ d1 Hks' M1) as (d2 & M2 & Hv2 & Hmono2 & Hb2 & Hh2).
    exists d2. split; [exact M2|]. repeat split.
    + intros k' [<-|Hk'] Ho; auto.
    + auto.
    + congruence.
    + congruence.
Qed.

Lemma bfs_mid_to_head st d cur m :
  bfs_mid g s e st d cur m ->
  cidx W cur <> cidx W e -> scanned g (b_parent st) cur ->
  bfs_head g s e st d.
Proof.
  intros [C Hcin Hcd Hcl Hlev Hdone Hfront] Hce Hsc.
  constructor; auto.
  - now exists m.
  - intros i Hi Hd. destruct (Z.eq_dec i (cidx W cur)) as [->|E]; auto.
    right. rewrite cell_of_inside by auto. auto.
Qed.

(** An undiscovered cell that can be reached lies beyond a cell that is
    still waiting in the queue. *)
Lemma frontier_witness st d :
  bfs_head g s e st d ->
  forall k v, walk g s k v -> ~ discovered (b_parent st) (cidx W v) ->
              exists u, In u (q_pending (b_queue st)) /\ (level d W u < k)%nat.
Proof.
  intros [C Hlev Hdone] k v Hw. induction Hw as [|k p q Hw IH Hadj Hop]; intros Hnd.
  - exfalso. apply Hnd. unfold discovered.
    rewrite (ti_root _ _ _ _ (bc_tree _ _ _ _ C)). lia.
  - destruct (discovered_dec (b_parent st) (cidx W p)) as [Hp|Hp].
    + pose proof (walk_inside _ _ _ _ Hs Hw) as Hpin.
      destruct (Hdone _ (cidx_range g _ Hpin) Hp) as [Hin|[Hsc _]].
      * rewrite cell_of_inside in Hin by auto.
        exists p. split; auto.
        pose proof (bc_short _ _ _ _ C k p Hw Hp). lia.
      * rewrite cell_of_inside in Hsc by auto.
        exfalso. apply Hnd. now apply Hsc.
    + destruct (IH Hp) as (u & Hu & Hl). exists u. split; auto.
Qed.

Lemma bfs_pop_mid st d :
  bfs_head g s e st d -> q_head (b_queue st) < q_tail (b_queue st) ->
  let '(cur, st1) := bfs_pop st in
  bfs_mid g s e st1 d cur (level d W cur) /\
  b_parent st1 = b_parent st /\
  q_head (b_queue st1) = q_head (b_queue st) + 1 /\
  b_brk st1 = b_brk st /\
  In cur (q_pending (b_queue st)).
Proof.
  intros H Hne. pose proof H as [C Hlev Hdone].
  pose proof C as [SM TI Hshort Qlen0 Qcap0 Qhead0 Qtail0 Qnd Qpu Qdi].
  assert (Htail : q_tail (b_queue st) < q_cap (b_queue st)).
  { rewrite Qtail0, Qcap0.
    pose proof (count_if_le (fun i => negb (aget 0 (b_parent st) i =? -1)) N).
    fold (count_set (b_parent st) N) in H0. destruct WF as (? & ? & ? & _). nia. }
  unfold bfs_pop.
  pose proof (queue_pop_spec (b_queue st) Qlen0 (conj (proj1 Qhead0) Hne) Htail) as Hpop.
  destruct (queue_pop (b_queue st)) as [cur q].
  destruct Hpop as (Qdata & Qcap & Qhead & Qtail & Qpushed & Qpending).
  set (g1 := mark_andnot (b_grid st) (rc_r cur) (rc_c cur) M_FRONT).
  set (g2 := if Z.land (aget 0 (marks g1) (rc_r cur * cols g1 + rc_c cur)) M_VISIT =? 0
             then mark_or g1 (rc_r cur) (rc_c cur) M_VISIT else g1).
  assert (SM2 : same_maze g g2).
  { unfold g2. destruct (_ =? 0); [apply same_maze_mark_or|];
      now apply same_maze_mark_andnot. }
  assert (Hin : In cur (q_pending (b_queue st))) by (rewrite Qpending; now left).
  destruct Hlev as (m & Hlev). rewrite Qpending in Hlev.
  apply two_levels_min in Hlev as (Hlev & Hmin).
  destruct (Qpu cur (q_pending_incl _ _ Hin)) as (Hcin & Hcd).
  split; [|repeat split; auto].
  constructor; cbn [b_grid b_parent b_queue b_brk]; auto.
  - constructor; cbn [b_grid b_parent b_queue b_brk]; auto; try congruence; try lia;
      now rewrite Qpushed.
  - intros i Hi Hd Hic. destruct (Hdone i Hi Hd) as [Hp|Hr]; auto.
    rewrite Qpending in Hp. destruct Hp as [E|Hp]; auto.
    exfalso. apply Hic. rewrite <- (cidx_cell_of W i). now rewrite <- E.
  - intros k v Hw Hnd.
    destruct (frontier_witness st d H k v Hw Hnd) as (u & Hu & Hl).
    rewrite Qpending in Hu. specialize (Hmin u Hu). lia.
Qed.

Lemma bfs_init_head :
  let st := bfs_init g (rc_r s) (rc_c s) in
  bfs_head g s e st (fun _ => O) /\ b_brk st = false /\ q_head (b_queue st) = 0.
Proof.
  destruct WF as (Hr & Hc & Hmax & Hcl & Hml).
  pose proof (cidx_range g s Hs) as Hsi.
  unfold bfs_init. fold (cidx W s).
  set (parent := aset (repeat (-1) (Z.to_nat N)) (cidx W s) (-2)).
  set (q0 := queue_create (N + 5)).
  assert (Q0len : Z.of_nat (length (q_data q0)) = q_cap q0).
  { unfold q0, queue_create; simpl. rewrite repeat_length. nia. }
  destruct (queue_push_spec q0 Q0len (RC (rc_r s) (rc_c s))) as
      (Qlen & Qcap & Qhead & Qtail & Qpushed & Qpending);
    try (unfold q0, queue_create; simpl; nia).
  replace (RC (rc_r s) (rc_c s)) with s in * by (now destruct s).
  change (q_pushed q0) with (@nil CellRC) in Qpushed.
  change (q_pending q0) with (@nil CellRC) in Qpending.
  change (q_head q0) with 0 in Qhead. change (q_tail q0) with 0 in Qtail.
  change (q_cap q0) with (N + 5) in Qcap.
  simpl app in *.
  assert (Hpl : Z.of_nat (length parent) = N).
  { unfold parent. rewrite length_aset, repeat_length. nia. }
  assert (Hroot : aget 0 parent (cidx W s) = -2).
  { unfold parent. rewrite aget_aset_same; auto. rewrite repeat_length. nia. }
  assert (Hother : forall i, 0 <= i < N -> i <> cidx W s -> aget 0 parent i = -1).
  { intros i Hi Hne. unfold parent. rewrite aget_aset_other by auto.
    apply aget_repeat. lia. }
  assert (Hdisc : forall i, 0 <= i < N -> discovered parent i -> i = cidx W s).
  { intros i Hi Hd. destruct (Z.eq_dec i (cidx W s)); auto.
    exfalso. apply Hd. now apply Hother. }
  cbn [b_brk b_queue]. split; [|split; [reflexivity|exact Qhead]].
  constructor; cbn [b_grid b_parent b_queue b_brk].
  - constructor; cbn [b_grid b_parent b_queue b_brk].
    + apply same_maze_mark_or. repeat split; simpl.
      rewrite memset_all by auto. rewrite repeat_length. lia.
    + constructor; auto.
      intros i Hi. destruct (Z.eq_dec i (cidx W s)) as [->|Hne]; auto.
    + intros; unfold level; lia.
    + exact Qlen.
    + exact Qcap.
    + lia.
    + rewrite Qtail. unfold parent.
      rewrite count_set_aset, count_set_unset; try lia.
      * rewrite repeat_length. nia.
      * apply aget_repeat. lia.
    + rewrite Qpushed. repeat constructor. intros [].
    + rewrite Qpushed. intros c [<-|[]]. split; auto.
      unfold discovered. rewrite Hroot. lia.
    + rewrite Qpushed. intros i Hi Hd. left.
      rewrite (Hdisc i Hi Hd). symmetry. now apply cell_of_inside.
  - exists O, [s], []. rewrite Qpending. repeat split; auto.
  - rewrite Qpending. intros i Hi Hd. left. left.
    rewrite (Hdisc i Hi Hd). symmetry. now apply cell_of_inside.
Qed.
End Bfs.

Lemma cell_eqb_false g (e cur : CellRC) :
  inside g e -> inside g cur ->
  (rc_r cur =? rc_r e) && (rc_c cur =? rc_c e) = false ->
  cidx (cols g) cur <> cidx (cols g) e.
Proof.
  intros He Hc H E. apply (cidx_inj g) in E; auto. subst cur.
  now rewrite !Z.eqb_refl in H.
Qed.

Lemma cell_eqb_true (e cur : CellRC) :
  (rc_r cur =? rc_r e) && (rc_c cur =? rc_c e) = true -> cur = e.
Proof.
  intros H. apply andb_true_iff in H as [Hr Hc].
  apply Z.eqb_eq in Hr, Hc. destruct cur, e; simpl in *; congruence.
Qed.

(** * Breadth-first search: the main loop *)

Section BfsRun.
Variables (g : Grid) (s e : CellRC).
Hypothesis WF : wf_grid g.
Hypothesis Hs : inside g s.
Hypothesis He : inside g e.

Local Abbreviation N := (rows g * cols g).
Local Abbreviation W := (cols g).

Lemma bfs_core_brk st d b :
  bfs_core g s st d ->
  bfs_core g s (mkBfs (b_grid st) (b_parent st) (b_queue st) b) d.
Proof. intros []; constructor; auto. Qed.

Lemma bfs_unfinished st :
  bfs_finished st = false ->
  b_brk st = false /\ q_head (b_queue st) <> q_tail (b_queue st).
Proof.
  unfold bfs_finished, queue_empty. intros H.
  apply orb_false_iff in H as [Hb Hq]. split; auto. now apply Z.eqb_neq.
Qed.

Lemma bfs_body_inv st :
  bfs_inv g s e st -> bfs_finished st = false ->
  let st' := bfs_body (rc_r e) (rc_c e) st in
  bfs_inv g s e st' /\ q_head (b_queue st') = q_head (b_queue st) + 1 /\
  (forall i, discovered (b_parent st) i -> discovered (b_parent st') i).
Proof.
  intros (d & C & H) Hnf.
  apply bfs_unfinished in Hnf as (Hb & Hq). rewrite Hb in H.
  pose proof (bc_head _ _ _ _ C) as Hh.
  unfold bfs_body.
  pose proof (bfs_pop_mid g s e WF Hs st d H ltac:(lia)) as Hpop.
  destruct (bfs_pop st) as [cur st1].
  destruct Hpop as (M & Hpar & Hhead & Hbrk & Hin).
  destruct ((rc_r cur =? rc_r e) && (rc_c cur =? rc_c e)) eqn:Ee.
  - apply cell_eqb_true in Ee. subst cur.
    cbn [b_queue b_parent]. split; [|split; [exact Hhead|now rewrite Hpar]].
    exists d. split.
    + apply bfs_core_brk. exact (bm_core _ _ _ _ _ _ _ M).
    + cbn [b_brk b_parent]. exact (bm_cur_disc _ _ _ _ _ _ _ M).
  - apply (cell_eqb_false g e) in Ee; [|exact He|exact (bm_cur_in _ _ _ _ _ _ _ M)].
    destruct (bfs_scan_mid g s e WF cur (level d W cur) [0; 1; 2; 3] st1 d)
      as (d' & M' & Hv & Hmono & Hb' & Hh'); auto.
    { repeat constructor; lia. }
    split; [|split; [lia|intros i Hi; apply Hmono; now rewrite Hpar]].
    exists d'. split; [exact (bm_core _ _ _ _ _ _ _ M')|].
    rewrite Hb', Hbrk, Hb.
    apply (bfs_mid_to_head g s e _ _ _ _ M'); auto.
    intros q Hadj Hop.
    apply adjacent_nbr in Hadj as (k & Hk & ->).
    apply Hv; auto. simpl. lia.
Qed.

Lemma bfs_run_finished_fix n st :
  bfs_finished st = true -> bfs_run n (rc_r e) (rc_c e) st = st.
Proof. intros H; destruct n; simpl; auto. now rewrite H. Qed.

Lemma bfs_run_inv n :
  forall st, bfs_inv g s e st -> bfs_inv g s e (bfs_run n (rc_r e) (rc_c e) st).
Proof.
  induction n as [|n IH]; intros st H; simpl; auto.
  destruct (bfs_finished st) eqn:Ef; auto.
  apply IH. now apply bfs_body_inv.
Qed.

Lemma bfs_inv_head_bound st :
  bfs_inv g s e st -> 0 <= q_head (b_queue st) <= N.
Proof.
  intros (d & C & _).
  pose proof (bc_head _ _ _ _ C). pose proof (bc_tail _ _ _ _ C) as Ht.
  pose proof (count_if_le (fun i => negb (aget 0 (b_parent st) i =? -1)) N) as Hc.
  fold (count_set (b_parent st) N) in Hc.
  destruct WF as (? & ? & _). nia.
Qed.

(** Each iteration reads one more slot of the queue, and no more than
    [rows*cols] slots are ever written. *)
Lemma bfs_run_finished n :
  forall st, bfs_inv g s e st ->
             N - q_head (b_queue st) < Z.of_nat n ->
             bfs_finished (bfs_run n (rc_r e) (rc_c e) st) = true.
Proof.
  induction n as [|n IH]; intros st H Hn.
  - pose proof (bfs_inv_head_bound st H). lia.
  - simpl. destruct (bfs_finished st) eqn:Ef; auto.
    destruct (bfs_body_inv st H Ef) as (H' & Hh & _).
    apply IH; auto. lia.
Qed.

Lemma bfs_inv_init : bfs_inv g s e (bfs_init g (rc_r s) (rc_c s)).
Proof.
  destruct (bfs_init_head g s e WF Hs) as (H & Hb & _).
  exists (fun _ => O). split; [apply H|]. now rewrite Hb.
Qed.

Lemma bfs_solved_finished :
  bfs_finished (bfs_run (S (Z.to_nat N)) (rc_r e) (rc_c e)
                        (bfs_init g (rc_r s) (rc_c s))) = true.
Proof.
  apply bfs_run_finished; [apply bfs_inv_init|].
  destruct (bfs_init_head g s e WF Hs) as (_ & _ & ->).
  destruct WF as (? & ? & _). nia.
Qed.

(** When the loop is over, every cell the maze graph connects to the
    start is discovered if [e] is. *)
Lemma bfs_finished_reaches st k :
  bfs_inv g s e st -> bfs_finished st = true ->
  walk g s k e -> discovered (b_parent st) (cidx W e).
Proof.
  intros (d & C & H) Hf Hw.
  destruct (b_brk st) eqn:Hb; auto.
  unfold bfs_finished in Hf. rewrite Hb in Hf. simpl in Hf.
  apply queue_empty_spec in Hf.
  - destruct (discovered_dec (b_parent st) (cidx W e)) as [Hd|Hd]; auto.
    destruct (frontier_witness g s e Hs st d H k e Hw Hd) as (u & Hu & _).
    rewrite Hf in Hu. destruct Hu.
  - exact (bc_len _ _ _ _ C).
  - exact (bc_head _ _ _ _ C).
  - pose proof (bc_head _ _ _ _ C). pose proof (bc_tail _ _ _ _ C) as Ht.
    pose proof (count_if_le (fun i => negb (aget 0 (b_parent st) i =? -1)) N) as Hc.
    fold (count_set (b_parent st) N) in Hc.
    rewrite (bc_cap _ _ _ _ C). destruct WF as (? & ? & _). nia.
Qed.

(** When the loop ends on an empty queue, [e] was never discovered. *)
Lemma bfs_exhausted_unset st :
  bfs_inv g s e st -> bfs_finished st = true -> b_brk st = false ->
  aget 0 (b_parent st) (cidx W e) = -1.
Proof.
  intros (d & C & H) Hf Hb. rewrite Hb in H.
  unfold bfs_finished in Hf. rewrite Hb in Hf. simpl in Hf.
  apply queue_empty_spec in Hf.
  - destruct (Z.eq_dec (aget 0 (b_parent st) (cidx W e)) (-1)) as [E|E]; auto.
    destruct (bh_done _ _ _ _ _ H (cidx W e) (cidx_range g e He) E) as [Hin|[_ Hne]].
    + rewrite Hf in Hin. destruct Hin.
    + congruence.
  - exact (bc_len _ _ _ _ C).
  - exact (bc_head _ _ _ _ C).
  - pose proof (bc_head _ _ _ _ C). pose proof (bc_tail _ _ _ _ C) as Ht.
    pose proof (count_if_le (fun i => negb (aget 0 (b_parent st) i =? -1)) N) as Hc.
    fold (count_set (b_parent st) N) in Hc.
    rewrite (bc_cap _ _ _ _ C). destruct WF as (? & ? & _). nia.
Qed.
End BfsRun.

(** C1: when [end] can be reached from [start] over open cells, [solve_bfs]
    returns a path from [end] back to [start] whose number of edges is the
    least number of single steps between adjacent open cells that lead from
    [start] to [end]. *)
Theorem bfs_shortest_path (g : Grid) (sr sc er ec : Z) (k : nat) :
  wf_grid g -> inside g (RC sr sc) -> inside g (RC er ec) ->
  walk g (RC sr sc) k (RC er ec) ->
  exists g' path,
    solve_bfs (S (Z.to_nat (rows g * cols g))) g sr sc er ec = Some (g', path) /\
    hd (RC sr sc) path = RC er ec /\
    last path (RC er ec) = RC sr sc /\
    steps_adjacent path /\
    walk g (RC sr sc) (length path - 1) (RC er ec) /\
    forall k', walk g (RC sr sc) k' (RC er ec) -> (length path - 1 <= k')%nat.
Proof.
  intros WF Hs He Hw.
  set (s := RC sr sc) in *. set (e := RC er ec) in *.
  unfold solve_bfs.
  change sr with (rc_r s); change sc with (rc_c s).
  change er with (rc_r e); change ec with (rc_c e).
  set (st := bfs_run _ _ _ _).
  assert (Hf : bfs_finished st = true) by (apply bfs_solved_finished; auto).
  assert (Hinv : bfs_inv g s e st) by (apply bfs_run_inv, bfs_inv_init; auto).
  rewrite Hf.
  pose proof (bfs_finished_reaches g s e WF Hs st k Hinv Hf Hw) as Hd.
  destruct Hinv as (d & C & _).
  unfold reconstruct_and_mark. fold (cidx (cols g) e).
  rewrite not_minus_one_eqb by exact Hd.
  destruct (tree_recon g s (b_parent st) d (bc_tree _ _ _ _ C) (cidx (cols g) e)
                       (b_grid st) (S (Z.to_nat (rows g * cols g)))
                       (cidx_range g e He) Hd ltac:(lia))
    as (g' & p & E & Hlen & Hhd & Hlast & Hst & _ & _ & Hwalk).
  rewrite cell_of_inside in * by auto.
  exists g', p. rewrite E, Hlen. simpl.
  replace (d (cidx (cols g) e) - 0)%nat with (d (cidx (cols g) e)) by lia.
  repeat split; auto.
  intros k' Hw'. apply (bc_short _ _ _ _ C k' e Hw' Hd).
Qed.

(** * Marks that are not [M_NONE] *)

Lemma to_uchar_lor_nonzero m v n :
  0 <= n < 8 -> Z.testbit v n = true -> to_uchar (Z.lor m v) <> 0.
Proof.
  intros Hn Hv E. apply (f_equal (fun x => Z.testbit x n)) in E.
  rewrite testbit_to_uchar, Z.lor_spec, Hv, orb_true_r, Z.testbit_0_l in E by lia.
  discriminate.
Qed.

(** The marks after the popped cell [(r, c)] had its frontier bit cleared
    and its visited bit set. *)
Lemma pop_marks g r c :
  let g1 := mark_andnot g r c M_FRONT in
  let g2 := if Z.land (aget 0 (marks g1) (r * cols g1 + c)) M_VISIT =? 0
            then mark_or g1 r c M_VISIT else g1 in
  (forall i, i <> r * cols g + c -> aget 0 (marks g2) i = aget 0 (marks g) i) /\
  (0 <= r * cols g + c < Z.of_nat (length (marks g)) ->
   aget 0 (marks g2) (r * cols g + c) <> 0).
Proof.
  intros g1 g2. unfold g2, g1.
  change (cols (mark_andnot g r c M_FRONT)) with (cols g).
  set (ic := r * cols g + c).
  set (m1 := to_uchar (Z.land (aget 0 (marks g) ic) (Z.lnot M_FRONT))).
  assert (Hg1 : marks (mark_andnot g r c M_FRONT) = aset (marks g) ic m1) by reflexivity.
  split.
  - intros i Hi.
    destruct (_ =? 0); unfold mark_or; cbn [marks cols];
      change (cols (mark_andnot g r c M_FRONT)) with (cols g); fold ic;
      rewrite ?Hg1, ?aget_aset_other by auto; reflexivity.
  - intros Hr. rewrite Hg1, aget_aset_same by auto.
    destruct (Z.eqb_spec (Z.land m1 M_VISIT) 0) as [E|E].
    + unfold mark_or; cbn [marks cols].
      change (cols (mark_andnot g r c M_FRONT)) with (cols g); fold ic.
      rewrite Hg1, aget_aset_same by (rewrite length_aset; auto).
      rewrite aget_aset_same by auto.
      apply (to_uchar_lor_nonzero _ _ 0); [lia|reflexivity].
    + rewrite Hg1, aget_aset_same by auto.
      intros E0. apply E. now rewrite E0.
Qed.

Lemma count_none_le m m' n :
  (forall i, 0 <= i < n -> aget 0 m' i = 0 -> aget 0 m i = 0) ->
  (count_none m' n <= count_none m n)%nat.
Proof.
  intros H. unfold count_none, count_if. apply filter_length_le.
  intros i Hi. apply in_idxs in Hi. unfold M_NONE. rewrite !Z.eqb_eq. auto.
Qed.

Lemma count_none_flip m m' n i :
  0 <= i < n -> aget 0 m i = 0 -> aget 0 m' i <> 0 ->
  (forall j, j <> i -> aget 0 m' j = aget 0 m j) ->
  count_none m n = S (count_none m' n).
Proof.
  intros Hi H0 H1 H. unfold count_none, count_if.
  apply (filter_length_flip _ _ _ i).
  - apply NoDup_idxs.
  - now apply in_idxs.
  - now apply Z.eqb_neq.
  - now apply Z.eqb_eq.
  - intros j _ Hj. now rewrite H.
Qed.

(** * shuffle_ints *)

Lemma Forall_upd {A} (P : A -> Prop) (l : list A) n v :
  Forall P l -> P v -> Forall P (upd l n v).
Proof.
  intros Hl Hv. revert n. induction Hl; intros [|n]; simpl; constructor; auto.
Qed.

Lemma Forall_aset {A} (P : A -> Prop) (l : list A) i v :
  Forall P l -> P v -> Forall P (aset l i v).
Proof. intros; unfold aset; destruct (i <? 0); auto using Forall_upd. Qed.

Section Shuffle.
Variable rand : nat -> Z.
Hypothesis rand_nonneg : forall n, 0 <= rand n.

Lemma shuffle_from_Forall (P : Z -> Prop) :
  forall i arr rng,
    (i < length arr)%nat -> Forall P arr ->
    Forall P (fst (shuffle_from rand i arr rng)).
Proof.
  induction i as [|i IH]; intros arr rng Hi HP; simpl; auto.
  assert (Hj : 0 <= Z.rem (rand rng) (Z.of_nat (S i) + 1) < Z.of_nat (S i) + 1)
    by (apply Z.rem_bound_pos; auto; lia).
  rewrite Forall_forall in HP.
  apply IH.
  - rewrite !length_aset. lia.
  - apply Forall_aset; [apply Forall_aset|]; try (apply Forall_forall; exact HP);
      apply HP, aget_in; lia.
Qed.

(** The order in which [solve_dfs] visits the neighbours lists
    directions only. *)
Lemma shuffle_ints_dirs rng :
  Forall (fun k => 0 <= k < 4) (fst (shuffle_ints rand [0; 1; 2; 3] 4 rng)).
Proof.
  unfold shuffle_ints. apply shuffle_from_Forall; simpl; try lia.
  repeat constructor; lia.
Qed.
End Shuffle.

(** * Depth-first search: the invariant *)

Lemma live_bound g (l : list CellRC) :
  wf_grid g -> NoDup l -> (forall c, In c l -> inside g c) ->
  Z.of_nat (length l) <= rows g * cols g.
Proof.
  intros WF Hnd Hin.
  rewrite <- (length_map (cidx (cols g))).
  apply NoDup_range_length.
  - destruct WF as (? & ? & _); nia.
  - apply NoDup_map_inj; auto.
    intros x y Hx Hy. apply cidx_inj; auto.
  - intros i Hi. apply in_map_iff in Hi as (c & <- & Hc).
    apply cidx_range; auto.
Qed.

Section Dfs.
Variables (g : Grid) (s e : CellRC).
Hypothesis WF : wf_grid g.
Hypothesis Hs : inside g s.
Hypothesis He : inside g e.

Local Abbreviation N := (rows g * cols g).
Local Abbreviation W := (cols g).

Lemma dfs_visit_unfold st cur k :
  same_maze g (d_grid st) ->
  dfs_visit (rc_r cur) (rc_c cur) st k =
  let v := nbr cur k in
  if is_inside g (rc_r v) (rc_c v) && (grid_get g (rc_r v) (rc_c v) =? 0)
     && (aget 0 (marks (d_grid st)) (cidx W v) =? M_NONE)
  then mkDfs (mark_or (d_grid st) (rc_r v) (rc_c v) M_FRONT)
             (if aget 0 (d_parent st) (cidx W v) =? -1
              then aset (d_parent st) (cidx W v) (cidx W cur)
              else d_parent st)
             (stack_push (d_stack st) v) (d_rng st) (d_brk st)
  else st.
Proof.
  intros SM. unfold dfs_visit, nbr, cidx; simpl.
  rewrite (same_maze_is_inside g), (same_maze_grid_get g) by auto.
  destruct SM as (_ & -> & _). reflexivity.
Qed.

Lemma dfs_visit_inv st d cur k :
  dfs_core g s st d ->
  inside g cur -> discovered (d_parent st) (cidx W cur) -> 0 <= k < 4 ->
  let st' := dfs_visit (rc_r cur) (rc_c cur) st k in
  exists d',
    dfs_core g s st' d' /\
    (forall i, discovered (d_parent st) i -> discovered (d_parent st') i) /\
    (dfs_pending g e st -> dfs_pending g e st') /\
    d_brk st' = d_brk st /\
    d_rng st' = d_rng st /\
    dfs_measure g st' <= dfs_measure g st.
Proof.
  intros C Hcin Hcd Hk st'. subst st'.
  pose proof C as [SM TI Slen Scap Stop Snd Slive].
  rewrite dfs_visit_unfold by exact SM.
  cbv zeta. remember (nbr cur k) as v eqn:Ev.
  destruct (is_inside g (rc_r v) (rc_c v) && (grid_get g (rc_r v) (rc_c v) =? 0)
            && (aget 0 (marks (d_grid st)) (cidx W v) =? M_NONE)) eqn:Etest;
    [|exists d; split; [exact C|]; repeat split; auto; lia].
  apply andb_true_iff in Etest as (Etest & Enone).
  apply andb_true_iff in Etest as (Ein & Eop).
  apply Z.eqb_eq in Eop, Enone. unfold M_NONE in Enone.
  assert (Hvo : cell_open g v) by (split; auto).
  pose proof (cidx_range g _ Ein) as Hvi.
  pose proof (cidx_range g _ Hcin) as Hci.
  pose proof (ti_len _ _ _ _ TI) as Hplen.
  assert (Hml : Z.of_nat (length (marks (d_grid st))) = N).
  { destruct SM as (_ & _ & _ & ->). apply WF. }
  assert (Hcol : cols (d_grid st) = W) by apply SM.
  assert (Hadj : adjacent cur v) by (subst v; now apply nbr_adjacent).
  assert (Hmarks : marks (mark_or (d_grid st) (rc_r v) (rc_c v) M_FRONT)
                   = aset (marks (d_grid st)) (cidx W v) 2).
  { unfold mark_or; cbn [marks]. rewrite Hcol. fold (cidx W v).
    now rewrite Enone. }
  destruct (stack_push_spec (d_stack st) Slen v) as (Slen' & Scap' & Stop' & Slive');
    [lia|].
  assert (Hnotin : ~ In v (s_live (d_stack st))).
  { intros Hin. apply Slive in Hin as (_ & _ & Hm). unfold M_NONE in Hm. lia. }
  assert (Hnd' : NoDup (s_live (stack_push (d_stack st) v))).
  { rewrite Slive'. now apply NoDup_snoc. }
  assert (Hin' : forall c, In c (s_live (stack_push (d_stack st) v)) -> inside g c).
  { rewrite Slive'. intros c Hc. apply in_app_or in Hc as [Hc|[<-|[]]]; auto.
    now apply Slive. }
  assert (Htop' : 0 <= s_top (stack_push (d_stack st) v) <= N).
  { pose proof (live_bound g _ WF Hnd' Hin') as Hb.
    rewrite s_live_length in Hb by (auto; lia). lia. }
  set (parent' := if aget 0 (d_parent st) (cidx W v) =? -1
                  then aset (d_parent st) (cidx W v) (cidx W cur)
                  else d_parent st).
  assert (Hmono : forall i, discovered (d_parent st) i -> discovered parent' i).
  { intros i Hi. unfold parent'.
    destruct (Z.eqb_spec (aget 0 (d_parent st) (cidx W v)) (-1)); auto.
    now apply discovered_aset. }
  assert (Hvd : discovered parent' (cidx W v)).
  { unfold parent', discovered.
    destruct (Z.eqb_spec (aget 0 (d_parent st) (cidx W v)) (-1)); auto.
    rewrite aget_aset_same by lia. lia. }
  assert (Hold : forall i, i <> cidx W v -> discovered parent' i ->
                           discovered (d_parent st) i).
  { intros i Hi. unfold parent', discovered.
    destruct (Z.eqb_spec (aget 0 (d_parent st) (cidx W v)) (-1)); auto.
    now rewrite aget_aset_other by auto. }
  assert (HT : exists d', tree_inv g s parent' d').
  { unfold parent'.
    destruct (Z.eqb_spec (aget 0 (d_parent st) (cidx W v)) (-1)).
    - eexists. apply tree_inv_discover; eauto.
    - now exists d. }
  destruct HT as (d' & TI').
  exists d'. split; [|repeat split; auto].
  - constructor; cbn [d_grid d_parent d_stack d_brk]; auto.
    + now apply same_maze_mark_or.
    + now rewrite Scap'.
    + rewrite Slive', Hmarks. intros c Hc.
      apply in_app_or in Hc as [Hc|[<-|[]]].
      * destruct (Slive c Hc) as (Hc1 & Hc2 & Hc3). repeat split; auto.
        rewrite aget_aset_other; auto.
        intros E. apply Hc3. rewrite <- E. exact Enone.
      * repeat split; auto. rewrite aget_aset_same by lia. unfold M_NONE. lia.
  - unfold dfs_pending. cbn [d_parent d_stack]. intros P i Hi Hd. fold parent' in Hd.
    rewrite Slive'.
    destruct (Z.eq_dec i (cidx W v)) as [->|E].
    + left. apply in_or_app. right. left. symmetry. now apply cell_of_inside.
    + destruct (P i Hi (Hold i E Hd)) as [Hl|Hne]; auto.
      left. apply in_or_app. now left.
  - unfold dfs_measure. cbn [d_grid d_stack]. rewrite Stop', Hmarks.
    rewrite (count_none_flip (marks (d_grid st)) (aset (marks (d_grid st)) (cidx W v) 2)
                             N (cidx W v)); auto; try lia.
    + rewrite aget_aset_same by lia. lia.
    + intros j Hj. now rewrite aget_aset_other by auto.
Qed.

Lemma dfs_scan_inv cur :
  forall ks st d,
    Forall (fun k => 0 <= k < 4) ks ->
    dfs_core g s st d ->
    inside g cur -> discovered (d_parent st) (cidx W cur) ->
    let st' := fold_left (dfs_visit (rc_r cur) (rc_c cur)) ks st in
    exists d',
      dfs_core g s st' d' /\
      (forall i, discovered (d_parent st) i -> discovered (d_parent st') i) /\
      (dfs_pending g e st -> dfs_pending g e st') /\
      d_brk st' = d_brk st /\
      d_rng st' = d_rng st /\
      dfs_measure g st' <= dfs_measure g st.
Proof.
  induction ks as [|k ks IH]; intros st d Hks C Hcin Hcd; simpl.
  - exists d. split; [exact C|]. repeat split; auto. lia.
  - inversion Hks as [|? ? Hk Hks']; subst.
    destruct (dfs_visit_inv st d cur k C Hcin Hcd Hk)
      as (d1 & C1 & Hmono1 & Hp1 & Hb1 & Hr1 & Hm1).
    destruct (IH _ d1 Hks' C1 Hcin (Hmono1 _ Hcd))
      as (d2 & C2 & Hmono2 & Hp2 & Hb2 & Hr2 & Hm2).
    exists d2. split; [exact C2|]. repeat split; auto; try congruence. lia.
Qed.

Lemma dfs_pop_inv st d :
  dfs_core g s st d -> 0 < s_top (d_stack st) ->
  let '(cur, st1) := dfs_pop st in
  dfs_core g s st1 d /\
  inside g cur /\ discovered (d_parent st1) (cidx W cur) /\
  d_parent st1 = d_parent st /\
  (dfs_pending g e st -> cidx W cur <> cidx W e -> dfs_pending g e st1) /\
  d_brk st1 = d_brk st /\ d_rng st1 = d_rng st /\
  dfs_measure g st1 < dfs_measure g st.
Proof.
  intros C Htop. pose proof C as [SM TI Slen Scap Stop Snd Slive].
  unfold dfs_pop.
  pose proof (stack_pop_spec (d_stack st) Slen ltac:(lia)) as Hpop.
  destruct (stack_pop (d_stack st)) as [cur s1].
  destruct Hpop as (Sdata & Scap' & Stop' & Slive').
  assert (Hcur : In cur (s_live (d_stack st))).
  { rewrite Slive'. apply in_or_app. right. now left. }
  destruct (Slive cur Hcur) as (Hcin & Hcd & Hcm).
  pose proof (cidx_range g _ Hcin) as Hci.
  assert (Hml : Z.of_nat (length (marks (d_grid st))) = N).
  { destruct SM as (_ & _ & _ & ->). apply WF. }
  assert (Hcol : cols (d_grid st) = W) by apply SM.
  destruct (pop_marks (d_grid st) (rc_r cur) (rc_c cur)) as (Hoth & Hnz).
  rewrite Hcol in Hoth, Hnz. fold (cidx W cur) in Hoth, Hnz.
  set (g1 := mark_andnot (d_grid st) (rc_r cur) (rc_c cur) M_FRONT) in *.
  set (g2 := if Z.land (aget 0 (marks g1) (rc_r cur * cols g1 + rc_c cur)) M_VISIT =? 0
             then mark_or g1 (rc_r cur) (rc_c cur) M_VISIT else g1) in *.
  assert (SM2 : same_maze g g2).
  { unfold g2. destruct (_ =? 0); [apply same_maze_mark_or|];
      now apply same_maze_mark_andnot. }
  rewrite Slive' in Snd.
  assert (Hnd1 : NoDup (s_live s1)) by (now apply NoDup_remove_1 in Snd; rewrite app_nil_r in Snd).
  assert (Hnot : ~ In cur (s_live s1)).
  { apply NoDup_remove_2 in Snd. now rewrite app_nil_r in Snd. }
  cbn [d_grid d_parent d_stack d_brk d_rng].
  split; [|repeat split; auto].
  - constructor; cbn [d_grid d_parent d_stack d_brk]; auto; try congruence; try lia.
    intros c Hc.
    destruct (Slive c) as (Hc1 & Hc2 & Hc3); [rewrite Slive'; apply in_or_app; now left|].
    repeat split; auto.
    rewrite Hoth; auto.
    intros E. apply (cidx_inj g) in E; auto. subst c. contradiction.
  - unfold dfs_pending. cbn [d_parent d_stack].
    intros P Hce i Hi Hd. destruct (P i Hi Hd) as [Hl|Hne]; auto.
    rewrite Slive' in Hl. apply in_app_or in Hl as [Hl|[E|[]]]; auto.
    right. intros Ei. apply Hce. rewrite <- Ei, E. apply cidx_cell_of.
  - unfold dfs_measure. cbn [d_grid d_stack]. rewrite Stop'.
    pose proof (count_none_le (marks (d_grid st)) (marks g2) N) as Hle.
    assert ((count_none (marks g2) N <= count_none (marks (d_grid st)) N)%nat).
    { apply Hle. intros i Hi E0.
      destruct (Z.eq_dec i (cidx W cur)) as [->|Hne].
      - exfalso. apply Hnz; auto. lia.
      - now rewrite <- Hoth. }
    lia.
Qed.
End Dfs.

(** * Depth-first search: the main loop *)

Section DfsRun.
Variable rand : nat -> Z.
Hypothesis rand_nonneg : forall n, 0 <= rand n.
Variables (g : Grid) (s e : CellRC).
Hypothesis WF : wf_grid g.
Hypothesis Hs : inside g s.
Hypothesis He : inside g e.

Local Abbreviation N := (rows g * cols g).
Local Abbreviation W := (cols g).

Lemma dfs_core_with st d rng b :
  dfs_core g s st d ->
  dfs_core g s (mkDfs (d_grid st) (d_parent st) (d_stack st) rng b) d.
Proof. intros []; constructor; auto. Qed.

Lemma dfs_unfinished st :
  dfs_finished st = false ->
  d_brk st = false /\ s_top (d_stack st) <> 0.
Proof.
  unfold dfs_finished, stack_empty. intros H.
  apply orb_false_iff in H as [Hb Hq]. split; auto. now apply Z.eqb_neq.
Qed.

Lemma dfs_init_core rng :
  let st := dfs_init g (rc_r s) (rc_c s) rng in
  dfs_core g s st (fun _ => O) /\ dfs_pending g e st /\ d_brk st = false /\
  dfs_measure g st <= N.
Proof.
  destruct WF as (Hr & Hc & Hmax & Hcl & Hml).
  pose proof (cidx_range g s Hs) as Hsi.
  unfold dfs_init. fold (cidx W s).
  set (parent := aset (repeat (-1) (Z.to_nat N)) (cidx W s) (-2)).
  set (s0 := stack_create (N + 5)).
  assert (S0len : Z.of_nat (length (s_data s0)) = s_cap s0).
  { unfold s0, stack_create; simpl. rewrite repeat_length. nia. }
  destruct (stack_push_spec s0 S0len (RC (rc_r s) (rc_c s))) as
      (Slen & Scap & Stop & Slive);
    try (unfold s0, stack_create; simpl; nia).
  replace (RC (rc_r s) (rc_c s)) with s in * by (now destruct s).
  change (s_live s0) with (@nil CellRC) in Slive.
  change (s_top s0) with 0 in Stop. change (s_cap s0) with (N + 5) in Scap.
  simpl app in *.
  assert (Hpl : Z.of_nat (length parent) = N).
  { unfold parent. rewrite length_aset, repeat_length. nia. }
  assert (Hroot : aget 0 parent (cidx W s) = -2).
  { unfold parent. rewrite aget_aset_same; auto. rewrite repeat_length. nia. }
  assert (Hother : forall i, 0 <= i < N -> i <> cidx W s -> aget 0 parent i = -1).
  { intros i Hi Hne. unfold parent. rewrite aget_aset_other by auto.
    apply aget_repeat. lia. }
  assert (Hdisc : forall i, 0 <= i < N -> discovered parent i -> i = cidx W s).
  { intros i Hi Hd. destruct (Z.eq_dec i (cidx W s)); auto.
    exfalso. apply Hd. now apply Hother. }
  set (g0 := mkGrid (rows g) W (cells g) (memset (marks g) M_NONE N)).
  assert (Hmarks : marks (mark_or g0 (rc_r s) (rc_c s) M_FRONT)
                   = aset (repeat 0 (Z.to_nat N)) (cidx W s) 2).
  { unfold mark_or, g0; cbn [marks cols]. fold (cidx W s).
    rewrite memset_all by auto. unfold M_NONE.
    rewrite aget_repeat by lia. reflexivity. }
  cbn [d_brk]. split; [|split; [|split; [reflexivity|]]].
  - constructor; cbn [d_grid d_parent d_stack d_brk]; auto.
    + apply same_maze_mark_or. repeat split; simpl.
      rewrite memset_all by auto. rewrite repeat_length. lia.
    + constructor; auto.
      intros i Hi. destruct (Z.eq_dec i (cidx W s)) as [->|Hne]; auto.
    + lia.
    + rewrite Slive. repeat constructor. intros [].
    + rewrite Slive, Hmarks. intros c [<-|[]]. repeat split; auto.
      * unfold discovered. rewrite Hroot. lia.
      * rewrite aget_aset_same by (rewrite repeat_length; lia). unfold M_NONE; lia.
  - unfold dfs_pending; cbn [d_parent d_stack]. fold parent. rewrite Slive.
    intros i Hi Hd. left. left.
    rewrite (Hdisc i Hi Hd). symmetry. now apply cell_of_inside.
  - unfold dfs_measure; cbn [d_grid d_stack]. rewrite Stop, Hmarks.
    assert (Hflip : count_none (repeat 0 (Z.to_nat N)) N
                    = S (count_none (aset (repeat 0 (Z.to_nat N)) (cidx W s) 2) N)).
    { apply (count_none_flip _ _ N (cidx W s)); auto.
      - apply aget_repeat; lia.
      - rewrite aget_aset_same by (rewrite repeat_length; lia). lia.
      - intros j Hj. apply aget_aset_other; auto. }
    pose proof (count_if_le (fun i => aget 0 (repeat 0 (Z.to_nat N)) i =? M_NONE) N) as Hle.
    fold (count_none (repeat 0 (Z.to_nat N)) N) in Hle. lia.
Qed.

Lemma dfs_inv_init rng : dfs_inv g s e (dfs_init g (rc_r s) (rc_c s) rng).
Proof.
  destruct (dfs_init_core rng) as (C & P & Hb & _).
  exists (fun _ => O). split; auto.
Qed.

Lemma dfs_body_inv st :
  dfs_inv g s e st -> dfs_finished st = false ->
  let st' := dfs_body rand (rc_r e) (rc_c e) st in
  dfs_inv g s e st' /\ dfs_measure g st' < dfs_measure g st /\
  (forall i, discovered (d_parent st) i -> discovered (d_parent st') i).
Proof.
  intros (d & C & H) Hnf.
  apply dfs_unfinished in Hnf as (Hb & Hq). rewrite Hb in H.
  pose proof (dc_top _ _ _ _ C) as Ht.
  unfold dfs_body.
  pose proof (dfs_pop_inv g s e WF st d C ltac:(lia)) as Hpop.
  destruct (dfs_pop st) as [cur st1].
  destruct Hpop as (C1 & Hcin & Hcd & Hpar & Hpend & Hbrk & Hrng & Hm).
  destruct ((rc_r cur =? rc_r e) && (rc_c cur =? rc_c e)) eqn:Ee.
  - apply (cell_eqb_true e) in Ee. subst cur.
    split; [|split; [exact Hm|cbn [d_parent]; now rewrite Hpar]].
    exists d. split.
    + now apply dfs_core_with.
    + cbn [d_brk d_parent]. exact Hcd.
  - apply (cell_eqb_false g e) in Ee; auto.
    pose proof (shuffle_ints_dirs rand rand_nonneg (d_rng st1)) as Hord.
    destruct (shuffle_ints rand [0; 1; 2; 3] 4 (d_rng st1)) as [order rng].
    simpl fst in Hord.
    set (st2 := mkDfs (d_grid st1) (d_parent st1) (d_stack st1) rng (d_brk st1)).
    destruct (dfs_scan_inv g s e WF cur order st2 d Hord (dfs_core_with _ _ _ _ C1) Hcin Hcd)
      as (d' & C' & Hmono & Hp' & Hb' & _ & Hm').
    split; [|split].
    + exists d'. split; auto.
      assert (Hbf : d_brk (fold_left (dfs_visit (rc_r cur) (rc_c cur)) order st2) = false).
      { rewrite Hb'. unfold st2; cbn [d_brk]. congruence. }
      rewrite Hbf.
      apply Hp'. unfold dfs_pending, st2; cbn [d_parent d_stack]. apply Hpend; auto.
    + change (dfs_measure g st2) with (dfs_measure g st1) in Hm'. lia.
    + intros i Hi. apply Hmono. unfold st2; cbn [d_parent]. now rewrite Hpar.
Qed.

Lemma dfs_run_finished_fix n st :
  dfs_finished st = true -> dfs_run rand n (rc_r e) (rc_c e) st = st.
Proof. intros H; destruct n; simpl; auto. now rewrite H. Qed.

Lemma dfs_run_inv n :
  forall st, dfs_inv g s e st -> dfs_inv g s e (dfs_run rand n (rc_r e) (rc_c e) st).
Proof.
  induction n as [|n IH]; intros st H; simpl; auto.
  destruct (dfs_finished st) eqn:Ef; auto.
  apply IH. now apply dfs_body_inv.
Qed.

Lemma dfs_measure_nonneg st : dfs_inv g s e st -> 0 <= dfs_measure g st.
Proof.
  intros (d & C & _). pose proof (dc_top _ _ _ _ C). unfold dfs_measure. lia.
Qed.

(** Every iteration pops a cell, and a cell is pushed only while its
    mark is [M_NONE], which the push ends. *)
Lemma dfs_run_finished n :
  forall st, dfs_inv g s e st ->
             dfs_measure g st < Z.of_nat n ->
             dfs_finished (dfs_run rand n (rc_r e) (rc_c e) st) = true.
Proof.
  induction n as [|n IH]; intros st H Hn.
  - pose proof (dfs_measure_nonneg st H). lia.
  - simpl. destruct (dfs_finished st) eqn:Ef; auto.
    destruct (dfs_body_inv st H Ef) as (H' & Hm & _).
    apply IH; auto. lia.
Qed.

Lemma dfs_solved_finished rng :
  dfs_finished (dfs_run rand (S (Z.to_nat N)) (rc_r e) (rc_c e)
                        (dfs_init g (rc_r s) (rc_c s) rng)) = true.
Proof.
  apply dfs_run_finished; [apply dfs_inv_init|].
  destruct (dfs_init_core rng) as (_ & _ & _ & Hm).
  destruct WF as (? & ? & _). nia.
Qed.

(** When the loop ends on an empty stack, [e] was never discovered. *)
Lemma dfs_exhausted_unset st :
  dfs_inv g s e st -> dfs_finished st = true -> d_brk st = false ->
  aget 0 (d_parent st) (cidx W e) = -1.
Proof.
  intros (d & C & H) Hf Hb. rewrite Hb in H.
  unfold dfs_finished in Hf. rewrite Hb in Hf. simpl in Hf.
  apply stack_empty_spec in Hf.
  - destruct (Z.eq_dec (aget 0 (d_parent st) (cidx W e)) (-1)) as [E|E]; auto.
    destruct (H (cidx W e) (cidx_range g e He) E) as [Hin|Hne].
    + rewrite Hf in Hin. destruct Hin.
    + congruence.
  - exact (dc_len _ _ _ _ C).
  - pose proof (dc_top _ _ _ _ C). rewrite (dc_cap _ _ _ _ C). lia.
Qed.
End DfsRun.

(** A discovered cell is connected to the start by a walk of the maze. *)
Lemma tree_walk g s parent d i :
  tree_inv g s parent d -> 0 <= i < rows g * cols g -> discovered parent i ->
  walk g s (d i) (cell_of (cols g) i).
Proof.
  intros TI Hi Hd.
  destruct (tree_recon g s parent d TI i g (Z.to_nat (rows g * cols g)) Hi Hd (le_n _))
    as (_ & _ & _ & _ & _ & _ & _ & _ & _ & Hw).
  exact Hw.
Qed.

(** C4: [solve_dfs] returns, and the path it reconstructs, when it is not
    empty, repeats no cell, consists of open cells, steps between
    grid-adjacent cells, and leads from [end] back to [start]. *)
Theorem dfs_path_valid (rand : nat -> Z) (g : Grid) (sr sc er ec : Z) (rng : nat) :
  (forall n, 0 <= rand n) ->
  wf_grid g -> cell_open g (RC sr sc) -> inside g (RC er ec) ->
  exists g' path,
    solve_dfs rand (S (Z.to_nat (rows g * cols g))) g sr sc er ec rng = Some (g', path) /\
    (path <> [] ->
     NoDup path /\
     Forall (cell_open g) path /\
     steps_adjacent path /\
     hd (RC sr sc) path = RC er ec /\
     last path (RC er ec) = RC sr sc).
Proof.
  intros Hrand WF Hso He.
  pose proof (proj1 Hso) as Hs.
  set (s := RC sr sc) in *. set (e := RC er ec) in *.
  unfold solve_dfs.
  change sr with (rc_r s); change sc with (rc_c s).
  change er with (rc_r e); change ec with (rc_c e).
  set (st := dfs_run _ _ _ _ _).
  assert (Hf : dfs_finished st = true) by (apply dfs_solved_finished; auto).
  assert (Hinv : dfs_inv g s e st) by (apply dfs_run_inv, dfs_inv_init; auto).
  rewrite Hf.
  destruct Hinv as (d & C & _).
  unfold reconstruct_and_mark. fold (cidx (cols g) e).
  destruct (Z.eqb_spec (aget 0 (d_parent st) (cidx (cols g) e)) (-1)) as [E|Hd].
  { exists (d_grid st), []. split; auto. congruence. }
  destruct (tree_recon g s (d_parent st) d (dc_tree _ _ _ _ C) (cidx (cols g) e)
                       (d_grid st) (S (Z.to_nat (rows g * cols g)))
                       (cidx_range g e He) Hd ltac:(lia))
    as (g' & p & E & Hlen & Hhd & Hlast & Hst & Hopen & Hnd & _).
  rewrite cell_of_inside in * by auto.
  exists g', p. split; auto. intros _.
  repeat split; auto.
  apply Forall_forall. intros c Hc. destruct (Hopen c Hc) as [->|Ho]; auto.
Qed.

(** * Parent entries are written once *)

Lemma bfs_visit_keeps r c st k i :
  aget 0 (b_parent st) i <> -1 ->
  aget 0 (b_parent (bfs_visit r c st k)) i = aget 0 (b_parent st) i.
Proof.
  intros H. unfold bfs_visit.
  destruct (is_inside _ _ _ && _ && _) eqn:E; auto.
  apply andb_true_iff in E as (_ & E). apply Z.eqb_eq in E.
  cbn [b_parent]. apply aget_aset_other. intros <-. contradiction.
Qed.

Lemma bfs_scan_keeps r c ks :
  forall st i, aget 0 (b_parent st) i <> -1 ->
               aget 0 (b_parent (fold_left (bfs_visit r c) ks st)) i = aget 0 (b_parent st) i.
Proof.
  induction ks as [|k ks IH]; intros st i H; simpl; auto.
  rewrite IH; rewrite bfs_visit_keeps; auto.
Qed.

Lemma bfs_pop_parent st : b_parent (snd (bfs_pop st)) = b_parent st.
Proof. unfold bfs_pop. destruct (queue_pop (b_queue st)); reflexivity. Qed.

Lemma bfs_body_keeps er ec st i :
  aget 0 (b_parent st) i <> -1 ->
  aget 0 (b_parent (bfs_body er ec st)) i = aget 0 (b_parent st) i.
Proof.
  intros H. unfold bfs_body.
  pose proof (bfs_pop_parent st) as Hp.
  destruct (bfs_pop st) as [cur st1]. simpl in Hp.
  destruct (_ && _); cbn [b_parent].
  - now rewrite Hp.
  - rewrite bfs_scan_keeps; rewrite Hp; auto.
Qed.

Lemma bfs_run_keeps er ec n :
  forall st i, aget 0 (b_parent st) i <> -1 ->
               aget 0 (b_parent (bfs_run n er ec st)) i = aget 0 (b_parent st) i.
Proof.
  induction n as [|n IH]; intros st i H; simpl; auto.
  destruct (bfs_finished st); auto.
  rewrite IH; rewrite bfs_body_keeps; auto.
Qed.

Lemma bfs_run_add er ec n k :
  forall st, bfs_run (n + k) er ec st = bfs_run k er ec (bfs_run n er ec st).
Proof.
  induction n as [|n IH]; intros st; simpl; auto.
  destruct (bfs_finished st) eqn:E; auto.
  destruct k; simpl; auto. now rewrite E.
Qed.

Lemma dfs_visit_keeps r c st k i :
  aget 0 (d_parent st) i <> -1 ->
  aget 0 (d_parent (dfs_visit r c st k)) i = aget 0 (d_parent st) i.
Proof.
  intros H. unfold dfs_visit.
  destruct (is_inside _ _ _ && _ && _) eqn:E; auto.
  cbn [d_parent].
  destruct (Z.eqb_spec (aget 0 (d_parent st)
              ((r + fst (aget (0, 0) nbrs4 k)) * cols (d_grid st)
               + (c + snd (aget (0, 0) nbrs4 k)))) (-1)) as [E1|E1]; auto.
  apply aget_aset_other. intros <-. contradiction.
Qed.

Lemma dfs_scan_keeps r c ks :
  forall st i, aget 0 (d_parent st) i <> -1 ->
               aget 0 (d_parent (fold_left (dfs_visit r c) ks st)) i = aget 0 (d_parent st) i.
Proof.
  induction ks as [|k ks IH]; intros st i H; simpl; auto.
  rewrite IH; rewrite dfs_visit_keeps; auto.
Qed.

Lemma dfs_pop_parent st : d_parent (snd (dfs_pop st)) = d_parent st.
Proof. unfold dfs_pop. destruct (stack_pop (d_stack st)); reflexivity. Qed.

Section DfsKeeps.
Variable rand : nat -> Z.

Lemma dfs_body_keeps er ec st i :
  aget 0 (d_parent st) i <> -1 ->
  aget 0 (d_parent (dfs_body rand er ec st)) i = aget 0 (d_parent st) i.
Proof.
  intros H. unfold dfs_body.
  pose proof (dfs_pop_parent st) as Hp.
  destruct (dfs_pop st) as [cur st1]. simpl in Hp.
  destruct (_ && _); cbn [d_parent].
  - now rewrite Hp.
  - destruct (shuffle_ints rand [0; 1; 2; 3] 4 (d_rng st1)) as [order rng].
    rewrite dfs_scan_keeps; cbn [d_parent]; rewrite Hp; auto.
Qed.

Lemma dfs_run_keeps er ec n :
  forall st i, aget 0 (d_parent st) i <> -1 ->
               aget 0 (d_parent (dfs_run rand n er ec st)) i = aget 0 (d_parent st) i.
Proof.
  induction n as [|n IH]; intros st i H; simpl; auto.
  destruct (dfs_finished st); auto.
  rewrite IH; rewrite dfs_body_keeps; auto.
Qed.

Lemma dfs_run_add er ec n k :
  forall st, dfs_run rand (n + k) er ec st = dfs_run rand k er ec (dfs_run rand n er ec st).
Proof.
  induction n as [|n IH]; intros st; simpl; auto.
  destruct (dfs_finished st) eqn:E; auto.
  destruct k; simpl; auto. now rewrite E.
Qed.
End DfsKeeps.

(** C2: in a solve, an entry of [parent] that is no longer the unset
    sentinel is never written again: neither by a later pass of the
    neighbour loop, nor by any later iteration of the main loop.  This
    holds for [solve_bfs] and for [solve_dfs]. *)
Theorem parent_assigned_once (rand : nat -> Z) (g : Grid) (sr sc er ec : Z)
        (rng : nat) (n m : nat) (i : Z) :
  (n <= m)%nat ->
  (let pn := b_parent (bfs_run n er ec (bfs_init g sr sc)) in
   let pm := b_parent (bfs_run m er ec (bfs_init g sr sc)) in
   aget 0 pn i <> -1 -> aget 0 pm i = aget 0 pn i) /\
  (let pn := d_parent (dfs_run rand n er ec (dfs_init g sr sc rng)) in
   let pm := d_parent (dfs_run rand m er ec (dfs_init g sr sc rng)) in
   aget 0 pn i <> -1 -> aget 0 pm i = aget 0 pn i) /\
  (forall r c st k, aget 0 (b_parent st) i <> -1 ->
                    aget 0 (b_parent (bfs_visit r c st k)) i = aget 0 (b_parent st) i) /\
  (forall r c st k, aget 0 (d_parent st) i <> -1 ->
                    aget 0 (d_parent (dfs_visit r c st k)) i = aget 0 (d_parent st) i).
Proof.
  intros Hnm. replace m with (n + (m - n))%nat by lia.
  repeat split.
  - rewrite bfs_run_add. apply bfs_run_keeps.
  - rewrite dfs_run_add. apply dfs_run_keeps.
  - intros; now apply bfs_visit_keeps.
  - intros; now apply dfs_visit_keeps.
Qed.

(** C7: on every grid the main loops of [solve_bfs] and [solve_dfs] come
    to an end within [rows*cols + 1] iterations; when a loop ends without
    having popped [end], and in particular when [end] cannot be reached
    from [start], [parent[end]] is still the unset sentinel. *)
Theorem search_terminates (rand : nat -> Z) (g : Grid) (sr sc er ec : Z) (rng : nat) :
  (forall n, 0 <= rand n) ->
  wf_grid g -> inside g (RC sr sc) -> inside g (RC er ec) ->
  let fuel := S (Z.to_nat (rows g * cols g)) in
  let b := bfs_run fuel er ec (bfs_init g sr sc) in
  let d := dfs_run rand fuel er ec (dfs_init g sr sc rng) in
  (bfs_finished b = true /\
   (b_brk b = false -> aget 0 (b_parent b) (er * cols g + ec) = -1)) /\
  (dfs_finished d = true /\
   (d_brk d = false -> aget 0 (d_parent d) (er * cols g + ec) = -1)) /\
  ((forall k, ~ walk g (RC sr sc) k (RC er ec)) ->
   aget 0 (b_parent b) (er * cols g + ec) = -1 /\
   aget 0 (d_parent d) (er * cols g + ec) = -1).
Proof.
  intros Hrand WF Hs He fuel b d.
  set (s := RC sr sc) in *. set (e := RC er ec) in *.
  change (er * cols g + ec) with (cidx (cols g) e).
  assert (Hbf : bfs_finished b = true) by (apply (bfs_solved_finished g s e); auto).
  assert (Hbi : bfs_inv g s e b) by (apply (bfs_run_inv g s e), bfs_inv_init; auto).
  assert (Hdf : dfs_finished d = true) by (apply (dfs_solved_finished rand Hrand g s e); auto).
  assert (Hdi : dfs_inv g s e d) by (apply (dfs_run_inv rand Hrand g s e), dfs_inv_init; auto).
  split; [|split].
  - split; auto. now apply (bfs_exhausted_unset g s e).
  - split; auto. now apply (dfs_exhausted_unset g s e).
  - intros Hno. split.
    + destruct (Z.eq_dec (aget 0 (b_parent b) (cidx (cols g) e)) (-1)) as [E|E]; auto.
      exfalso. destruct Hbi as (lv & C & _).
      apply (Hno (lv (cidx (cols g) e))).
      rewrite <- (cell_of_inside g e He) at 2.
      apply (tree_walk g s (b_parent b) lv); auto.
      * exact (bc_tree _ _ _ _ C).
      * now apply cidx_range.
    + destruct (Z.eq_dec (aget 0 (d_parent d) (cidx (cols g) e)) (-1)) as [E|E]; auto.
      exfalso. destruct Hdi as (lv & C & _).
      apply (Hno (lv (cidx (cols g) e))).
      rewrite <- (cell_of_inside g e He) at 2.
      apply (tree_walk g s (d_parent d) lv); auto.
      * exact (dc_tree _ _ _ _ C).
      * now apply cidx_range.
Qed.

(** * Path bits before the reconstruction *)

Lemma upd_outside {A} (l : list A) n v : (length l <= n)%nat -> upd l n v = l.
Proof.
  revert n; induction l as [|a l IH]; intros [|n]; simpl; intros H; auto; try lia.
  f_equal. apply IH. lia.
Qed.

Lemma aset_outside {A} (l : list A) i v :
  ~ (0 <= i < Z.of_nat (length l)) -> aset l i v = l.
Proof.
  intros H. unfold aset. destruct (Z.ltb_spec i 0); auto.
  apply upd_outside. lia.
Qed.

Lemma no_path_aset m i v :
  (forall j, has_path (aget 0 m j) = false) ->
  has_path v = false ->
  forall j, has_path (aget 0 (aset m i v) j) = false.
Proof.
  intros Hm Hv j.
  destruct (Z.eq_dec i j) as [->|Hne]; [|now rewrite aget_aset_other].
  destruct (Z.ltb_spec j 0); [now rewrite aset_outside by lia|].
  destruct (Z.ltb_spec j (Z.of_nat (length m))); [|now rewrite aset_outside by lia].
  now rewrite aget_aset_same by lia.
Qed.

Lemma no_path_mark_or g r c v :
  Z.testbit v 2 = false -> no_path g -> no_path (mark_or g r c v).
Proof.
  intros Hv Hg. unfold no_path, mark_or; cbn [marks].
  apply no_path_aset; auto.
  unfold has_path. rewrite testbit_to_uchar, Z.lor_spec, Hv, orb_false_r by lia.
  apply Hg.
Qed.

Lemma no_path_mark_andnot g r c v : no_path g -> no_path (mark_andnot g r c v).
Proof.
  intros Hg. unfold no_path, mark_andnot; cbn [marks].
  apply no_path_aset; auto.
  unfold has_path. rewrite testbit_to_uchar, Z.land_spec by lia.
  unfold no_path, has_path in Hg. now rewrite Hg.
Qed.

Lemma no_path_cleared g :
  Z.of_nat (length (marks g)) = rows g * cols g ->
  no_path (mkGrid (rows g) (cols g) (cells g) (memset (marks g) M_NONE (rows g * cols g))).
Proof.
  intros Hl i. cbn [marks]. rewrite memset_all by auto.
  unfold aget. destruct (i <? 0); auto.
  destruct (Nat.ltb_spec (Z.to_nat i) (Z.to_nat (rows g * cols g))).
  - now rewrite nth_repeat_lt.
  - rewrite nth_overflow; auto. now rewrite repeat_length.
Qed.

Lemma no_path_popped g r c :
  no_path g ->
  no_path (let g1 := mark_andnot g r c M_FRONT in
           if Z.land (aget 0 (marks g1) (r * cols g1 + c)) M_VISIT =? 0
           then mark_or g1 r c M_VISIT else g1).
Proof.
  intros H. cbv zeta. destruct (_ =? 0).
  - apply no_path_mark_or; [reflexivity|]. now apply no_path_mark_andnot.
  - now apply no_path_mark_andnot.
Qed.

Lemma bfs_pop_no_path st : no_path (b_grid st) -> no_path (b_grid (snd (bfs_pop st))).
Proof.
  intros H. unfold bfs_pop. destruct (queue_pop (b_queue st)) as [cur q].
  cbn [snd b_grid]. now apply no_path_popped.
Qed.

Lemma dfs_pop_no_path st : no_path (d_grid st) -> no_path (d_grid (snd (dfs_pop st))).
Proof.
  intros H. unfold dfs_pop. destruct (stack_pop (d_stack st)) as [cur q].
  cbn [snd d_grid]. now apply no_path_popped.
Qed.

(** With every level at 0 the tree has a single node. *)
Lemma tree_inv_flat g s parent i :
  tree_inv g s parent (fun _ => O) ->
  0 <= i < rows g * cols g -> discovered parent i -> i = cidx (cols g) s.
Proof.
  intros TI Hi Hd.
  destruct (ti_node _ _ _ _ TI i Hi) as [E | [[_ E] | (_ & _ & E & _)]]; auto.
  - contradiction.
  - discriminate.
Qed.

(** The walk from a root: one cell. *)
Lemma recon_root g parent i fuel :
  aget 0 parent i = -2 -> 0 <= i ->
  recon_loop (S fuel) parent (cols g) g i
  = Some (mark_or g (Z.quot i (cols g)) (Z.rem i (cols g)) M_PATH, [cell_of (cols g) i]).
Proof.
  intros H Hi. rewrite recon_loop_step by lia.
  rewrite H, recon_loop_sentinel by auto. reflexivity.
Qed.

Lemma single_cell_marks g g0 s parent fuel :
  wf_grid g -> inside g s -> same_maze g g0 -> no_path g0 ->
  aget 0 parent (cidx (cols g) s) = -2 ->
  exists g',
    reconstruct_and_mark (S fuel) g0 parent (cols g) (rc_r s) (rc_c s) = Some (g', [s]) /\
    forall i, 0 <= i < rows g * cols g ->
              has_path (aget 0 (marks g') i) = (i =? cidx (cols g) s).
Proof.
  intros WF Hs SM Hnp Hroot.
  pose proof (cidx_range g s Hs) as Hsi.
  assert (Hc : cols g0 = cols g) by apply SM.
  assert (E : recon_loop (S fuel) parent (cols g) g0 (cidx (cols g) s)
              = Some (mark_or g0 (Z.quot (cidx (cols g) s) (cols g0))
                              (Z.rem (cidx (cols g) s) (cols g0)) M_PATH, [s])).
  { rewrite <- Hc at 1. rewrite recon_root by (auto; lia).
    now rewrite Hc, cell_of_inside by auto. }
  unfold reconstruct_and_mark. fold (cidx (cols g) s).
  rewrite Hroot. simpl (-2 =? -1). cbv iota. rewrite E.
  eexists. split; [reflexivity|].
  intros i Hi. rewrite has_path_mark_or.
  - rewrite Hnp, orb_false_r. apply Z.eqb_sym.
  - auto.
  - destruct SM as (_ & _ & _ & ->). destruct WF as (_ & _ & _ & _ & ->). exact Hi.
Qed.

(** C8: when [start] and [end] are the same cell, the reconstructed path
    is that single cell, and after the solve the path bit is set on that
    cell and on no other.  This holds for [solve_bfs] and [solve_dfs]. *)
Theorem start_equals_end_single_cell (rand : nat -> Z) (g : Grid) (sr sc : Z)
        (rng fuel : nat) :
  wf_grid g -> inside g (RC sr sc) ->
  (exists g',
      solve_bfs (S fuel) g sr sc sr sc = Some (g', [RC sr sc]) /\
      forall i, 0 <= i < rows g * cols g ->
                has_path (aget 0 (marks g') i) = (i =? sr * cols g + sc)) /\
  (exists g',
      solve_dfs rand (S fuel) g sr sc sr sc rng = Some (g', [RC sr sc]) /\
      forall i, 0 <= i < rows g * cols g ->
                has_path (aget 0 (marks g') i) = (i =? sr * cols g + sc)).
Proof.
  intros WF Hs. set (s := RC sr sc) in *.
  change (sr * cols g + sc) with (cidx (cols g) s).
  pose proof (cidx_range g s Hs) as Hsi.
  assert (Hnp0 : no_path (mark_or (mkGrid (rows g) (cols g) (cells g)
                                          (memset (marks g) M_NONE (rows g * cols g)))
                                  sr sc M_FRONT)).
  { apply no_path_mark_or; [reflexivity|]. apply no_path_cleared, WF. }
  split.
  - unfold solve_bfs.
    change sr with (rc_r s). change sc with (rc_c s).
    destruct (bfs_init_head g s s WF Hs) as (H0 & Hb0 & Hh0).
    set (st0 := bfs_init g (rc_r s) (rc_c s)) in *.
    pose proof (bh_core _ _ _ _ _ H0) as C0.
    assert (Hroot : aget 0 (b_parent st0) (cidx (cols g) s) = -2)
      by exact (ti_root _ _ _ _ (bc_tree _ _ _ _ C0)).
    assert (Hin : In s (q_pending (b_queue st0))).
    { destruct (bh_done _ _ _ _ _ H0 (cidx (cols g) s) Hsi) as [Hin|[_ Hne]].
      - unfold discovered. rewrite Hroot. lia.
      - now rewrite cell_of_inside in Hin.
      - congruence. }
    assert (Hlt : q_head (b_queue st0) < q_tail (b_queue st0)).
    { pose proof (bc_head _ _ _ _ C0) as Hh.
      destruct (Z.eq_dec (q_head (b_queue st0)) (q_tail (b_queue st0))) as [E|E]; [|lia].
      exfalso. unfold q_pending, q_pushed in Hin. rewrite E in Hin.
      rewrite skipn_all2 in Hin by (rewrite length_firstn; lia). destruct Hin. }
    assert (Hnf : bfs_finished st0 = false).
    { unfold bfs_finished, queue_empty. rewrite Hb0. cbn [orb]. apply Z.eqb_neq. lia. }
    cbn [bfs_run]. rewrite Hnf. unfold bfs_body.
    pose proof (bfs_pop_mid g s s WF Hs st0 _ H0 Hlt) as Hpop.
    pose proof (bfs_pop_no_path st0 Hnp0) as Hnp1.
    destruct (bfs_pop st0) as [cur st1]. cbn [snd] in Hnp1.
    destruct Hpop as (M & Hpar & _ & _ & Hcur).
    assert (cur = s).
    { destruct (bc_pushed _ _ _ _ C0 cur (q_pending_incl _ _ Hcur)) as (Hci & Hcd).
      apply (cidx_inj g); auto.
      apply (tree_inv_flat g s (b_parent st0)); auto.
      - exact (bc_tree _ _ _ _ C0).
      - now apply cidx_range. }
    subst cur. rewrite !Z.eqb_refl. cbn [andb].
    rewrite (bfs_run_finished_fix s) by reflexivity.
    cbn [bfs_finished b_brk orb b_grid b_parent].
    rewrite Hpar.
    apply (single_cell_marks g (b_grid st1) s); auto.
    exact (bc_maze _ _ _ _ (bm_core _ _ _ _ _ _ _ M)).
  - unfold solve_dfs.
    change sr with (rc_r s). change sc with (rc_c s).
    destruct (dfs_init_core g s s WF Hs rng) as (C0 & P0 & Hb0 & _).
    set (st0 := dfs_init g (rc_r s) (rc_c s) rng) in *.
    assert (Hroot : aget 0 (d_parent st0) (cidx (cols g) s) = -2)
      by exact (ti_root _ _ _ _ (dc_tree _ _ _ _ C0)).
    assert (Hin : In s (s_live (d_stack st0))).
    { destruct (P0 (cidx (cols g) s) Hsi) as [Hin|Hne].
      - unfold discovered. rewrite Hroot. lia.
      - now rewrite cell_of_inside in Hin.
      - congruence. }
    assert (Hlt : 0 < s_top (d_stack st0)).
    { pose proof (dc_top _ _ _ _ C0) as Hh.
      destruct (Z.eq_dec (s_top (d_stack st0)) 0) as [E|E]; [|lia].
      exfalso. unfold s_live in Hin. rewrite E in Hin. destruct Hin. }
    assert (Hnf : dfs_finished st0 = false).
    { unfold dfs_finished, stack_empty. rewrite Hb0. cbn [orb]. apply Z.eqb_neq. lia. }
    cbn [dfs_run]. rewrite Hnf. unfold dfs_body.
    pose proof (dfs_pop_inv g s s WF st0 _ C0 Hlt) as Hpop.
    pose proof (dfs_pop_no_path st0 Hnp0) as Hnp1.
    destruct (dfs_pop st0) as [cur st1]. cbn [snd] in Hnp1.
    destruct Hpop as (C1 & Hci & Hcd & Hpar & _).
    assert (cur = s).
    { apply (cidx_inj g); auto.
      apply (tree_inv_flat g s (d_parent st0)); auto.
      - exact (dc_tree _ _ _ _ C0).
      - now apply cidx_range.
      - now rewrite <- Hpar. }
    subst cur. rewrite !Z.eqb_refl. cbn [andb].
    rewrite (dfs_run_finished_fix rand s) by reflexivity.
    cbn [dfs_finished d_brk orb d_grid d_parent].
    rewrite Hpar.
    apply (single_cell_marks g (d_grid st1) s); auto.
    exact (dc_maze _ _ _ _ C1).
Qed.

(** * Capacity of the queue and of the stack *)

Lemma Forall_firstn_of {A} (P : A -> Prop) (l : list A) n :
  Forall P l -> Forall P (firstn n l).
Proof.
  intros H; revert n; induction H; intros [|n]; simpl; constructor; auto.
Qed.

Lemma queue_safe_of_core g s st d :
  wf_grid g -> bfs_core g s st d ->
  queue_safe (rows g * cols g) (b_parent st) (b_queue st).
Proof.
  intros WF [SM TI Hshort Qlen Qcap Qhead Qtail Qnd Qpu Qdi].
  pose proof (count_if_le (fun i => negb (aget 0 (b_parent st) i =? -1)) (rows g * cols g)) as Hc.
  fold (count_set (b_parent st) (rows g * cols g)) in Hc.
  destruct WF as (? & ? & _).
  repeat split; auto; try lia; nia.
Qed.

Lemma stack_safe_of_core g s st d :
  dfs_core g s st d -> stack_safe (rows g * cols g) (d_stack st).
Proof.
  intros [SM TI Slen Scap Stop Snd Slive].
  repeat split; auto; lia.
Qed.

(** * The animation delay *)

(** C9, on the code: the integer entered for the delay is the [delay_ms]
    argument of the solver call, with no clamp in between (40 when no
    integer was entered).  Entering -5 hands -5 to the solver, below the
    range 0..200 that the prompt announces; for that value [sleep_ms]
    makes no call in its [usleep] branch and calls [Sleep] with
    4294967291 in its Windows branch.  Entering 5000000 hands over
    5000000, and [usleep] receives 705032704. *)
Theorem delay_reaches_solver_unclamped :
  (forall in_cols in_rows in_algo x,
      call_delay (main_solve_call (main_config in_cols in_rows in_algo (Some x))) = x) /\
  (forall in_cols in_rows in_algo,
      call_delay (main_solve_call (main_config in_cols in_rows in_algo None)) = 40) /\
  call_delay (main_solve_call (main_config None None None (Some (-5)))) = -5 /\
  ~ (0 <= call_delay (main_solve_call (main_config None None None (Some (-5))))) /\
  sleep_ms false (-5) = None /\
  sleep_ms true (-5) = Some 4294967291 /\
  call_delay (main_solve_call (main_config None None None (Some 5000000))) = 5000000 /\
  sleep_ms false 5000000 = Some 705032704.
Proof.
  split; [reflexivity|]. split; [reflexivity|]. split; [reflexivity|].
  split; [cbn; lia|]. repeat split; reflexivity.
Qed.

(** * Counted loops *)

(** The usual rule for a loop with invariant [I]: the fuel given by
    [for_range] covers every iteration when the step is positive. *)
Lemma for_loop_rule {S : Type} (I : Z -> S -> Prop) (hi step : Z) (body : Z -> S -> S) :
  0 < step ->
  (forall j t, j < hi -> I j t -> I (j + step) (body j t)) ->
  forall fuel i s,
    hi - i <= Z.of_nat fuel -> I i s ->
    exists j, hi <= j /\ I j (for_loop fuel i hi step body s).
Proof.
  intros Hstep Hbody. induction fuel as [|fuel IH]; intros i s Hf Hi; simpl.
  - exists i. split; auto. lia.
  - destruct (Z.ltb_spec i hi).
    + apply IH; auto. lia.
    + exists i. split; auto.
Qed.

Lemma for_range_rule {S : Type} (I : Z -> S -> Prop) (lo hi step : Z)
      (body : Z -> S -> S) (s : S) :
  0 < step ->
  (forall j t, j < hi -> I j t -> I (j + step) (body j t)) ->
  I lo s ->
  exists j, hi <= j /\ I j (for_range lo hi step body s).
Proof.
  intros Hstep Hbody Hlo. unfold for_range.
  apply (for_loop_rule I hi step body Hstep Hbody); auto. lia.
Qed.

(** * Reading and writing cells *)

Lemma grid_get_set g r c v r' c' :
  Z.of_nat (length (cells g)) = rows g * cols g ->
  inside g (RC r c) -> inside g (RC r' c') ->
  grid_get (grid_set g r c v) r' c'
  = if (r =? r') && (c =? c') then to_uchar v else grid_get g r' c'.
Proof.
  intros Hl Hin Hin'. unfold grid_get, grid_set; cbn [cells cols].
  pose proof (cidx_range g _ Hin) as Hi. unfold cidx in Hi; cbn [rc_r rc_c] in Hi.
  destruct (Z.eqb_spec r r') as [->|Hr]; cbn [andb].
  - destruct (Z.eqb_spec c c') as [->|Hc].
    + apply aget_aset_same. lia.
    + apply aget_aset_other. lia.
  - apply aget_aset_other. intros E.
    apply (cidx_inj g (RC r c) (RC r' c')) in E; auto. congruence.
Qed.

Lemma shape_refl g : shape g g.
Proof. repeat split. Qed.

Lemma shape_grid_set g g' r c v : shape g g' -> shape g (grid_set g' r c v).
Proof.
  intros (Hr & Hc & Hm & Hl). repeat split; auto.
  unfold grid_set; cbn [cells]. now rewrite length_aset.
Qed.

Lemma shape_inside g g' p : shape g g' -> inside g' p <-> inside g p.
Proof. intros (Hr & Hc & _). rewrite !inside_iff. now rewrite Hr, Hc. Qed.

Section Fill.
Variable g : Grid.
Hypothesis WF : wf_grid g.

Local Abbreviation R := (rows g).
Local Abbreviation W := (cols g).

Lemma shape_get_set g' r c v r' c' :
  shape g g' -> inside g (RC r c) -> inside g (RC r' c') ->
  grid_get (grid_set g' r c v) r' c'
  = if (r =? r') && (c =? c') then to_uchar v else grid_get g' r' c'.
Proof.
  intros Sh Hin Hin'. apply grid_get_set.
  - destruct Sh as (-> & -> & _ & ->). apply WF.
  - now apply (shape_inside g g').
  - now apply (shape_inside g g').
Qed.

(** After the first pair of loops every cell is a wall. *)
Lemma fill_walls g0 :
  shape g g0 ->
  let g1 := for_range 0 (rows g0) 1
              (fun r g' => for_range 0 (cols g0) 1 (fun c g'' => grid_set g'' r c 1) g') g0 in
  shape g g1 /\
  forall r c, inside g (RC r c) -> grid_get g1 r c = 1.
Proof.
  intros Sh0. cbv zeta.
  assert (Hr0 : rows g0 = R) by apply Sh0. assert (Hc0 : cols g0 = W) by apply Sh0.
  rewrite Hr0, Hc0.
  destruct (for_range_rule
              (fun r g' => 0 <= r /\ shape g g' /\
                           forall r' c', 0 <= r' < r -> inside g (RC r' c') ->
                                         grid_get g' r' c' = 1)
              0 R 1
              (fun r g' => for_range 0 W 1 (fun c g'' => grid_set g'' r c 1) g')
              g0) as (j & Hj & _ & Sh & Hall); try lia.
  - intros r t Hr (Hr0' & Sht & Hprev).
    destruct (for_range_rule
                (fun c g'' => 0 <= c /\ shape g g'' /\
                              (forall r' c', 0 <= r' < r -> inside g (RC r' c') ->
                                             grid_get g'' r' c' = 1) /\
                              (forall c', 0 <= c' < c -> inside g (RC r c') ->
                                          grid_get g'' r c' = 1))
                0 W 1 (fun c g'' => grid_set g'' r c 1) t)
      as (k & Hk & _ & Shk & Hprevk & Hrow); try lia.
    + intros c u Hc (Hc0' & Shu & Hp & Hrw).
      assert (Hin : inside g (RC r c)) by (apply inside_iff; simpl; lia).
      split; [lia|]. split; [now apply shape_grid_set|]. split.
      * intros r' c' Hr' Hin'. rewrite shape_get_set by auto.
        destruct (Z.eqb_spec r r'); [lia|]. cbn [andb]. now apply Hp.
      * intros c' Hc' Hin'. rewrite shape_get_set by auto.
        rewrite Z.eqb_refl. cbn [andb].
        destruct (Z.eqb_spec c c'); auto. apply Hrw; auto. lia.
    + split; [lia|]. split; [exact Sht|]. split; [exact Hprev|]. intros; lia.
    + split; [lia|]. split; auto.
      intros r' c' Hr' Hin'.
      destruct (Z.eq_dec r' r) as [->|Hne].
      * apply Hrow; auto. apply inside_iff in Hin'. simpl in Hin'. lia.
      * apply Hprevk; auto. lia.
  - split; [lia|]. split; [exact Sh0|]. intros; lia.
  - split; auto. intros r c Hin. apply Hall; auto.
    apply inside_iff in Hin. simpl in Hin. lia.
Qed.

(** After the second pair of loops the cells at odd coordinates are
    open and all the others are walls. *)
Lemma fill_rooms g1 :
  shape g g1 ->
  (forall r c, inside g (RC r c) -> grid_get g1 r c = 1) ->
  let g2 := for_range 1 (rows g) 2
              (fun r g' => for_range 1 (cols g) 2 (fun c g'' => grid_set g'' r c 0) g') g1 in
  shape g g2 /\
  forall r c, inside g (RC r c) ->
              grid_get g2 r c = if Z.odd r && Z.odd c then 0 else 1.
Proof.
  intros Sh1 H1. cbv zeta.
  destruct (for_range_rule
              (fun r g' => 1 <= r /\ Z.odd r = true /\ shape g g' /\
                           forall r' c', inside g (RC r' c') ->
                                         grid_get g' r' c'
                                         = if (r' <? r) && Z.odd r' && Z.odd c'
                                           then 0 else 1)
              1 R 2
              (fun r g' => for_range 1 W 2 (fun c g'' => grid_set g'' r c 0) g')
              g1) as (j & Hj & _ & _ & Sh & Hall); try lia.
  - intros r t Hr (Hr1 & Hodd & Sht & Hprev).
    destruct (for_range_rule
                (fun c g'' => 1 <= c /\ Z.odd c = true /\ shape g g'' /\
                              forall r' c', inside g (RC r' c') ->
                                            grid_get g'' r' c'
                                            = if Z.odd r' && Z.odd c' &&
                                                 ((r' <? r) || ((r' =? r) && (c' <? c)))
                                              then 0 else 1)
                1 W 2 (fun c g'' => grid_set g'' r c 0) t)
      as (k & Hk & _ & _ & Shk & Hcells); try lia.
    + intros c u Hc (Hc1 & Hoddc & Shu & Hp).
      assert (Hin : inside g (RC r c)) by (apply inside_iff; simpl; lia).
      split; [lia|]. split; [now rewrite Z.odd_add_mul_2 with (m := 1)|].
      split; [now apply shape_grid_set|].
      intros r' c' Hin'. rewrite shape_get_set by auto. rewrite Hp by auto.
      destruct (Z.eqb_spec r r') as [<-|Hr'], (Z.eqb_spec c c') as [<-|Hc']; cbn [andb].
      * rewrite Hodd, Hoddc, Z.eqb_refl. cbn [andb].
        destruct (Z.ltb_spec c (c + 2)); [|lia]. now rewrite orb_true_r.
      * rewrite Z.eqb_refl. cbn [andb].
        destruct (Z.ltb_spec c' c), (Z.ltb_spec c' (c + 2)); try lia; auto.
        (* c' = c + 1 *)
        assert (c' = c + 1) by lia. subst c'.
        replace (Z.odd (c + 1)) with false; [now rewrite andb_false_r|].
        rewrite Z.add_1_r, Z.odd_succ. symmetry.
        rewrite <- Z.negb_odd, Hoddc. reflexivity.
      * destruct (Z.eqb_spec r' r); [lia|]. reflexivity.
      * destruct (Z.eqb_spec r' r); [lia|]. reflexivity.
    + split; [lia|]. split; [reflexivity|]. split; auto.
      intros r' c' Hin'. rewrite Hprev by auto.
      apply inside_iff in Hin'. simpl in Hin'.
      destruct (Z.ltb_spec r' r), (Z.eqb_spec r' r), (Z.ltb_spec c' 1),
        (Z.odd r'), (Z.odd c') eqn:Eo; cbn [andb orb]; auto; try lia.
      (* c' < 1 and odd: impossible *)
      assert (c' = 0) by lia. subst c'. discriminate.
    + split; [lia|]. split; [now rewrite Z.odd_add_mul_2 with (m := 1)|].
      split; auto.
      intros r' c' Hin'. rewrite Hcells by auto.
      apply inside_iff in Hin'. simpl in Hin'.
      destruct (Z.ltb_spec r' r), (Z.eqb_spec r' r), (Z.ltb_spec r' (r + 2)),
        (Z.ltb_spec c' k), (Z.odd r') eqn:Eor, (Z.odd c');
        cbn [andb orb]; auto; try lia.
      (* r' = r + 1 is even *)
      assert (r' = r + 1) by lia. subst r'.
      rewrite Z.add_1_r, Z.odd_succ, <- Z.negb_odd, Hodd in Eor. discriminate.
  - split; [lia|]. split; [reflexivity|]. split; auto.
    intros r' c' Hin'. rewrite H1 by auto.
    apply inside_iff in Hin'. simpl in Hin'.
    destruct (Z.ltb_spec r' 1), (Z.odd r') eqn:Eo, (Z.odd c'); cbn [andb]; auto.
    assert (r' = 0) by lia. subst r'. discriminate.
  - split; auto. intros r c Hin. rewrite Hall by auto.
    apply inside_iff in Hin. simpl in Hin.
    destruct (Z.ltb_spec r j); [reflexivity|lia].
Qed.
End Fill.

(** * Rooms and the walls between them *)

Lemma odd_half x : Z.odd x = true -> exists a, x = 2 * a + 1.
Proof. intros H. apply Z.odd_spec in H. exact H. Qed.

Lemma is_room_odd p :
  is_room p = true -> exists a b, rc_r p = 2 * a + 1 /\ rc_c p = 2 * b + 1.
Proof.
  unfold is_room. intros H. apply andb_true_iff in H as [Hr Hc].
  apply odd_half in Hr as (a & Ha). apply odd_half in Hc as (b & Hb).
  now exists a, b.
Qed.

Lemma odd_is_room p a b :
  rc_r p = 2 * a + 1 -> rc_c p = 2 * b + 1 -> is_room p = true.
Proof.
  intros Hr Hc. unfold is_room. rewrite Hr, Hc.
  rewrite !(Z.add_comm _ 1), !Z.odd_add_mul_2. reflexivity.
Qed.

Lemma even_not_room p a :
  rc_r p = 2 * a \/ rc_c p = 2 * a -> is_room p = false.
Proof.
  unfold is_room. intros [H|H]; rewrite H, Z.odd_mul; simpl.
  - reflexivity.
  - apply andb_false_r.
Qed.

(** The four directions: two steps to the neighbouring room, one to the
    wall position in between. *)
Lemma dirs_spec p k :
  0 <= k < 4 ->
  exists dr dc,
    Z.abs dr + Z.abs dc = 1 /\
    room_nbr p k = RC (rc_r p + 2 * dr) (rc_c p + 2 * dc) /\
    wall_between p k = RC (rc_r p + dr) (rc_c p + dc).
Proof.
  intros Hk.
  assert (k = 0 \/ k = 1 \/ k = 2 \/ k = 3) as [-> | [-> | [-> | ->]]] by lia.
  - exists (-1), 0. repeat split.
  - exists 1, 0. repeat split.
  - exists 0, (-1). repeat split.
  - exists 0, 1. repeat split.
Qed.

Lemma room_nbr_is_room p k :
  0 <= k < 4 -> is_room p = true -> is_room (room_nbr p k) = true.
Proof.
  intros Hk Hp. destruct (dirs_spec p k Hk) as (dr & dc & _ & -> & _).
  apply is_room_odd in Hp as (a & b & Ha & Hb).
  apply (odd_is_room _ (a + dr) (b + dc)); cbn [rc_r rc_c]; lia.
Qed.

Lemma wall_between_not_room p k :
  0 <= k < 4 -> is_room p = true -> is_room (wall_between p k) = false.
Proof.
  intros Hk Hp. destruct (dirs_spec p k Hk) as (dr & dc & Hd & _ & ->).
  apply is_room_odd in Hp as (a & b & Ha & Hb).
  assert (dr = 1 \/ dr = -1 \/ dc = 1 \/ dc = -1) as [H | [H | [H | H]]] by lia.
  - apply (even_not_room _ (a + 1)). left. cbn [rc_r rc_c]. lia.
  - apply (even_not_room _ a). left. cbn [rc_r rc_c]. lia.
  - apply (even_not_room _ (b + 1)). right. cbn [rc_r rc_c]. lia.
  - apply (even_not_room _ b). right. cbn [rc_r rc_c]. lia.
Qed.

Lemma wall_between_adjacent p k :
  0 <= k < 4 ->
  adjacent p (wall_between p k) /\ adjacent (wall_between p k) (room_nbr p k).
Proof.
  intros Hk. destruct (dirs_spec p k Hk) as (dr & dc & Hd & -> & ->).
  unfold adjacent; cbn [rc_r rc_c]. lia.
Qed.

Lemma wall_between_inside g p k :
  0 <= k < 4 -> interior g p -> inside g (wall_between p k).
Proof.
  intros Hk (Hr & Hc). destruct (dirs_spec p k Hk) as (dr & dc & Hd & _ & ->).
  apply inside_iff; cbn [rc_r rc_c]. lia.
Qed.

Lemma interior_inside g p : interior g p -> inside g p.
Proof. intros (Hr & Hc). apply inside_iff. lia. Qed.

(** A wall position lies between exactly two rooms. *)
Lemma wall_between_unique p k p' k' :
  0 <= k < 4 -> 0 <= k' < 4 ->
  is_room p = true -> is_room p' = true ->
  wall_between p k = wall_between p' k' ->
  (p' = p /\ room_nbr p' k' = room_nbr p k) \/
  (p' = room_nbr p k /\ room_nbr p' k' = p).
Proof.
  intros Hk Hk' Hp Hp'.
  destruct (dirs_spec p k Hk) as (dr & dc & Hd & -> & ->).
  destruct (dirs_spec p' k' Hk') as (dr' & dc' & Hd' & -> & ->).
  apply is_room_odd in Hp as (a & b & Ha & Hb).
  apply is_room_odd in Hp' as (a' & b' & Ha' & Hb').
  destruct p as [r c], p' as [r' c']; cbn [rc_r rc_c] in *.
  intros E. inversion E.
  assert ((r' = r /\ c' = c /\ dr' = dr /\ dc' = dc) \/
          (r' = r + 2 * dr /\ c' = c + 2 * dc /\ dr' = - dr /\ dc' = - dc))
    as [(-> & -> & -> & ->) | (-> & -> & -> & ->)] by lia.
  - left. split; reflexivity.
  - right. split; [reflexivity|]. f_equal; lia.
Qed.

(** For odd dimensions, the cells at odd coordinates are the rooms. *)
Lemma inside_room g p :
  Z.odd (rows g) = true -> Z.odd (cols g) = true ->
  inside g p -> is_room p = true -> room g p.
Proof.
  intros Hr Hc Hin Hp. split; auto.
  apply inside_iff in Hin. apply odd_half in Hr as (R & HR), Hc as (C & HC).
  apply is_room_odd in Hp as (a & b & Ha & Hb).
  unfold interior. lia.
Qed.

Lemma half_odd x R : x = 2 * R + 1 -> 0 <= R -> Z.quot x 2 = R.
Proof.
  intros -> HR. rewrite Z.quot_div_nonneg by lia.
  symmetry. apply (Z.div_unique _ _ _ 1); lia.
Qed.

(** There are at most [(rows/2)*(cols/2)] rooms. *)
Lemma rooms_bound g (l : list CellRC) :
  Z.odd (rows g) = true -> Z.odd (cols g) = true -> 0 < rows g -> 0 < cols g ->
  NoDup l -> (forall c, In c l -> room g c) ->
  Z.of_nat (length l) <= Z.quot (rows g) 2 * Z.quot (cols g) 2.
Proof.
  intros Hr Hc Hrp Hcp Hnd Hl.
  apply odd_half in Hr as (R & HR), Hc as (C & HC).
  rewrite (half_odd _ R), (half_odd _ C) by lia.
  set (h := fun c : CellRC => (rc_r c - 1) / 2 * C + (rc_c c - 1) / 2).
  assert (Hh : forall c, In c l ->
                         exists a b, rc_r c = 2 * a + 1 /\ rc_c c = 2 * b + 1 /\
                                     0 <= a < R /\ 0 <= b < C /\ h c = a * C + b).
  { intros c Hc. destruct (Hl c Hc) as ((Hi1 & Hi2) & Hroom).
    apply is_room_odd in Hroom as (a & b & Ha & Hb).
    exists a, b. repeat split; auto; try lia.
    unfold h. rewrite Ha, Hb.
    replace (2 * a + 1 - 1) with (a * 2) by lia.
    replace (2 * b + 1 - 1) with (b * 2) by lia.
    now rewrite !Z.div_mul by lia. }
  rewrite <- (length_map h).
  apply NoDup_range_length.
  - nia.
  - apply NoDup_map_inj; auto.
    intros x y Hx Hy E.
    destruct (Hh x Hx) as (a & b & Ha & Hb & Har & Hbr & Ex).
    destruct (Hh y Hy) as (a' & b' & Ha' & Hb' & Har' & Hbr' & Ey).
    rewrite Ex, Ey in E.
    assert (a = a') by nia. subst a'. assert (b = b') by nia. subst b'.
    destruct x, y; simpl in *; congruence.
  - intros i Hi. apply in_map_iff in Hi as (c & <- & Hc).
    destruct (Hh c Hc) as (a & b & _ & _ & Har & Hbr & ->). nia.
Qed.

(** * Walks in a maze with more open cells *)

Lemma walk_mono g g' s k p :
  (forall q, cell_open g q -> cell_open g' q) ->
  walk g s k p -> walk g' s k p.
Proof.
  intros H Hw. induction Hw.
  - constructor.
  - econstructor; eauto.
Qed.

Lemma cell_open_grid_set g r c q :
  cell_open g q -> cell_open (grid_set g r c 0) q.
Proof.
  intros (Hin & Hop). split; [exact Hin|].
  unfold grid_get, grid_set in *; cbn [cells cols].
  set (i := r * cols g + c). set (j := rc_r q * cols g + rc_c q) in *.
  destruct (Z.eq_dec i j) as [E|E]; [|now rewrite aget_aset_other].
  destruct (Z.ltb_spec i 0); [now rewrite aset_outside by lia|].
  destruct (Z.ltb_spec i (Z.of_nat (length (cells g)))); [|now rewrite aset_outside by lia].
  rewrite <- E. apply aget_aset_same. lia.
Qed.

(** * Maze generation: the initial state *)

Lemma gen_fill_spec g :
  wf_grid g ->
  shape g (gen_fill g) /\
  forall r c, inside g (RC r c) ->
              grid_get (gen_fill g) r c = if Z.odd r && Z.odd c then 0 else 1.
Proof.
  intros WF. unfold gen_fill.
  destruct (fill_walls g WF g (shape_refl g)) as (Sh1 & H1).
  exact (fill_rooms g WF _ Sh1 H1).
Qed.

Lemma grid_get_cell_of g g' i :
  cols g' = cols g ->
  grid_get g' (rc_r (cell_of (cols g) i)) (rc_c (cell_of (cols g) i)) = aget 0 (cells g') i.
Proof.
  intros Hc. unfold grid_get. rewrite Hc.
  change (rc_r (cell_of (cols g) i) * cols g + rc_c (cell_of (cols g) i))
    with (cidx (cols g) (cell_of (cols g) i)).
  now rewrite cidx_cell_of.
Qed.

Lemma count_visited_flip vis n i :
  Z.of_nat (length vis) = n -> 0 <= i < n -> aget 0 vis i = 0 ->
  count_visited (aset vis i 1) n = S (count_visited vis n).
Proof.
  intros Hl Hi H0. unfold count_visited, count_if.
  apply (filter_length_flip _ _ _ i).
  - apply NoDup_idxs.
  - now apply in_idxs.
  - now rewrite H0.
  - rewrite aget_aset_same by lia. reflexivity.
  - intros j _ Hj. now rewrite aget_aset_other by auto.
Qed.

Lemma count_unvisited_flip vis n i :
  Z.of_nat (length vis) = n -> 0 <= i < n -> aget 0 vis i = 0 ->
  count_if (fun j => aget 0 vis j =? 0) n
  = S (count_if (fun j => aget 0 (aset vis i 1) j =? 0) n).
Proof.
  intros Hl Hi H0. unfold count_if.
  apply (filter_length_flip _ _ _ i).
  - apply NoDup_idxs.
  - now apply in_idxs.
  - rewrite aget_aset_same by lia. reflexivity.
  - now rewrite H0.
  - intros j _ Hj. now rewrite aget_aset_other by auto.
Qed.

Section GenInit.
Variable g : Grid.
Hypothesis WF : wf_grid g.
Hypothesis Hrodd : Z.odd (rows g) = true.
Hypothesis Hcodd : Z.odd (cols g) = true.
Hypothesis Hr3 : 3 <= rows g.
Hypothesis Hc3 : 3 <= cols g.

Local Abbreviation N := (rows g * cols g).
Local Abbreviation W := (cols g).

Lemma maxcells_pos : 1 <= Z.quot (rows g) 2 * Z.quot (cols g) 2.
Proof.
  destruct (odd_half _ Hrodd) as (R & HR), (odd_half _ Hcodd) as (C & HC).
  rewrite (half_odd _ R), (half_odd _ C) by lia. nia.
Qed.

Lemma first_room : room g (RC 1 1).
Proof. split; [split; simpl; lia|reflexivity]. Qed.

Lemma gen_init_inv rng :
  let st := gen_init g rng in
  gen_inv g st /\ gen_measure g st < 2 * N /\ gn_rng st = rng.
Proof.
  destruct (gen_fill_spec g WF) as (Sh & Hfill).
  pose proof maxcells_pos as Hmax.
  pose proof first_room as Hroom.
  pose proof (interior_inside g _ (proj1 Hroom)) as Hin11.
  pose proof (cidx_range g _ Hin11) as Hi11.
  destruct WF as (Hr & Hc & Hint & Hcl & Hml).
  unfold gen_init.
  change (1 * W + 1) with (cidx W (RC 1 1)).
  set (i0 := cidx W (RC 1 1)) in *.
  set (vis := aset (repeat 0 (Z.to_nat N)) i0 1).
  set (stack := aset (repeat (RC 0 0) (Z.to_nat (Z.quot (rows g) 2 * Z.quot W 2))) 0 (RC 1 1)).
  assert (Hvl : Z.of_nat (length vis) = N).
  { unfold vis. rewrite length_aset, repeat_length. lia. }
  assert (Hv0 : aget 0 vis i0 = 1).
  { unfold vis. apply aget_aset_same. rewrite repeat_length. lia. }
  assert (Hvo : forall i, 0 <= i < N -> i <> i0 -> aget 0 vis i = 0).
  { intros i Hi Hne. unfold vis. rewrite aget_aset_other by auto.
    apply aget_repeat. lia. }
  assert (Hvis : forall i, 0 <= i < N -> visited vis i -> i = i0).
  { intros i Hi Hv. destruct (Z.eq_dec i i0); auto.
    exfalso. apply Hv. now apply Hvo. }
  assert (Hlive : firstn (Z.to_nat 1) stack = [RC 1 1]).
  { change stack
      with (upd (repeat (RC 0 0) (Z.to_nat (Z.quot (rows g) 2 * Z.quot W 2))) 0 (RC 1 1)).
    change (Z.to_nat 1) with 1%nat.
    rewrite firstn_upd_snoc; [reflexivity|]. rewrite repeat_length. lia. }
  assert (Hc11 : cell_of W i0 = RC 1 1) by (apply cell_of_inside; auto).
  split; [|split; [|reflexivity]].
  - constructor; cbn [gn_grid gn_vis gn_stack gn_top]; unfold gn_live;
      cbn [gn_grid gn_vis gn_stack gn_top]; fold vis stack; auto.
    + intros i Hi Hv. rewrite (Hvis i Hi Hv), Hc11. exact Hroom.
    + intros p Hp Hroomp. destruct p as [r c]. cbn [rc_r rc_c].
      rewrite Hfill by auto.
      unfold is_room in Hroomp. cbn [rc_r rc_c] in Hroomp. now rewrite Hroomp.
    + intros p k (Hint' & Hrp) Hk _ Hopen. exfalso.
      pose proof (wall_between_inside g p k Hk Hint') as Hwin.
      pose proof (wall_between_not_room p k Hk Hrp) as Hwr.
      destruct (wall_between p k) as [wr wc]. cbn [rc_r rc_c] in Hopen.
      rewrite Hfill in Hopen by auto.
      unfold is_room in Hwr. cbn [rc_r rc_c] in Hwr. rewrite Hwr in Hopen. discriminate.
    + unfold vis. rewrite count_visited_flip;
        [|rewrite repeat_length; lia|lia|apply aget_repeat; lia].
      f_equal. unfold open_walls, count_visited, count_if.
      assert (Hcg : cols (gen_fill g) = W) by apply Sh.
      assert (Hrg : rows (gen_fill g) = rows g) by apply Sh.
      rewrite Hcg, Hrg.
      rewrite (filter_ext_in _ (fun _ => false)), filter_false.
      * rewrite (filter_ext_in _ (fun _ => false)), filter_false; [reflexivity|].
        intros i Hi. apply in_idxs in Hi. rewrite aget_repeat by lia. reflexivity.
      * intros i Hi. apply in_idxs in Hi.
        rewrite <- (grid_get_cell_of g (gen_fill g) i Hcg).
        pose proof (cell_of_range g i Hc Hi) as Hci.
        destruct (cell_of W i) as [r c] eqn:Ec. cbn [rc_r rc_c].
        rewrite Hfill by auto. unfold is_room. cbn [rc_r rc_c].
        destruct (Z.odd r && Z.odd c); reflexivity.
    + intros i Hi Hv. exists O. rewrite (Hvis i Hi Hv), Hc11. constructor.
    + unfold stack. rewrite length_aset, repeat_length. lia.
    + lia.
    + rewrite Hlive. repeat constructor. intros [].
    + rewrite Hlive. intros c [<-|[]]. split; auto.
      unfold visited. fold i0. rewrite Hv0. lia.
    + rewrite Hlive. intros i Hi Hv. left. left.
      now rewrite (Hvis i Hi Hv), Hc11.
    + unfold visited. fold i0. rewrite Hv0. lia.
  - unfold gen_measure; cbn [gn_vis gn_top]; fold vis.
    pose proof (count_unvisited_flip (repeat 0 (Z.to_nat N)) N i0) as Hflip.
    rewrite repeat_length in Hflip.
    specialize (Hflip ltac:(lia) Hi11 ltac:(apply aget_repeat; lia)).
    fold vis in Hflip.
    pose proof (count_if_le (fun j => aget 0 (repeat 0 (Z.to_nat N)) j =? 0) N).
    lia.
Qed.
End GenInit.

(** * Maze generation: one iteration of the carving loop *)

Lemma gen_choices_spec g g' vis r c k :
  shape g g' ->
  In k (gen_choices g' vis r c) <->
  0 <= k < 4 /\ interior g (room_nbr (RC r c) k) /\
  aget 0 vis (cidx (cols g) (room_nbr (RC r c) k)) = 0.
Proof.
  intros (Hr & Hc & _). unfold gen_choices. rewrite filter_In.
  unfold interior, room_nbr, cidx; cbn [rc_r rc_c]. rewrite Hr, Hc.
  rewrite !andb_true_iff, Z.eqb_eq, !Z.gtb_lt, !Z.ltb_lt.
  simpl In. split.
  - intros (Hk & Hb). split; [lia|]. tauto.
  - intros (Hk & Hb). split; [lia|]. tauto.
Qed.

Lemma visited_aset vis i j :
  0 <= i < Z.of_nat (length vis) -> visited vis j -> visited (aset vis i 1) j.
Proof.
  unfold visited. intros Hi Hj.
  destruct (Z.eq_dec i j) as [<-|Hne].
  - rewrite aget_aset_same by auto. lia.
  - now rewrite aget_aset_other.
Qed.

Section GenStep.
Variable rand : nat -> Z.
Hypothesis rand_nonneg : forall n, 0 <= rand n.
Variable g : Grid.
Hypothesis WF : wf_grid g.
Hypothesis Hrodd : Z.odd (rows g) = true.
Hypothesis Hcodd : Z.odd (cols g) = true.

Local Abbreviation N := (rows g * cols g).
Local Abbreviation W := (cols g).

Lemma gen_top_cell st :
  gen_inv g st -> 0 < gn_top st ->
  let cur := aget (RC 0 0) (gn_stack st) (gn_top st - 1) in
  gn_live st = firstn (Z.to_nat (gn_top st - 1)) (gn_stack st) ++ [cur].
Proof.
  intros I Ht. pose proof (gi_top _ _ I) as Htop. pose proof (gi_stack_len _ _ I) as Hsl.
  unfold gn_live, aget. destruct (Z.ltb_spec (gn_top st - 1) 0); [lia|].
  replace (Z.to_nat (gn_top st)) with (S (Z.to_nat (gn_top st - 1))) by lia.
  apply firstn_succ_nth. lia.
Qed.

(** Backtracking: no unvisited room next to the top of the stack. *)
Lemma gen_pop_inv st :
  gen_inv g st -> 0 < gn_top st ->
  (let cur := aget (RC 0 0) (gn_stack st) (gn_top st - 1) in
   gen_choices (gn_grid st) (gn_vis st) (rc_r cur) (rc_c cur) = []) ->
  gen_inv g (mkGen (gn_grid st) (gn_vis st) (gn_stack st) (gn_top st - 1) (gn_rng st)).
Proof.
  intros I Ht Hch. pose proof (gen_top_cell st I Ht) as Hlive. cbv zeta in Hlive, Hch.
  set (cur := aget (RC 0 0) (gn_stack st) (gn_top st - 1)) in *.
  destruct I as [Sh Vl Vr Ro Wa Cn Re Sl Tp Nd Lv Dn Fi].
  constructor; cbn [gn_grid gn_vis gn_stack gn_top]; unfold gn_live;
    cbn [gn_grid gn_vis gn_stack gn_top]; auto.
  - lia.
  - rewrite Hlive in Nd. apply NoDup_remove_1 in Nd. now rewrite app_nil_r in Nd.
  - intros c Hc. apply Lv. rewrite Hlive. apply in_or_app. now left.
  - intros i Hi Hv. destruct (Dn i Hi Hv) as [Hin|Hall]; auto.
    rewrite Hlive in Hin. apply in_app_or in Hin as [Hin|[E|[]]]; auto.
    right. intros k Hk Hint.
    destruct (Z.eq_dec (aget 0 (gn_vis st)
                             (cidx W (room_nbr (cell_of W i) k))) 0) as [E0|E0]; auto.
    exfalso.
    assert (Hk' : In k (gen_choices (gn_grid st) (gn_vis st) (rc_r cur) (rc_c cur))).
    { apply (gen_choices_spec g); auto.
      replace (RC (rc_r cur) (rc_c cur)) with cur by (now destruct cur).
      rewrite E. auto. }
    rewrite Hch in Hk'. destruct Hk'.
Qed.

(** Carving towards the unvisited room in direction [pick]. *)
Lemma gen_carve_inv st pick :
  gen_inv g st -> 0 < gn_top st ->
  let cur := aget (RC 0 0) (gn_stack st) (gn_top st - 1) in
  In pick (gen_choices (gn_grid st) (gn_vis st) (rc_r cur) (rc_c cur)) ->
  let nb := room_nbr cur pick in
  let w := wall_between cur pick in
  let st' := mkGen (grid_set (gn_grid st) (rc_r w) (rc_c w) 0)
                   (aset (gn_vis st) (cidx W nb) 1)
                   (aset (gn_stack st) (gn_top st) nb)
                   (gn_top st + 1) (S (gn_rng st)) in
  gen_inv g st' /\ gen_measure g st' < gen_measure g st.
Proof.
  intros I Ht cur Hpick nb w st'.
  pose proof (gen_top_cell st I Ht) as Hlive. cbv zeta in Hlive. fold cur in Hlive.
  destruct I as [Sh Vl Vr Ro Wa Cn Re Sl Tp Nd Lv Dn Fi].
  assert (Hcols : cols (gn_grid st) = W) by apply Sh.
  assert (Hrows : rows (gn_grid st) = rows g) by apply Sh.
  assert (Hcl : Z.of_nat (length (cells (gn_grid st))) = N).
  { destruct Sh as (_ & _ & _ & ->). apply WF. }
  apply (gen_choices_spec g) in Hpick; auto.
  replace (RC (rc_r cur) (rc_c cur)) with cur in Hpick by (now destruct cur).
  fold nb in Hpick. destruct Hpick as (Hk & Hnbint & Hnbun).
  assert (Hcurin : In cur (gn_live st)) by (rewrite Hlive; apply in_or_app; right; now left).
  destruct (Lv cur Hcurin) as ((Hcint & Hcroom) & Hcvis).
  assert (Hnbroom : is_room nb = true) by (now apply room_nbr_is_room).
  assert (Hwroom : is_room w = false) by (now apply wall_between_not_room).
  assert (Hwin : inside g w) by (now apply wall_between_inside).
  destruct (wall_between_adjacent cur pick Hk) as (Hadj1 & Hadj2). fold w nb in Hadj1, Hadj2.
  pose proof (interior_inside g _ Hnbint) as Hnbin.
  pose proof (interior_inside g _ Hcint) as Hcin.
  pose proof (cidx_range g _ Hnbin) as Hnbi.
  pose proof (cidx_range g _ Hwin) as Hwi.
  pose proof (cidx_range g _ Hcin) as Hci.
  assert (Hwclosed : grid_get (gn_grid st) (rc_r w) (rc_c w) <> 0).
  { intros E. destruct (Wa cur pick (conj Hcint Hcroom) Hk Hnbint E) as (_ & Hv).
    apply Hv. exact Hnbun. }
  assert (Hmono : forall j, visited (gn_vis st) j ->
                            visited (aset (gn_vis st) (cidx W nb) 1) j).
  { intros j. apply visited_aset. lia. }
  assert (Hnbvis : visited (aset (gn_vis st) (cidx W nb) 1) (cidx W nb)).
  { unfold visited. rewrite aget_aset_same by lia. lia. }
  assert (Hold : forall j, j <> cidx W nb ->
                           visited (aset (gn_vis st) (cidx W nb) 1) j ->
                           visited (gn_vis st) j).
  { intros j Hj. unfold visited. now rewrite aget_aset_other by auto. }
  assert (Hget : forall p, inside g p ->
                 grid_get (grid_set (gn_grid st) (rc_r w) (rc_c w) 0) (rc_r p) (rc_c p)
                 = if (rc_r w =? rc_r p) && (rc_c w =? rc_c p) then 0
                   else grid_get (gn_grid st) (rc_r p) (rc_c p)).
  { intros p Hp. apply (shape_get_set g WF); auto. }
  assert (Hnotin : ~ In nb (gn_live st)).
  { intros Hin. apply Lv in Hin as (_ & Hv). apply Hv. exact Hnbun. }
  assert (Hnd' : NoDup (gn_live st ++ [nb])) by (now apply NoDup_snoc).
  assert (Hrooms' : forall c, In c (gn_live st ++ [nb]) -> room g c).
  { intros c Hc. apply in_app_or in Hc as [Hc|[<-|[]]].
    - now apply Lv.
    - split; auto. }
  assert (Hlen : Z.of_nat (length (gn_live st)) = gn_top st).
  { unfold gn_live. rewrite length_firstn. lia. }
  assert (Htop' : gn_top st + 1 <= Z.quot (rows g) 2 * Z.quot W 2).
  { pose proof (rooms_bound g _ Hrodd Hcodd ltac:(apply WF) ltac:(apply WF) Hnd' Hrooms') as Hb.
    rewrite length_app in Hb. simpl length in Hb. lia. }
  assert (Hlive' : firstn (Z.to_nat (gn_top st + 1)) (aset (gn_stack st) (gn_top st) nb)
                   = gn_live st ++ [nb]).
  { unfold aset, gn_live. destruct (Z.ltb_spec (gn_top st) 0); [lia|].
    replace (Z.to_nat (gn_top st + 1)) with (S (Z.to_nat (gn_top st))) by lia.
    apply firstn_upd_snoc. lia. }
  assert (Hopen' : forall q, cell_open (gn_grid st) q ->
                             cell_open (grid_set (gn_grid st) (rc_r w) (rc_c w) 0) q).
  { intros q. apply cell_open_grid_set. }
  split.
  - constructor; unfold st'; cbn [gn_grid gn_vis gn_stack gn_top]; unfold gn_live;
      cbn [gn_grid gn_vis gn_stack gn_top]; auto.
    + now apply shape_grid_set.
    + now rewrite length_aset.
    + intros i Hi Hv. destruct (Z.eq_dec i (cidx W nb)) as [->|Hne].
      * rewrite cell_of_inside by auto. split; auto.
      * apply Vr; auto.
    + intros p Hp Hroom. rewrite Hget by auto.
      destruct (_ && _); auto.
    + intros p k (Hpint & Hproom) Hk' Hnint Hopen.
      pose proof (wall_between_inside g p k Hk' Hpint) as Hwpin.
      rewrite Hget in Hopen by auto.
      destruct ((rc_r w =? rc_r (wall_between p k)) && (rc_c w =? rc_c (wall_between p k)))
        eqn:Ew.
      * apply andb_true_iff in Ew as (E1 & E2). apply Z.eqb_eq in E1, E2.
        assert (Ew : wall_between cur pick = wall_between p k).
        { fold w. destruct w, (wall_between p k); simpl in *; congruence. }
        destruct (wall_between_unique cur pick p k Hk Hk' Hcroom Hproom Ew)
          as [(-> & ->) | (-> & ->)]; fold nb; auto.
      * destruct (Wa p k (conj Hpint Hproom) Hk' Hnint Hopen) as (Hv1 & Hv2). auto.
    + rewrite count_visited_flip by (auto; lia). rewrite <- Cn. f_equal.
      unfold open_walls. cbn [rows cols cells grid_set]. rewrite Hrows, Hcols.
      fold (cidx W w).
      apply (filter_length_flip _ _ _ (cidx W w)).
      * apply NoDup_idxs.
      * now apply in_idxs.
      * apply andb_false_iff. right. apply Z.eqb_neq.
        intros E. apply Hwclosed. unfold grid_get. rewrite Hcols. exact E.
      * rewrite cell_of_inside by auto. rewrite Hwroom. cbn [negb andb].
        rewrite aget_aset_same by lia. reflexivity.
      * intros j _ Hj. now rewrite aget_aset_other by auto.
    + intros i Hi Hv. destruct (Z.eq_dec i (cidx W nb)) as [->|Hne].
      * rewrite cell_of_inside by auto.
        destruct (Re (cidx W cur) Hci Hcvis) as (k & Hw).
        rewrite cell_of_inside in Hw by auto.
        exists (S (S k)).
        apply (walk_step _ _ _ w); auto.
        -- apply (walk_step _ _ _ cur); auto.
           ++ now apply (walk_mono (gn_grid st)).
           ++ split.
              ** apply (shape_inside g); [now apply shape_grid_set|exact Hwin].
              ** rewrite Hget by auto. now rewrite !Z.eqb_refl.
        -- split.
           ++ apply (shape_inside g); [now apply shape_grid_set|exact Hnbin].
           ++ rewrite Hget by auto. destruct (_ && _); auto.
      * destruct (Re i Hi (Hold i Hne Hv)) as (k & Hw). exists k.
        now apply (walk_mono (gn_grid st)).
    + now rewrite length_aset.
    + lia.
    + rewrite Hlive'. exact Hnd'.
    + rewrite Hlive'. intros c Hc. split; [now apply Hrooms'|].
      apply in_app_or in Hc as [Hc|[<-|[]]]; auto.
      apply Hmono. now apply Lv.
    + rewrite Hlive'. intros i Hi Hv. destruct (Z.eq_dec i (cidx W nb)) as [->|Hne].
      * left. apply in_or_app. right. left. symmetry. now apply cell_of_inside.
      * destruct (Dn i Hi (Hold i Hne Hv)) as [Hin|Hall].
        -- left. apply in_or_app. now left.
        -- right. intros k Hk' Hint. apply Hmono. now apply Hall.
  - unfold gen_measure, st'; cbn [gn_vis gn_top].
    rewrite (count_unvisited_flip (gn_vis st) N (cidx W nb)) by auto. lia.
Qed.

Lemma gen_body_inv st :
  gen_inv g st -> 0 < gn_top st ->
  gen_inv g (gen_body rand st) /\ gen_measure g (gen_body rand st) < gen_measure g st.
Proof.
  intros I Ht. unfold gen_body.
  set (cur := aget (RC 0 0) (gn_stack st) (gn_top st - 1)).
  destruct (gen_choices (gn_grid st) (gn_vis st) (rc_r cur) (rc_c cur))
    as [|k0 ks] eqn:Ech.
  - change (Z.of_nat (length (@nil Z)) >? 0) with false. cbv iota. split.
    + now apply gen_pop_inv.
    + unfold gen_measure; cbn [gn_vis gn_top]. lia.
  - set (choices := k0 :: ks) in *.
    set (ch := Z.of_nat (length choices)).
    assert (Hch : 0 < ch) by (unfold ch, choices; simpl length; lia).
    destruct (Z.gtb_spec ch 0); [|lia].
    set (pick := aget 0 choices (Z.rem (rand (gn_rng st)) ch)).
    assert (Hpick : In pick choices).
    { apply aget_in. apply Z.rem_bound_pos; auto. }
    rewrite <- Ech in Hpick.
    pose proof (gen_carve_inv st pick I Ht Hpick) as Hcarve. cbv zeta in Hcarve.
    assert (Hcols : cols (gn_grid st) = W) by apply (gi_shape _ _ I).
    rewrite Hcols. exact Hcarve.
Qed.
End GenStep.

(** * Maze generation: the carving loop *)

Section GenRun.
Variable rand : nat -> Z.
Hypothesis rand_nonneg : forall n, 0 <= rand n.
Variable g : Grid.
Hypothesis WF : wf_grid g.
Hypothesis Hrodd : Z.odd (rows g) = true.
Hypothesis Hcodd : Z.odd (cols g) = true.
Hypothesis Hr3 : 3 <= rows g.
Hypothesis Hc3 : 3 <= cols g.

Local Abbreviation N := (rows g * cols g).
Local Abbreviation W := (cols g).

Lemma gen_run_inv n :
  forall st, gen_inv g st -> gen_inv g (gen_run rand n st).
Proof.
  induction n as [|n IH]; intros st I; simpl; auto.
  destruct (Z.gtb_spec (gn_top st) 0); auto.
  apply IH. now apply gen_body_inv.
Qed.

(** Every iteration visits a new room or pops the stack. *)
Lemma gen_run_done n :
  forall st, gen_inv g st -> gen_measure g st < Z.of_nat n ->
             gn_top (gen_run rand n st) <= 0.
Proof.
  induction n as [|n IH]; intros st I Hm.
  - pose proof (gi_top _ _ I). unfold gen_measure in Hm. lia.
  - simpl. destruct (Z.gtb_spec (gn_top st) 0); [|lia].
    destruct (gen_body_inv rand rand_nonneg g WF Hrodd Hcodd st I) as (I' & Hm'); [lia|].
    apply IH; auto. lia.
Qed.

(** Once the stack is empty every room next to a visited room is
    visited, so all of them are. *)
Lemma all_rooms_visited st :
  gen_inv g st -> gn_top st <= 0 ->
  forall p, room g p -> visited (gn_vis st) (cidx W p).
Proof.
  intros I Ht.
  assert (Hnext : forall p k, room g p -> visited (gn_vis st) (cidx W p) ->
                              0 <= k < 4 -> interior g (room_nbr p k) ->
                              visited (gn_vis st) (cidx W (room_nbr p k))).
  { intros p k (Hint & Hroom) Hv Hk Hn.
    pose proof (interior_inside g _ Hint) as Hin.
    destruct (gi_done _ _ I (cidx W p) (cidx_range g _ Hin) Hv) as [Hl|Hall].
    - exfalso. unfold gn_live in Hl.
      replace (Z.to_nat (gn_top st)) with O in Hl by lia. destruct Hl.
    - rewrite cell_of_inside in Hall by auto. now apply Hall. }
  assert (Hcol : forall a : nat, 2 * Z.of_nat a + 1 < rows g - 1 ->
                                 visited (gn_vis st) (cidx W (RC (2 * Z.of_nat a + 1) 1))).
  { induction a as [|a IH]; intros Ha.
    - exact (gi_first _ _ I).
    - assert (Hp : room g (RC (2 * Z.of_nat a + 1) 1)).
      { split; [split; cbn [rc_r rc_c]; lia|].
        apply (odd_is_room _ (Z.of_nat a) 0); cbn [rc_r rc_c]; lia. }
      replace (RC (2 * Z.of_nat (S a) + 1) 1)
        with (room_nbr (RC (2 * Z.of_nat a + 1) 1) 1)
        by (unfold room_nbr; cbn [rc_r rc_c]; change (aget (0, 0) dirs 1) with (2, 0);
            cbn [fst snd]; f_equal; lia).
      apply Hnext; auto; try lia.
      + apply IH. lia.
      + unfold room_nbr, interior; cbn [rc_r rc_c].
        change (aget (0, 0) dirs 1) with (2, 0). cbn [fst snd]. lia. }
  assert (Hrow : forall (a : nat) (b : nat),
             2 * Z.of_nat a + 1 < rows g - 1 -> 2 * Z.of_nat b + 1 < cols g - 1 ->
             visited (gn_vis st) (cidx W (RC (2 * Z.of_nat a + 1) (2 * Z.of_nat b + 1)))).
  { intros a. induction b as [|b IH]; intros Ha Hb.
    - now apply Hcol.
    - assert (Hp : room g (RC (2 * Z.of_nat a + 1) (2 * Z.of_nat b + 1))).
      { split; [split; cbn [rc_r rc_c]; lia|].
        apply (odd_is_room _ (Z.of_nat a) (Z.of_nat b)); cbn [rc_r rc_c]; lia. }
      replace (RC (2 * Z.of_nat a + 1) (2 * Z.of_nat (S b) + 1))
        with (room_nbr (RC (2 * Z.of_nat a + 1) (2 * Z.of_nat b + 1)) 3)
        by (unfold room_nbr; cbn [rc_r rc_c]; change (aget (0, 0) dirs 3) with (0, 2);
            cbn [fst snd]; f_equal; lia).
      apply Hnext; auto; try lia.
      + apply IH; lia.
      + unfold room_nbr, interior; cbn [rc_r rc_c].
        change (aget (0, 0) dirs 3) with (0, 2). cbn [fst snd]. lia. }
  intros p ((Hi1 & Hi2) & Hroom).
  apply is_room_odd in Hroom as (a & b & Ha & Hb).
  destruct p as [r c]; cbn [rc_r rc_c] in *. subst r c.
  replace a with (Z.of_nat (Z.to_nat a)) by lia.
  replace b with (Z.of_nat (Z.to_nat b)) by lia.
  apply Hrow; lia.
Qed.
End GenRun.

(** C3: on a grid with odd [rows] and [cols], each at least 11,
    [generate_maze] returns; in the maze it leaves, every room cell is open
    and is reached from (1,1) over open cells, and the open cells at wall
    positions are one fewer than the room cells. *)
Theorem generate_maze_spanning_tree (rand : nat -> Z) (g : Grid) (rng : nat) :
  (forall n, 0 <= rand n) ->
  wf_grid g ->
  Z.odd (rows g) = true -> Z.odd (cols g) = true ->
  11 <= rows g -> 11 <= cols g ->
  exists g' rng',
    generate_maze rand (Z.to_nat (2 * (rows g * cols g))) g rng = Some (g', rng') /\
    shape g g' /\
    (forall p, inside g p -> is_room p = true ->
               cell_open g' p /\ exists k, walk g' (RC 1 1) k p) /\
    S (length (open_walls g')) = length (room_cells g').
Proof.
  intros Hrand WF Hro Hco Hr Hc.
  destruct (gen_init_inv g WF Hro Hco ltac:(lia) ltac:(lia) rng) as (I0 & Hm0 & _).
  unfold generate_maze.
  set (st := gen_run rand _ _).
  assert (I : gen_inv g st) by (apply gen_run_inv; auto).
  assert (Ht : gn_top st <= 0).
  { apply (gen_run_done rand Hrand g); auto. lia. }
  destruct (Z.gtb_spec (gn_top st) 0); [lia|].
  exists (gn_grid st), (gn_rng st). split; [reflexivity|].
  pose proof (gi_shape _ _ I) as Sh.
  assert (Hall : forall p, room g p -> visited (gn_vis st) (cidx (cols g) p)).
  { apply all_rooms_visited; auto; lia. }
  split; [exact Sh|]. split.
  - intros p Hp Hroom. split.
    + split.
      * now apply (shape_inside g).
      * now apply (gi_rooms_open _ _ I).
    + destruct (gi_reach _ _ I (cidx (cols g) p) (cidx_range g _ Hp)) as (k & Hw).
      * apply Hall. now apply inside_room.
      * exists k. now rewrite cell_of_inside in Hw.
  - rewrite (gi_count _ _ I). unfold count_visited, count_if, room_cells.
    assert (Hcg : cols (gn_grid st) = cols g) by apply Sh.
    assert (Hrg : rows (gn_grid st) = rows g) by apply Sh.
    rewrite Hcg, Hrg. f_equal. apply filter_ext_in.
    intros i Hi. apply in_idxs in Hi.
    destruct (is_room (cell_of (cols g) i)) eqn:Eroom.
    + assert (Hv : visited (gn_vis st) (cidx (cols g) (cell_of (cols g) i))).
      { apply Hall. apply inside_room; auto. apply cell_of_range; auto. apply WF. }
      rewrite cidx_cell_of in Hv. unfold visited in Hv.
      apply negb_true_iff. now apply Z.eqb_neq.
    + apply negb_false_iff. apply Z.eqb_eq.
      destruct (Z.eq_dec (aget 0 (gn_vis st) i) 0) as [E|E]; auto.
      destruct (gi_vis_room _ _ I i Hi E) as (_ & Hroom). congruence.
Qed.

(** * Marks stay set *)

Lemma mark_or_keeps g r c v n i :
  0 <= n < 8 -> Z.testbit v n = true ->
  aget 0 (marks g) i <> 0 -> aget 0 (marks (mark_or g r c v)) i <> 0.
Proof.
  intros Hn Hv Hi. unfold mark_or; cbn [marks].
  set (j := r * cols g + c).
  destruct (Z.eq_dec j i) as [E|E]; [|now rewrite aget_aset_other].
  subst i.
  destruct (Z.ltb_spec j 0); [now rewrite aset_outside by lia|].
  destruct (Z.ltb_spec j (Z.of_nat (length (marks g)))); [|now rewrite aset_outside by lia].
  rewrite aget_aset_same by lia. now apply (to_uchar_lor_nonzero _ _ n).
Qed.

Lemma popped_marks_keep g r c i :
  aget 0 (marks g) i <> 0 ->
  aget 0 (marks (let g1 := mark_andnot g r c M_FRONT in
                 if Z.land (aget 0 (marks g1) (r * cols g1 + c)) M_VISIT =? 0
                 then mark_or g1 r c M_VISIT else g1)) i <> 0.
Proof.
  intros Hi. destruct (pop_marks g r c) as (Hoth & Hnz). cbv zeta in *.
  destruct (Z.eq_dec i (r * cols g + c)) as [->|E].
  - apply Hnz.
    destruct (Z.ltb_spec (r * cols g + c) 0);
      [exfalso; apply Hi; unfold aget; now destruct (Z.ltb_spec (r * cols g + c) 0); try lia|].
    destruct (Z.ltb_spec (r * cols g + c) (Z.of_nat (length (marks g)))); [lia|].
    exfalso. apply Hi. now apply aget_outside.
  - now rewrite Hoth.
Qed.

Lemma dfs_visit_marks_keep r c st k i :
  aget 0 (marks (d_grid st)) i <> 0 ->
  aget 0 (marks (d_grid (dfs_visit r c st k))) i <> 0.
Proof.
  intros H. unfold dfs_visit.
  destruct (is_inside _ _ _ && _ && _); auto.
  cbn [d_grid]. apply (mark_or_keeps _ _ _ _ 1); auto. lia.
Qed.

Lemma dfs_scan_marks_keep r c ks :
  forall st i, aget 0 (marks (d_grid st)) i <> 0 ->
               aget 0 (marks (d_grid (fold_left (dfs_visit r c) ks st))) i <> 0.
Proof.
  induction ks as [|k ks IH]; intros st i H; simpl; auto.
  apply IH. now apply dfs_visit_marks_keep.
Qed.

Lemma dfs_pop_marks_keep st i :
  aget 0 (marks (d_grid st)) i <> 0 ->
  aget 0 (marks (d_grid (snd (dfs_pop st)))) i <> 0.
Proof.
  intros H. unfold dfs_pop. destruct (stack_pop (d_stack st)) as [cur s1].
  cbn [snd d_grid]. now apply popped_marks_keep.
Qed.

Section DfsMarks.
Variable rand : nat -> Z.

Lemma dfs_body_marks_keep er ec st i :
  aget 0 (marks (d_grid st)) i <> 0 ->
  aget 0 (marks (d_grid (dfs_body rand er ec st))) i <> 0.
Proof.
  intros H. unfold dfs_body.
  pose proof (dfs_pop_marks_keep st i H) as Hp.
  destruct (dfs_pop st) as [cur st1]. cbn [snd] in Hp.
  destruct (_ && _); cbn [d_grid]; auto.
  destruct (shuffle_ints rand [0; 1; 2; 3] 4 (d_rng st1)) as [order rng].
  now apply dfs_scan_marks_keep.
Qed.

Lemma dfs_run_marks_keep er ec n :
  forall st i, aget 0 (marks (d_grid st)) i <> 0 ->
               aget 0 (marks (d_grid (dfs_run rand n er ec st))) i <> 0.
Proof.
  induction n as [|n IH]; intros st i H; simpl; auto.
  destruct (dfs_finished st); auto.
  apply IH. now apply dfs_body_marks_keep.
Qed.
End DfsMarks.

(** * Only fresh cells are pushed *)

Lemma bfs_push_fresh_mid g s e st d cur m k :
  wf_grid g -> bfs_mid g s e st d cur m ->
  bfs_push_fresh (rc_r cur) (rc_c cur) st k.
Proof.
  intros WF M. pose proof (bm_core _ _ _ _ _ _ _ M) as C.
  pose proof (bc_maze _ _ _ _ C) as SM.
  unfold bfs_push_fresh. cbv zeta.
  rewrite (bfs_visit_unfold g st cur k SM). cbv zeta.
  replace (RC (rc_r cur) (rc_c cur)) with cur by (now destruct cur).
  assert (Hc : cols (b_grid st) = cols g) by apply SM. rewrite Hc.
  destruct (is_inside g (rc_r (nbr cur k)) (rc_c (nbr cur k))
            && (grid_get g (rc_r (nbr cur k)) (rc_c (nbr cur k)) =? 0)
            && (aget 0 (b_parent st) (cidx (cols g) (nbr cur k)) =? -1)) eqn:E;
    [|intros Hq; now contradiction Hq].
  intros _.
  apply andb_true_iff in E as (E & Eun). apply andb_true_iff in E as (Ein & _).
  apply Z.eqb_eq in Eun. split; auto.
  cbn [b_parent].
  pose proof (cidx_range g _ Ein) as Hi.
  pose proof (cidx_range g _ (bm_cur_in _ _ _ _ _ _ _ M)) as Hci.
  pose proof (ti_len _ _ _ _ (bc_tree _ _ _ _ C)) as Hl.
  rewrite aget_aset_same by lia. lia.
Qed.

Lemma dfs_push_fresh_core g s st d cur k :
  wf_grid g -> dfs_core g s st d ->
  dfs_push_fresh (rc_r cur) (rc_c cur) st k.
Proof.
  intros WF C. pose proof (dc_maze _ _ _ _ C) as SM.
  unfold dfs_push_fresh. cbv zeta.
  rewrite (dfs_visit_unfold g st cur k SM). cbv zeta.
  replace (RC (rc_r cur) (rc_c cur)) with cur by (now destruct cur).
  assert (Hc : cols (d_grid st) = cols g) by apply SM. rewrite Hc.
  destruct (is_inside g (rc_r (nbr cur k)) (rc_c (nbr cur k))
            && (grid_get g (rc_r (nbr cur k)) (rc_c (nbr cur k)) =? 0)
            && (aget 0 (marks (d_grid st)) (cidx (cols g) (nbr cur k)) =? M_NONE)) eqn:E;
    [|intros Hq; now contradiction Hq].
  intros _.
  apply andb_true_iff in E as (E & Eun). apply andb_true_iff in E as (Ein & _).
  apply Z.eqb_eq in Eun. split; auto.
  cbn [d_grid].
  pose proof (cidx_range g _ Ein) as Hi.
  assert (Hml : Z.of_nat (length (marks (d_grid st))) = rows g * cols g).
  { destruct SM as (_ & _ & _ & ->). apply WF. }
  unfold mark_or; cbn [marks]. rewrite Hc.
  change (rc_r (nbr cur k) * cols g + rc_c (nbr cur k)) with (cidx (cols g) (nbr cur k)).
  rewrite aget_aset_same by lia.
  apply (to_uchar_lor_nonzero _ _ 1); [lia|reflexivity].
Qed.

(** C10: during a solve no cell is pushed onto the frontier container
    twice and the container never fills up.  For [solve_bfs], at the head
    of every iteration and after every pass of the neighbour loop:
    [q_tail] is the number of set parent entries, hence at most [rows*cols]
    and below the capacity [rows*cols+5], so the circular queue has not
    wrapped; the cells written are pairwise distinct; a pass pushes only a
    cell whose parent entry is unset and sets it; set entries stay set.
    For [solve_dfs], at the same points: [s_top] is at most [rows*cols],
    below the capacity, so the test in [stack_push] succeeds; the cells on
    the stack are pairwise distinct; a pass pushes only a cell whose mark
    is [M_NONE] and marks it; marks that are not [M_NONE] stay so. *)
Theorem frontier_capacity_never_exceeded (rand : nat -> Z) (g : Grid)
        (sr sc er ec : Z) (rng : nat) (n j : nat) :
  (forall k, 0 <= rand k) ->
  wf_grid g -> inside g (RC sr sc) -> inside g (RC er ec) ->
  (let st := bfs_run n er ec (bfs_init g sr sc) in
   queue_safe (rows g * cols g) (b_parent st) (b_queue st) /\
   (forall i, aget 0 (b_parent st) i <> -1 ->
              aget 0 (b_parent (bfs_run (n + j) er ec (bfs_init g sr sc))) i <> -1) /\
   (bfs_finished st = false ->
    let cur := fst (bfs_pop st) in
    let st1 := snd (bfs_pop st) in
    let st2 := fold_left (bfs_visit (rc_r cur) (rc_c cur)) (firstn j [0; 1; 2; 3]) st1 in
    queue_safe (rows g * cols g) (b_parent st2) (b_queue st2) /\
    forall k, bfs_push_fresh (rc_r cur) (rc_c cur) st2 k)) /\
  (let st := dfs_run rand n er ec (dfs_init g sr sc rng) in
   stack_safe (rows g * cols g) (d_stack st) /\
   (forall i, aget 0 (marks (d_grid st)) i <> M_NONE ->
              aget 0 (marks (d_grid (dfs_run rand (n + j) er ec (dfs_init g sr sc rng)))) i
              <> M_NONE) /\
   (dfs_finished st = false ->
    let cur := fst (dfs_pop st) in
    let st1 := snd (dfs_pop st) in
    let sh := shuffle_ints rand [0; 1; 2; 3] 4 (d_rng st1) in
    let st2 := fold_left (dfs_visit (rc_r cur) (rc_c cur)) (firstn j (fst sh))
                         (mkDfs (d_grid st1) (d_parent st1) (d_stack st1) (snd sh)
                                (d_brk st1)) in
    stack_safe (rows g * cols g) (d_stack st2) /\
    forall k, dfs_push_fresh (rc_r cur) (rc_c cur) st2 k)).
Proof.
  intros Hrand WF Hs He.
  set (s := RC sr sc) in *. set (e := RC er ec) in *.
  change sr with (rc_r s); change sc with (rc_c s).
  change er with (rc_r e); change ec with (rc_c e).
  split.
  - intros st.
    assert (Hinv : bfs_inv g s e st) by (apply bfs_run_inv, bfs_inv_init; auto).
    destruct Hinv as (d & C & H). split; [|split].
    + now apply (queue_safe_of_core g s st d).
    + intros i Hi. rewrite bfs_run_add. fold st. now rewrite bfs_run_keeps.
    + intros Hnf. apply bfs_unfinished in Hnf as (Hb & Hq). rewrite Hb in H.
      pose proof (bc_head _ _ _ _ C) as Hh.
      pose proof (bfs_pop_mid g s e WF Hs st d H ltac:(lia)) as Hpop.
      destruct (bfs_pop st) as [cur st1]. cbn [fst snd].
      destruct Hpop as (M & _).
      destruct (bfs_scan_mid g s e WF cur (level d (cols g) cur)
                             (firstn j [0; 1; 2; 3]) st1 d) as (d' & M' & _); auto.
      { apply Forall_firstn_of. repeat constructor; lia. }
      split.
      * apply (queue_safe_of_core g s _ d'); auto.
        exact (bm_core _ _ _ _ _ _ _ M').
      * intros k. now apply (bfs_push_fresh_mid g s e _ d' cur (level d (cols g) cur)).
  - intros st.
    assert (Hinv : dfs_inv g s e st) by (apply dfs_run_inv, dfs_inv_init; auto).
    destruct Hinv as (d & C & H). split; [|split].
    + now apply (stack_safe_of_core g s st d).
    + intros i Hi. rewrite dfs_run_add. fold st. now apply dfs_run_marks_keep.
    + intros Hnf. apply dfs_unfinished in Hnf as (Hb & Hq).
      pose proof (dc_top _ _ _ _ C) as Ht.
      pose proof (dfs_pop_inv g s e WF st d C ltac:(lia)) as Hpop.
      destruct (dfs_pop st) as [cur st1]. cbn [fst snd].
      destruct Hpop as (C1 & Hcin & Hcd & _).
      pose proof (shuffle_ints_dirs rand Hrand (d_rng st1)) as Hord.
      destruct (shuffle_ints rand [0; 1; 2; 3] 4 (d_rng st1)) as [order rng'].
      cbn [fst snd] in *.
      destruct (dfs_scan_inv g s e WF cur (firstn j order) _ d
                             (Forall_firstn_of _ _ j Hord)
                             (dfs_core_with g s st1 d rng' (d_brk st1) C1) Hcin Hcd)
        as (d' & C' & _).
      split.
      * now apply (stack_safe_of_core g s _ d').
      * intros k. now apply (dfs_push_fresh_core g s _ d').
Qed.

(** * The stack as a last-in first-out store *)

(** X1: A push below the capacity followed by a pop returns the pushed cell
    and leaves the stack as it was. *)
Theorem stack_push_pop (s : Stack) (v : CellRC) :
  Z.of_nat (length (s_data s)) = s_cap s ->
  0 <= s_top s < s_cap s ->
  fst (stack_pop (stack_push s v)) = v /\
  s_top (snd (stack_pop (stack_push s v))) = s_top s /\
  s_cap (snd (stack_pop (stack_push s v))) = s_cap s /\
  s_live (snd (stack_pop (stack_push s v))) = s_live s.
Proof.
  intros Hl Ht. unfold stack_push, stack_pop.
  destruct (Z.ltb_spec (s_top s) (s_cap s)); [|lia].
  cbn [s_top s_data s_cap fst snd].
  replace (s_top s + 1 - 1) with (s_top s) by lia.
  split; [apply aget_aset_same; lia|].
  split; [reflexivity|]. split; [reflexivity|].
  unfold s_live, aset; cbn [s_top s_data].
  destruct (Z.ltb_spec (s_top s) 0); [lia|].
  apply firstn_upd_above. lia.
Qed.

Lemma stack_push_live s v :
  Z.of_nat (length (s_data s)) = s_cap s -> 0 <= s_top s <= s_cap s ->
  Z.of_nat (length (s_data (stack_push s v))) = s_cap (stack_push s v) /\
  s_cap (stack_push s v) = s_cap s /\
  0 <= s_top (stack_push s v) <= s_cap s /\
  s_live (stack_push s v)
  = if s_top s <? s_cap s then s_live s ++ [v] else s_live s.
Proof.
  intros Hl Ht.
  destruct (Z.ltb_spec (s_top s) (s_cap s)) as [Hlt|Hge].
  - destruct (stack_push_spec s Hl v ltac:(lia)) as (H1 & H2 & H3 & H4).
    rewrite H3. repeat split; auto; lia.
  - unfold stack_push. destruct (Z.ltb_spec (s_top s) (s_cap s)); [lia|].
    repeat split; auto; lia.
Qed.

(** X2: Pushing the cells of [l] in turn onto a fresh stack keeps the first
    [cap] of them: a push onto a full stack is dropped without notice. *)
Theorem stack_push_all_keeps_first (cap : Z) (l : list CellRC) :
  0 <= cap ->
  let s := fold_left stack_push l (stack_create cap) in
  s_live s = firstn (Z.to_nat cap) l /\
  s_top s = Z.min cap (Z.of_nat (length l)) /\
  (stack_empty s = true <-> cap = 0 \/ l = []).
Proof.
  intros Hcap.
  assert (Hgen : forall l s,
             Z.of_nat (length (s_data s)) = s_cap s -> 0 <= s_top s <= s_cap s ->
             Z.of_nat (length (s_live s)) = s_top s ->
             let s' := fold_left stack_push l s in
             s_live s' = firstn (Z.to_nat (s_cap s)) (s_live s ++ l) /\
             s_top s' = Z.min (s_cap s) (s_top s + Z.of_nat (length l))).
  { clear l. induction l as [|v l IH]; intros s Hl Ht Hlive; cbn [fold_left].
    - rewrite app_nil_r. split; [|simpl; lia].
      rewrite firstn_all2; auto. lia.
    - destruct (stack_push_live s v Hl Ht) as (H1 & H2 & H3 & H4).
      specialize (IH (stack_push s v) H1 ltac:(lia)).
      rewrite H2 in IH.
      destruct (Z.ltb_spec (s_top s) (s_cap s)) as [Hlt|Hge].
      + destruct (stack_push_spec s Hl v ltac:(lia)) as (_ & _ & Htop & _).
        rewrite H4, Htop in IH. rewrite <- app_assoc in IH. cbn [app] in IH.
        destruct IH as (IH1 & IH2); [rewrite length_app; simpl; lia|].
        split; auto. rewrite IH2. cbn [length]. lia.
      + assert (E : stack_push s v = s).
        { unfold stack_push. destruct (Z.ltb_spec (s_top s) (s_cap s)); [lia|reflexivity]. }
        rewrite E in *. destruct (IH Hlive) as (IH1 & IH2).
        split.
        * rewrite IH1. rewrite !firstn_app.
          replace (Z.to_nat (s_cap s) - length (s_live s))%nat with O by lia.
          reflexivity.
        * rewrite IH2. cbn [length]. lia. }
  intros s.
  destruct (Hgen l (stack_create cap)) as (H1 & H2).
  - unfold stack_create; cbn [s_data s_cap]. rewrite repeat_length. lia.
  - unfold stack_create; cbn [s_top s_cap]. lia.
  - reflexivity.
  - fold s in H1, H2. unfold stack_create in H1, H2. cbn [s_cap s_top s_live] in H1, H2.
    change (s_live (mkStack (repeat (RC 0 0) (Z.to_nat cap)) 0 cap)) with (@nil CellRC) in H1.
    cbn [app] in H1. split; [exact H1|]. split; [lia|].
    unfold stack_empty. rewrite H2. split.
    + intros E. apply Z.eqb_eq in E.
      destruct l; [now right|]. cbn [length] in E. left. lia.
    + intros [-> | ->]; apply Z.eqb_eq; simpl; lia.
Qed.

(** * The queue as a circular first-in first-out store *)

Lemma mod_wrap x c :
  0 <= x < 2 * c -> x mod c = if x <? c then x else x - c.
Proof.
  intros H. destruct (Z.ltb_spec x c).
  - apply Z.mod_small. lia.
  - replace x with (x - c + 1 * c) at 1 by lia.
    rewrite Z.mod_add by lia. apply Z.mod_small. lia.
Qed.

Lemma q_len_cases q :
  q_wf q ->
  q_len q = if q_head q <=? q_tail q then q_tail q - q_head q
            else q_tail q - q_head q + q_cap q.
Proof.
  intros (_ & Hh & Ht). unfold q_len.
  destruct (Z.leb_spec (q_head q) (q_tail q)).
  - apply Z.mod_small. lia.
  - rewrite <- (Z.mod_add _ 1) by lia. rewrite Z.mul_1_l. apply Z.mod_small. lia.
Qed.

Lemma q_len_range q : q_wf q -> 0 <= q_len q < q_cap q.
Proof. intros (_ & Hh & Ht). unfold q_len. apply Z.mod_pos_bound. lia. Qed.

Lemma q_slot q i :
  q_wf q -> 0 <= i < q_cap q ->
  (q_head q + i) mod q_cap q
  = if q_head q + i <? q_cap q then q_head q + i else q_head q + i - q_cap q.
Proof. intros (_ & Hh & Ht) Hi. apply mod_wrap. lia. Qed.

(** A fresh queue is empty. *)
Lemma queue_create_wf cap :
  0 < cap -> q_wf (queue_create cap) /\ q_contents (queue_create cap) = [].
Proof.
  intros H. split.
  - unfold q_wf, queue_create; cbn [q_data q_cap q_head q_tail].
    rewrite repeat_length. lia.
  - unfold q_contents, q_len, queue_create; cbn [q_data q_cap q_head q_tail].
    rewrite Z.sub_diag, Z.mod_0_l by lia. reflexivity.
Qed.

(** X3: While fewer than [cap - 1] cells wait, a push appends to the waiting
    cells, wherever the write position is in the buffer. *)
Theorem queue_push_appends (q : Queue) (v : CellRC) :
  q_wf q -> q_len q < q_cap q - 1 ->
  q_wf (queue_push q v) /\
  q_contents (queue_push q v) = q_contents q ++ [v].
Proof.
  intros WF Hroom. pose proof WF as (Hl & Hh & Ht).
  pose proof (q_len_cases q WF) as Hlen.
  assert (WF' : q_wf (queue_push q v)).
  { unfold q_wf, queue_push; cbn [q_data q_cap q_head q_tail].
    rewrite length_aset. split; auto. split; auto.
    destruct (Z.geb_spec (q_tail q + 1) (q_cap q)); lia. }
  split; auto.
  assert (Hlen' : q_len (queue_push q v) = q_len q + 1).
  { rewrite (q_len_cases _ WF'), Hlen.
    unfold queue_push; cbn [q_data q_cap q_head q_tail].
    destruct (Z.geb_spec (q_tail q + 1) (q_cap q)), (Z.leb_spec (q_head q) (q_tail q)),
      (Z.leb_spec (q_head q) 0), (Z.leb_spec (q_head q) (q_tail q + 1)); lia. }
  pose proof (q_len_range q WF) as Hr.
  unfold q_contents. rewrite Hlen'.
  replace (Z.to_nat (q_len q + 1)) with (S (Z.to_nat (q_len q))) by lia.
  rewrite seq_S, map_app. cbn [map Nat.add].
  f_equal.
  - apply map_ext_in. intros i Hi. apply in_seq in Hi.
    unfold queue_push; cbn [q_data q_cap q_head].
    apply aget_aset_other.
    rewrite (q_slot q (Z.of_nat i) WF) by lia.
    destruct (Z.ltb_spec (q_head q + Z.of_nat i) (q_cap q)),
      (Z.leb_spec (q_head q) (q_tail q)); lia.
  - f_equal. unfold queue_push; cbn [q_data q_cap q_head].
    replace ((q_head q + Z.of_nat (Z.to_nat (q_len q))) mod q_cap q) with (q_tail q).
    + apply aget_aset_same. lia.
    + rewrite Z2Nat.id by lia. rewrite (q_slot q (q_len q) WF) by lia.
      destruct (Z.ltb_spec (q_head q + q_len q) (q_cap q)),
        (Z.leb_spec (q_head q) (q_tail q)); lia.
Qed.

(** X4: A pop returns the cell that has waited longest and leaves the others
    in order; [queue_empty] holds exactly when no cell waits. *)
Theorem queue_pop_takes_first (q : Queue) (x : CellRC) (l : list CellRC) :
  q_wf q -> q_contents q = x :: l ->
  queue_empty q = false /\
  fst (queue_pop q) = x /\
  q_wf (snd (queue_pop q)) /\
  q_contents (snd (queue_pop q)) = l.
Proof.
  intros WF Hc. pose proof WF as (Hl & Hh & Ht).
  pose proof (q_len_cases q WF) as Hlen.
  pose proof (q_len_range q WF) as Hr.
  assert (Hpos : 0 < q_len q).
  { destruct (Z.eq_dec (q_len q) 0) as [E|]; [|lia].
    unfold q_contents in Hc. rewrite E in Hc. discriminate. }
  assert (Hne : q_head q <> q_tail q).
  { intros E. rewrite E, Z.leb_refl in Hlen. lia. }
  split; [unfold queue_empty; now apply Z.eqb_neq|].
  unfold q_contents in Hc.
  replace (Z.to_nat (q_len q)) with (S (Z.to_nat (q_len q - 1))) in Hc by lia.
  cbn [seq map] in Hc. injection Hc as Hx Hrest.
  assert (WF' : q_wf (snd (queue_pop q))).
  { unfold q_wf, queue_pop; cbn [snd q_data q_cap q_head q_tail].
    split; auto. split; auto.
    destruct (Z.geb_spec (q_head q + 1) (q_cap q)); lia. }
  split; [|split; auto].
  - unfold queue_pop; cbn [fst]. rewrite <- Hx.
    change (Z.of_nat 0) with 0. rewrite Z.add_0_r, Z.mod_small by lia. reflexivity.
  - assert (Hlen' : q_len (snd (queue_pop q)) = q_len q - 1).
    { rewrite (q_len_cases _ WF'), Hlen.
      unfold queue_pop; cbn [snd q_data q_cap q_head q_tail].
      destruct (Z.geb_spec (q_head q + 1) (q_cap q)), (Z.leb_spec (q_head q) (q_tail q)),
        (Z.leb_spec 0 (q_tail q)), (Z.leb_spec (q_head q + 1) (q_tail q)); lia. }
    unfold q_contents. rewrite Hlen'. rewrite <- Hrest.
    rewrite <- seq_shift, map_map.
    apply map_ext_in. intros i Hi. apply in_seq in Hi.
    unfold queue_pop; cbn [snd q_data q_cap q_head].
    f_equal.
    rewrite (q_slot q (Z.of_nat (S i)) WF) by lia.
    destruct (Z.geb_spec (q_head q + 1) (q_cap q)).
    + rewrite Z.mod_small by lia.
      destruct (Z.ltb_spec (q_head q + Z.of_nat (S i)) (q_cap q)); lia.
    + rewrite mod_wrap by lia.
      destruct (Z.ltb_spec (q_head q + 1 + Z.of_nat i) (q_cap q)),
        (Z.ltb_spec (q_head q + Z.of_nat (S i)) (q_cap q)); lia.
Qed.

(** X5: [queue_empty] holds exactly when no cell waits. *)
Theorem queue_empty_no_contents (q : Queue) :
  q_wf q -> (queue_empty q = true <-> q_contents q = []).
Proof.
  intros WF. pose proof WF as (Hl & Hh & Ht).
  pose proof (q_len_cases q WF) as Hlen.
  pose proof (q_len_range q WF) as Hr.
  unfold queue_empty, q_contents. split.
  - intros E. apply Z.eqb_eq in E. rewrite E, Z.leb_refl in Hlen.
    rewrite Hlen, Z.sub_diag. reflexivity.
  - intros E. apply Z.eqb_eq.
    destruct (Z.to_nat (q_len q)) eqn:En; [|discriminate].
    destruct (Z.leb_spec (q_head q) (q_tail q)); lia.
Qed.

(** X6: The buffer holds at most [cap - 1] cells: a push when [cap - 1] cells
    wait brings the write position round to the read position, and the
    queue then tests as empty. *)
Theorem queue_push_full_reads_empty (q : Queue) (v : CellRC) :
  q_wf q -> q_len q = q_cap q - 1 ->
  queue_empty (queue_push q v) = true /\ q_contents (queue_push q v) = [].
Proof.
  intros WF Hfull. pose proof WF as (Hl & Hh & Ht).
  pose proof (q_len_cases q WF) as Hlen.
  assert (E : q_tail (queue_push q v) = q_head (queue_push q v)).
  { unfold queue_push; cbn [q_head q_tail].
    destruct (Z.geb_spec (q_tail q + 1) (q_cap q)), (Z.leb_spec (q_head q) (q_tail q)); lia. }
  split.
  - unfold queue_empty. apply Z.eqb_eq. now rewrite E.
  - unfold q_contents, q_len. rewrite E, Z.sub_diag.
    unfold queue_push; cbn [q_cap]. rewrite Z.mod_0_l by lia. reflexivity.
Qed.

(** * Cells, marks and indices *)

(** X7: The flat index [r * cols + c] used by every array access and the
    division and remainder by [cols] in [reconstruct_and_mark] are inverse
    to each other on the cells of the grid. *)
Theorem cell_index_roundtrip (g : Grid) :
  wf_grid g ->
  (forall p, inside g p ->
             0 <= cidx (cols g) p < rows g * cols g /\
             cell_of (cols g) (cidx (cols g) p) = p) /\
  (forall i, 0 <= i < rows g * cols g ->
             inside g (cell_of (cols g) i) /\
             cidx (cols g) (cell_of (cols g) i) = i).
Proof.
  intros (Hr & Hc & _). split.
  - intros p Hp. split; [now apply cidx_range|now apply cell_of_inside].
  - intros i Hi. split; [now apply cell_of_range|apply cidx_cell_of].
Qed.

(** X8: Two cells are grid-adjacent exactly when one is the other displaced
    by one of the four entries of [nbrs4]. *)
Theorem nbrs4_exactly_adjacent (p q : CellRC) :
  adjacent p q <-> exists k, 0 <= k < 4 /\ q = nbr p k.
Proof.
  split.
  - intros H. apply adjacent_nbrs4 in H as (k & Hk & ->).
    exists k. split; [|reflexivity]. simpl in Hk. lia.
  - intros (k & Hk & ->). destruct p as [r c]. now apply nbrs4_adjacent.
Qed.

Lemma to_uchar_byte v : 0 <= v < 256 -> to_uchar v = v.
Proof. intros H. unfold to_uchar. now apply Z.mod_small. Qed.

(** X9: A cell written by [grid_set] is read back by [grid_get] as the
    byte the value is reduced to (the value itself when it is a byte),
    every other cell reads as before, and the marks are not touched. *)
Theorem grid_set_get (g : Grid) (r c v r' c' : Z) :
  wf_grid g -> inside g (RC r c) -> inside g (RC r' c') ->
  grid_get (grid_set g r c v) r' c'
  = (if (r =? r') && (c =? c') then to_uchar v else grid_get g r' c') /\
  (0 <= v < 256 -> grid_get (grid_set g r c v) r c = v) /\
  mark_get (grid_set g r c v) r' c' = mark_get g r' c' /\
  wf_grid (grid_set g r c v).
Proof.
  intros WF Hin Hin'. split; [|split; [|split]].
  - apply grid_get_set; auto. apply WF.
  - intros Hv. rewrite grid_get_set by (auto; apply WF).
    rewrite !Z.eqb_refl. cbn [andb]. now apply to_uchar_byte.
  - reflexivity.
  - destruct WF as (H1 & H2 & H3 & H4 & H5).
    unfold wf_grid, grid_set; cbn [rows cols cells marks].
    rewrite length_aset. auto.
Qed.

(** X10: A mark written by [mark_set] is read back by [mark_get] as the
    byte the value is reduced to (the value itself when it is a byte),
    every other mark reads as before, and the cells are not touched. *)
Theorem mark_set_get (g : Grid) (r c v r' c' : Z) :
  wf_grid g -> inside g (RC r c) -> inside g (RC r' c') ->
  mark_get (mark_set g r c v) r' c'
  = (if (r =? r') && (c =? c') then to_uchar v else mark_get g r' c') /\
  (0 <= v < 256 -> mark_get (mark_set g r c v) r c = v) /\
  grid_get (mark_set g r c v) r' c' = grid_get g r' c'.
Proof.
  intros WF Hin Hin'.
  pose proof (cidx_range g _ Hin) as Hi. unfold cidx in Hi; cbn [rc_r rc_c] in Hi.
  destruct WF as (_ & _ & _ & _ & Hm).
  split; [|split; [|reflexivity]].
  - unfold mark_get, mark_set; cbn [marks cols].
    destruct (Z.eqb_spec r r') as [->|Hr]; cbn [andb].
    + destruct (Z.eqb_spec c c') as [->|Hc].
      * apply aget_aset_same. lia.
      * apply aget_aset_other. lia.
    + apply aget_aset_other. intros E.
      apply (cidx_inj g (RC r c) (RC r' c')) in E; auto. congruence.
  - intros Hv. unfold mark_get, mark_set; cbn [marks cols].
    rewrite aget_aset_same by lia. now apply to_uchar_byte.
Qed.

Lemma to_uchar_range z : 0 <= to_uchar z < 256.
Proof. unfold to_uchar. apply Z.mod_pos_bound. lia. Qed.

(** X11: [mark_or] sets the bits of [v] in the mark of one cell and
    [mark_andnot] clears them; the other bits of that mark, and the marks
    of all other cells, stay as they are.  The stored mark is a byte. *)
Theorem mark_or_andnot_bits (g : Grid) (r c v r' c' n : Z) :
  wf_grid g -> inside g (RC r c) -> inside g (RC r' c') -> 0 <= n < 8 ->
  Z.testbit (mark_get (mark_or g r c v) r' c') n
  = (if (r =? r') && (c =? c')
     then Z.testbit (mark_get g r c) n || Z.testbit v n
     else Z.testbit (mark_get g r' c') n) /\
  Z.testbit (mark_get (mark_andnot g r c v) r' c') n
  = (if (r =? r') && (c =? c')
     then Z.testbit (mark_get g r c) n && negb (Z.testbit v n)
     else Z.testbit (mark_get g r' c') n) /\
  0 <= mark_get (mark_or g r c v) r c < 256 /\
  0 <= mark_get (mark_andnot g r c v) r c < 256 /\
  cells (mark_or g r c v) = cells g /\ cells (mark_andnot g r c v) = cells g.
Proof.
  intros WF Hin Hin' Hn.
  pose proof (cidx_range g _ Hin) as Hi. unfold cidx in Hi; cbn [rc_r rc_c] in Hi.
  destruct WF as (_ & _ & _ & _ & Hm).
  assert (Hidx : (r =? r') && (c =? c') = true -> r' * cols g + c' = r * cols g + c).
  { intros E. apply andb_true_iff in E as (E1 & E2).
    apply Z.eqb_eq in E1, E2. now subst. }
  assert (Hne : (r =? r') && (c =? c') = false -> r * cols g + c <> r' * cols g + c').
  { intros E Heq.
    apply (cidx_inj g (RC r c) (RC r' c')) in Heq; auto.
    injection Heq as -> ->. rewrite !Z.eqb_refl in E. discriminate. }
  unfold mark_get, mark_or, mark_andnot; cbn [marks cols cells].
  repeat split.
  - destruct ((r =? r') && (c =? c')) eqn:E.
    + rewrite (Hidx eq_refl), aget_aset_same by lia.
      rewrite testbit_to_uchar by lia. apply Z.lor_spec.
    + now rewrite aget_aset_other by auto.
  - destruct ((r =? r') && (c =? c')) eqn:E.
    + rewrite (Hidx eq_refl), aget_aset_same by lia.
      rewrite testbit_to_uchar by lia. rewrite Z.land_spec, Z.lnot_spec by lia.
      reflexivity.
    + now rewrite aget_aset_other by auto.
  - rewrite aget_aset_same by lia. apply to_uchar_range.
  - rewrite aget_aset_same by lia. apply to_uchar_range.
  - rewrite aget_aset_same by lia. apply to_uchar_range.
  - rewrite aget_aset_same by lia. apply to_uchar_range.
Qed.




(** * shuffle_ints *)

Lemma nth_error_upd {A} (l : list A) (n m : nat) (v : A) :
  nth_error (upd l n v) m
  = if Nat.eqb m n then (if Nat.ltb n (length l) then Some v else None)
    else nth_error l m.
Proof.
  revert n m. induction l as [|h t IH]; intros n m.
  - destruct n, m; simpl; auto; now destruct (Nat.eqb m n).
  - destruct n, m; simpl; auto.
Qed.

(** Exchanging two slots of an array permutes it. *)
Lemma upd_swap_perm {A} (l : list A) (i j : nat) (d : A) :
  (i < length l)%nat -> (j < length l)%nat ->
  Permutation (upd (upd l i (nth j l d)) j (nth i l d)) l.
Proof.
  intros Hi Hj. symmetry. apply Permutation_nth_error.
  split; [now rewrite !length_upd|].
  exists (fun x => if Nat.eqb x j then i else if Nat.eqb x i then j else x).
  split.
  - intros x y.
    destruct (Nat.eqb_spec x j), (Nat.eqb_spec x i), (Nat.eqb_spec y j), (Nat.eqb_spec y i);
      lia.
  - intros x. rewrite !nth_error_upd, length_upd.
    destruct (Nat.ltb_spec j (length l)); [|lia].
    destruct (Nat.ltb_spec i (length l)); [|lia].
    destruct (Nat.eqb_spec x j) as [->|Hxj].
    + symmetry. now apply nth_error_nth'.
    + destruct (Nat.eqb_spec x i) as [->|Hxi]; auto.
      symmetry. now apply nth_error_nth'.
Qed.

Lemma nth_upd_swap_above {A} (l : list A) (i j k : nat) (a b d : A) :
  (i < k)%nat -> (j < k)%nat -> nth k (upd (upd l i a) j b) d = nth k l d.
Proof. intros Hi Hj. rewrite !nth_upd_other by lia. reflexivity. Qed.

Section ShufflePerm.
Variable rand : nat -> Z.
Hypothesis rand_nonneg : forall n, 0 <= rand n.

Lemma shuffle_from_perm :
  forall i arr rng,
    (i < length arr)%nat ->
    Permutation (fst (shuffle_from rand i arr rng)) arr /\
    snd (shuffle_from rand i arr rng) = (rng + i)%nat /\
    forall k, (i < k)%nat ->
              nth k (fst (shuffle_from rand i arr rng)) 0 = nth k arr 0.
Proof.
  induction i as [|i IH]; intros arr rng Hi.
  - simpl. split; [reflexivity|]. split; [lia|reflexivity].
  - cbn [shuffle_from].
    set (j := Z.rem (rand rng) (Z.of_nat (S i) + 1)).
    assert (Hj : 0 <= j <= Z.of_nat (S i)).
    { unfold j. pose proof (Z.rem_bound_pos (rand rng) (Z.of_nat (S i) + 1)
                                            (rand_nonneg rng) ltac:(lia)). lia. }
    set (arr2 := aset (aset arr (Z.of_nat (S i)) (aget 0 arr j)) j
                      (aget 0 arr (Z.of_nat (S i)))).
    assert (E : arr2 = upd (upd arr (S i) (nth (Z.to_nat j) arr 0)) (Z.to_nat j)
                           (nth (S i) arr 0)).
    { unfold arr2, aset, aget.
      destruct (Z.ltb_spec (Z.of_nat (S i)) 0); [lia|].
      destruct (Z.ltb_spec j 0); [lia|].
      now rewrite Nat2Z.id. }
    assert (Hl2 : length arr2 = length arr) by (rewrite E, !length_upd; reflexivity).
    destruct (IH arr2 (S rng) ltac:(lia)) as (IH1 & IH2 & IH3).
    split; [|split].
    + rewrite IH1, E. apply upd_swap_perm; lia.
    + rewrite IH2. lia.
    + intros k Hk. rewrite IH3 by lia. rewrite E.
      apply nth_upd_swap_above; lia.
Qed.
End ShufflePerm.

(** X13: [shuffle_ints] rearranges the first [n] entries of the array and
    leaves the others where they are; it calls [rand()] [n - 1] times.
    [rand()] returns non-negative values. *)
Theorem shuffle_ints_permutes (rand : nat -> Z) (arr : list Z) (n : Z) (rng : nat) :
  (forall k, 0 <= rand k) ->
  n <= Z.of_nat (length arr) ->
  Permutation (fst (shuffle_ints rand arr n rng)) arr /\
  snd (shuffle_ints rand arr n rng) = (rng + Z.to_nat (n - 1))%nat /\
  (forall k, n <= k -> aget 0 (fst (shuffle_ints rand arr n rng)) k = aget 0 arr k).
Proof.
  intros Hrand Hn. unfold shuffle_ints.
  destruct (Z.to_nat (n - 1)) as [|i] eqn:Ei.
  - simpl. split; [reflexivity|]. split; [lia|reflexivity].
  - destruct (shuffle_from_perm rand Hrand (S i) arr rng ltac:(lia)) as (H1 & H2 & H3).
    split; auto. split; auto.
    intros k Hk. unfold aget. destruct (Z.ltb_spec k 0); auto.
    apply H3. lia.
Qed.

(** * The dimensions chosen by main *)

Lemma clamp_odd (x : Z) :
  x <= INT_MAX ->
  let y := if x <? 11 then 11 else x in
  let z := if Z.rem y 2 =? 0 then y + 1 else y in
  11 <= z <= INT_MAX /\ Z.odd z = true /\ x <= z /\ (11 <= x -> z <= x + 1) /\
  z = (if x <? 11 then 11 else if Z.even x then x + 1 else x).
Proof.
  intros Hx. cbv zeta. unfold INT_MAX in *.
  destruct (Z.ltb_spec x 11).
  - change (Z.rem 11 2 =? 0) with false. cbv iota.
    repeat split; try lia.
  - pose proof (Z.quot_rem' x 2) as Hqr.
    pose proof (Z.rem_bound_pos x 2 ltac:(lia) ltac:(lia)) as Hb.
    destruct (Z.eqb_spec (Z.rem x 2) 0) as [E|E].
    + assert (Ho : Z.odd (x + 1) = true).
      { apply Z.odd_spec. exists (Z.quot x 2). lia. }
      assert (He : Z.even x = true).
      { apply Z.even_spec. exists (Z.quot x 2). lia. }
      rewrite He. repeat split; try lia; auto.
    + assert (Ho : Z.odd x = true).
      { apply Z.odd_spec. exists (Z.quot x 2). lia. }
      assert (He : Z.even x = false).
      { rewrite <- Z.negb_odd, Ho. reflexivity. }
      rewrite He. repeat split; try lia; auto.
Qed.

(** X14: Whatever is typed, [main] works with odd dimensions of at least
    11 that still fit an [int]: a missing answer gives 31 columns and 21
    rows, a value below 11 becomes 11, an even value from 11 on is raised
    by one and an odd one is kept.  The start [(1, 1)] and the end
    [(rows - 2, cols - 2)] then lie at odd coordinates strictly inside the
    border. *)
Theorem main_config_dimensions (in_cols in_rows in_algo in_delay : option Z) :
  (forall x, in_cols = Some x -> x <= INT_MAX) ->
  (forall x, in_rows = Some x -> x <= INT_MAX) ->
  let cfg := main_config in_cols in_rows in_algo in_delay in
  11 <= cfg_cols cfg <= INT_MAX /\ 11 <= cfg_rows cfg <= INT_MAX /\
  Z.odd (cfg_cols cfg) = true /\ Z.odd (cfg_rows cfg) = true /\
  (in_cols = None -> cfg_cols cfg = 31) /\ (in_rows = None -> cfg_rows cfg = 21) /\
  (forall x, in_cols = Some x -> x <= cfg_cols cfg /\ (11 <= x -> cfg_cols cfg <= x + 1)) /\
  (forall x, in_rows = Some x -> x <= cfg_rows cfg /\ (11 <= x -> cfg_rows cfg <= x + 1)) /\
  (forall x, in_cols = Some x ->
             cfg_cols cfg = if x <? 11 then 11 else if Z.even x then x + 1 else x) /\
  (forall x, in_rows = Some x ->
             cfg_rows cfg = if x <? 11 then 11 else if Z.even x then x + 1 else x) /\
  (forall g, rows g = cfg_rows cfg -> cols g = cfg_cols cfg ->
             room g (RC 1 1) /\ room g (RC (rows g - 2) (cols g - 2))).
Proof.
  intros Hc Hr cfg.
  assert (Hcx : get_int_with_default in_cols 31 <= INT_MAX).
  { destruct in_cols as [x|]; simpl; [now apply Hc|unfold INT_MAX; lia]. }
  assert (Hrx : get_int_with_default in_rows 21 <= INT_MAX).
  { destruct in_rows as [x|]; simpl; [now apply Hr|unfold INT_MAX; lia]. }
  pose proof (clamp_odd _ Hcx) as (C1 & C2 & C3 & C4 & C5).
  pose proof (clamp_odd _ Hrx) as (R1 & R2 & R3 & R4 & R5).
  unfold cfg, main_config. cbn [cfg_cols cfg_rows].
  split; [exact C1|]. split; [exact R1|]. split; [exact C2|]. split; [exact R2|].
  split; [intros ->; reflexivity|]. split; [intros ->; reflexivity|].
  split; [intros x ->; split; [exact C3|exact C4]|].
  split; [intros x ->; split; [exact R3|exact R4]|].
  split; [intros x ->; exact C5|].
  split; [intros x ->; exact R5|].
  intros g Hgr Hgc.
  unfold room, interior, is_room; cbn [rc_r rc_c].
  rewrite Hgr, Hgc.
  split; [split; [lia|reflexivity]|].
  split; [lia|].
  replace (Z.odd (_ - 2)) with true; [replace (Z.odd (_ - 2)) with true; [reflexivity|]|].
  - symmetry. rewrite Z.odd_sub. now rewrite C2.
  - symmetry. rewrite Z.odd_sub. now rewrite R2.
Qed.

(** * Depth-first search is complete *)

Lemma shuffle_order_perm (rand : nat -> Z) (rng : nat) :
  (forall n, 0 <= rand n) ->
  Permutation (fst (shuffle_ints rand [0; 1; 2; 3] 4 rng)) [0; 1; 2; 3].
Proof.
  intros Hrand. unfold shuffle_ints.
  change (Z.to_nat (4 - 1)) with 3%nat.
  apply (shuffle_from_perm rand Hrand 3 [0; 1; 2; 3] rng). simpl. lia.
Qed.

Section DfsClosed.
Variables (g : Grid) (s e : CellRC).
Hypothesis WF : wf_grid g.
Hypothesis Hs : inside g s.
Hypothesis He : inside g e.

Local Abbreviation N := (rows g * cols g).
Local Abbreviation W := (cols g).

Lemma dfs_closed_mono st st' skip :
  (forall i, marked (d_grid st) i -> marked (d_grid st') i) ->
  (forall c, In c (s_live (d_stack st)) -> In c (s_live (d_stack st'))) ->
  (forall i, 0 <= i < N -> marked (d_grid st') i ->
             marked (d_grid st) i \/ In (cell_of W i) (s_live (d_stack st'))) ->
  dfs_closed g st skip -> dfs_closed g st' skip.
Proof.
  intros Hkeep Hlive Hnew Hcl i Hi Hm.
  destruct (Hnew i Hi Hm) as [Hold|Hin]; [|right; left; exact Hin].
  destruct (Hcl i Hi Hold) as [Hsk|[Hin|Hn]];
    [left; exact Hsk|right; left; apply Hlive, Hin|].
  right; right. intros q Ha Ho. apply Hkeep. now apply Hn.
Qed.

Lemma dfs_visit_closed st d cur k :
  dfs_core g s st d -> inside g cur -> 0 <= k < 4 ->
  let st' := dfs_visit (rc_r cur) (rc_c cur) st k in
  (forall c, In c (s_live (d_stack st)) -> In c (s_live (d_stack st'))) /\
  (forall i, 0 <= i < N -> marked (d_grid st') i ->
             marked (d_grid st) i \/ In (cell_of W i) (s_live (d_stack st'))) /\
  (dfs_marked_disc g st -> dfs_marked_disc g st') /\
  (cell_open g (nbr cur k) -> marked (d_grid st') (cidx W (nbr cur k))).
Proof.
  intros C Hcin Hk st'. subst st'.
  pose proof C as [SM TI Slen Scap Stop Snd Slive].
  rewrite (dfs_visit_unfold g st cur k SM).
  cbv zeta. remember (nbr cur k) as v eqn:Ev.
  destruct (is_inside g (rc_r v) (rc_c v) && (grid_get g (rc_r v) (rc_c v) =? 0)
            && (aget 0 (marks (d_grid st)) (cidx W v) =? M_NONE)) eqn:Etest.
  - apply andb_true_iff in Etest as (Etest & Enone).
    apply andb_true_iff in Etest as (Ein & Eop).
    apply Z.eqb_eq in Eop, Enone. unfold M_NONE in Enone.
    pose proof (cidx_range g _ Ein) as Hvi.
    pose proof (cidx_range g _ Hcin) as Hci.
    pose proof (ti_len _ _ _ _ TI) as Hplen.
    assert (Hml : Z.of_nat (length (marks (d_grid st))) = N).
    { destruct SM as (_ & _ & _ & ->). apply WF. }
    assert (Hcol : cols (d_grid st) = W) by apply SM.
    assert (Hmarks : marks (mark_or (d_grid st) (rc_r v) (rc_c v) M_FRONT)
                     = aset (marks (d_grid st)) (cidx W v) 2).
    { unfold mark_or; cbn [marks]. rewrite Hcol. fold (cidx W v).
      now rewrite Enone. }
    destruct (stack_push_spec (d_stack st) Slen v) as (_ & _ & _ & Slive');
      [lia|].
    unfold dfs_marked_disc, marked, discovered.
    cbn [d_grid d_parent d_stack]. rewrite Slive', Hmarks.
    split; [|split; [|split]].
    + intros c Hc. apply in_or_app. now left.
    + intros i Hi Hm. destruct (Z.eq_dec i (cidx W v)) as [->|Hne].
      * right. apply in_or_app. right. left. symmetry. now apply cell_of_inside.
      * left. now rewrite aget_aset_other in Hm by auto.
    + intros P i Hi Hm.
      destruct (Z.eq_dec i (cidx W v)) as [->|Hne].
      * destruct (Z.eqb_spec (aget 0 (d_parent st) (cidx W v)) (-1)); auto.
        rewrite aget_aset_same by lia. lia.
      * rewrite aget_aset_other in Hm by auto.
        specialize (P i Hi Hm).
        destruct (Z.eqb_spec (aget 0 (d_parent st) (cidx W v)) (-1)); auto.
        now rewrite aget_aset_other by auto.
    + intros _. rewrite aget_aset_same by lia. unfold M_NONE. lia.
  - split; [|split; [|split]]; auto.
    intros (Hin & Hop). unfold marked. intros E.
    apply andb_false_iff in Etest as [Etest|Etest].
    + apply andb_false_iff in Etest as [Etest|Etest].
      * unfold inside in Hin. congruence.
      * apply Z.eqb_neq in Etest. contradiction.
    + apply Z.eqb_neq in Etest. contradiction.
Qed.

Lemma dfs_scan_closed cur :
  forall ks st d,
    Forall (fun k => 0 <= k < 4) ks ->
    dfs_core g s st d ->
    inside g cur -> discovered (d_parent st) (cidx W cur) ->
    let st' := fold_left (dfs_visit (rc_r cur) (rc_c cur)) ks st in
    (forall i, marked (d_grid st) i -> marked (d_grid st') i) /\
    (forall c, In c (s_live (d_stack st)) -> In c (s_live (d_stack st'))) /\
    (forall i, 0 <= i < N -> marked (d_grid st') i ->
               marked (d_grid st) i \/ In (cell_of W i) (s_live (d_stack st'))) /\
    (dfs_marked_disc g st -> dfs_marked_disc g st') /\
    (forall k, In k ks -> cell_open g (nbr cur k) ->
               marked (d_grid st') (cidx W (nbr cur k))).
Proof.
  induction ks as [|k ks IH]; intros st d Hks C Hcin Hcd; cbn [fold_left].
  - repeat split; auto. intros k [].
  - inversion Hks as [|? ? Hk Hks']; subst.
    destruct (dfs_visit_inv g s e WF st d cur k C Hcin Hcd Hk)
      as (d1 & C1 & Hmono1 & _).
    destruct (dfs_visit_closed st d cur k C Hcin Hk) as (L1 & N1 & P1 & M1).
    destruct (IH _ d1 Hks' C1 Hcin (Hmono1 _ Hcd)) as (K2 & L2 & N2 & P2 & M2).
    split; [|split; [|split; [|split]]].
    + intros i Hi. apply K2. now apply dfs_visit_marks_keep.
    + auto.
    + intros i Hi Hm. destruct (N2 i Hi Hm) as [H1|H1]; auto.
      destruct (N1 i Hi H1) as [H0|H0]; auto.
    + auto.
    + intros k' [<-|Hin] Ho; auto.
  Qed.

Lemma dfs_pop_closed st d :
  dfs_core g s st d -> 0 < s_top (d_stack st) ->
  let cur := fst (dfs_pop st) in
  let st1 := snd (dfs_pop st) in
  (forall i, marked (d_grid st) i -> marked (d_grid st1) i) /\
  (dfs_marked_disc g st -> dfs_marked_disc g st1) /\
  (dfs_closed g st (fun _ => False) -> dfs_closed g st1 (fun i => i = cidx W cur)).
Proof.
  intros C Htop. pose proof C as [SM TI Slen Scap Stop Snd Slive].
  cbv zeta.
  assert (Hkeep : forall i, marked (d_grid st) i -> marked (d_grid (snd (dfs_pop st))) i).
  { intros i Hi. now apply dfs_pop_marks_keep. }
  split; [exact Hkeep|].
  pose proof (dfs_pop_inv g s e WF st d C Htop) as Hinv.
  revert Hkeep Hinv. unfold dfs_pop.
  pose proof (stack_pop_spec (d_stack st) Slen ltac:(lia)) as Hpop.
  destruct (stack_pop (d_stack st)) as [cur s1].
  destruct Hpop as (Sdata & Scap' & Stop' & Slive').
  cbn [fst snd]. intros Hkeep (C1 & Hcin & Hcd & Hpar & _).
  assert (Hcol : cols (d_grid st) = W) by apply SM.
  destruct (pop_marks (d_grid st) (rc_r cur) (rc_c cur)) as (Hoth & Hnz).
  rewrite Hcol in Hoth, Hnz. fold (cidx W cur) in Hoth, Hnz.
  cbn [d_grid d_parent d_stack] in *. cbv zeta in Hoth, Hnz.
  split.
  - intros P i Hi Hm. unfold marked in Hm. cbn [d_grid] in Hm.
    destruct (Z.eq_dec i (cidx W cur)) as [->|Hne]; auto.
    rewrite Hoth in Hm by auto. now apply P.
  - intros Hcl i Hi Hm. unfold marked in Hm. cbn [d_grid] in Hm.
    destruct (Z.eq_dec i (cidx W cur)) as [->|Hne]; [left; reflexivity|].
    rewrite Hoth in Hm by auto.
    destruct (Hcl i Hi Hm) as [[]|[Hin|Hn]].
    + rewrite Slive' in Hin. apply in_app_or in Hin as [Hin|[E|[]]].
      * right; left; exact Hin.
      * left. rewrite E. symmetry. apply cidx_cell_of.
    + right; right. intros q Ha Ho. apply Hkeep. now apply Hn.
Qed.
End DfsClosed.

Section DfsComplete.
Variable rand : nat -> Z.
Hypothesis rand_nonneg : forall n, 0 <= rand n.
Variables (g : Grid) (s e : CellRC).
Hypothesis WF : wf_grid g.
Hypothesis Hs : inside g s.
Hypothesis He : inside g e.

Local Abbreviation N := (rows g * cols g).
Local Abbreviation W := (cols g).

Lemma dfs_body_closed st :
  dfs_inv g s e st -> dfs_finished st = false ->
  dfs_marked_disc g st -> dfs_closed g st (fun _ => False) ->
  let st' := dfs_body rand (rc_r e) (rc_c e) st in
  d_brk st' = false ->
  dfs_marked_disc g st' /\ dfs_closed g st' (fun _ => False).
Proof.
  intros (d & C & H) Hnf P Hcl.
  apply dfs_unfinished in Hnf as (Hb & Hq).
  pose proof (dc_top _ _ _ _ C) as Ht.
  pose proof (dfs_pop_inv g s e WF st d C ltac:(lia)) as Hpop.
  destruct (dfs_pop_closed g s e WF st d C ltac:(lia)) as (Hk1 & P1 & Hcl1).
  specialize (P1 P). specialize (Hcl1 Hcl).
  unfold dfs_body. revert Hk1 P1 Hcl1.
  destruct (dfs_pop st) as [cur st1]. cbn [fst snd]. intros Hk1 P1 Hcl1.
  destruct Hpop as (C1 & Hcin & Hcd & Hpar & _ & Hbrk & _).
  destruct ((rc_r cur =? rc_r e) && (rc_c cur =? rc_c e)) eqn:Ee;
    [cbn [d_brk]; discriminate|].
  pose proof (shuffle_ints_dirs rand rand_nonneg (d_rng st1)) as Hord.
  pose proof (shuffle_order_perm rand (d_rng st1) rand_nonneg) as Hperm.
  destruct (shuffle_ints rand [0; 1; 2; 3] 4 (d_rng st1)) as [order rng].
  cbn [fst] in Hord, Hperm.
  set (st2 := mkDfs (d_grid st1) (d_parent st1) (d_stack st1) rng (d_brk st1)).
  destruct (dfs_scan_closed g s e WF cur order st2 d Hord
                            (dfs_core_with g s st1 d rng (d_brk st1) C1) Hcin Hcd)
    as (K & L & Nw & Pk & M).
  intros _. split; [now apply Pk|].
  assert (Hcl2 : dfs_closed g (fold_left (dfs_visit (rc_r cur) (rc_c cur)) order st2)
                            (fun i => i = cidx W cur)).
  { apply (dfs_closed_mono g st2); auto. }
  intros i Hi Hm. destruct (Hcl2 i Hi Hm) as [->|[Hin|Hn]]; auto.
  right; right. intros q Ha Ho.
  rewrite cell_of_inside in Ha by auto.
  apply adjacent_nbr in Ha as (k & Hk & ->).
  apply M; auto.
  apply (Permutation_in k (Permutation_sym Hperm)).
  simpl. lia.
Qed.

Lemma dfs_run_closed n :
  forall st, dfs_inv g s e st ->
             (d_brk st = false ->
              dfs_marked_disc g st /\ dfs_closed g st (fun _ => False)) ->
             let st' := dfs_run rand n (rc_r e) (rc_c e) st in
             d_brk st' = false ->
             dfs_marked_disc g st' /\ dfs_closed g st' (fun _ => False).
Proof.
  induction n as [|n IH]; intros st Hinv Hst; cbn [dfs_run]; auto.
  destruct (dfs_finished st) eqn:Hf; auto.
  destruct (dfs_unfinished st Hf) as (Hb & _).
  destruct (Hst Hb) as (P & Hcl).
  apply IH.
  - now apply dfs_body_inv.
  - now apply dfs_body_closed.
Qed.

Lemma dfs_init_closed rng :
  let st := dfs_init g (rc_r s) (rc_c s) rng in
  marked (d_grid st) (cidx W s) /\
  dfs_marked_disc g st /\ dfs_closed g st (fun _ => False).
Proof.
  destruct (dfs_init_core g s e WF Hs rng) as (C & _).
  pose proof C as [SM TI Slen Scap Stop Snd Slive].
  destruct WF as (Hr & Hc & Hmax & Hcl & Hml).
  pose proof (cidx_range g s Hs) as Hsi.
  cbv zeta. revert SM TI Slen Scap Stop Snd Slive.
  unfold dfs_init. fold (cidx W s). cbn [d_grid d_parent d_stack].
  set (g0 := mkGrid (rows g) W (cells g) (memset (marks g) M_NONE N)).
  assert (Hmarks : marks (mark_or g0 (rc_r s) (rc_c s) M_FRONT)
                   = aset (repeat 0 (Z.to_nat N)) (cidx W s) 2).
  { unfold mark_or, g0; cbn [marks cols]. fold (cidx W s).
    rewrite memset_all by auto. unfold M_NONE.
    rewrite aget_repeat by lia. reflexivity. }
  intros SM TI Slen Scap Stop Snd Slive.
  assert (Honly : forall i, 0 <= i < N ->
                            marked (mark_or g0 (rc_r s) (rc_c s) M_FRONT) i ->
                            i = cidx W s).
  { intros i Hi Hm. unfold marked in Hm. rewrite Hmarks in Hm.
    destruct (Z.eq_dec i (cidx W s)); auto.
    rewrite aget_aset_other, aget_repeat in Hm by (auto; lia).
    now contradiction Hm. }
  assert (Hlive : In s (s_live (stack_push (stack_create (N + 5)) (RC (rc_r s) (rc_c s))))).
  { assert (S0len : Z.of_nat (length (s_data (stack_create (N + 5))))
                    = s_cap (stack_create (N + 5))).
    { unfold stack_create; simpl. rewrite repeat_length. nia. }
    destruct (stack_push_spec _ S0len (RC (rc_r s) (rc_c s))) as (_ & _ & _ & ->);
      [unfold stack_create; simpl; nia|].
    apply in_or_app. right. left. now destruct s. }
  split; [|split].
  - unfold marked. rewrite Hmarks, aget_aset_same by (rewrite repeat_length; lia).
    unfold M_NONE; lia.
  - intros i Hi Hm. cbn [d_grid] in Hm. rewrite (Honly i Hi Hm).
    unfold discovered. cbn [d_parent]. rewrite (ti_root _ _ _ _ TI). lia.
  - intros i Hi Hm. cbn [d_grid] in Hm. rewrite (Honly i Hi Hm).
    right; left. cbn [d_stack]. rewrite cell_of_inside by auto. exact Hlive.
Qed.

(** When the loop of [solve_dfs] has ended, a cell that can be walked to
    from the start has its parent set. *)
Lemma dfs_finished_reaches rng n k :
  let st := dfs_run rand n (rc_r e) (rc_c e) (dfs_init g (rc_r s) (rc_c s) rng) in
  dfs_finished st = true -> walk g s k e -> discovered (d_parent st) (cidx W e).
Proof.
  intros st Hf Hw.
  assert (Hinv : dfs_inv g s e st) by (apply dfs_run_inv, dfs_inv_init; auto).
  destruct (dfs_init_closed rng) as (Hms & P0 & Hcl0).
  assert (Hms' : marked (d_grid st) (cidx W s)).
  { unfold st. now apply dfs_run_marks_keep. }
  destruct (d_brk st) eqn:Hb.
  - destruct Hinv as (d & C & H). now rewrite Hb in H.
  - destruct (dfs_run_closed n _ (dfs_inv_init g s e WF Hs rng)
                             (fun _ => conj P0 Hcl0) Hb) as (P & Hcl).
    fold st in P, Hcl.
    destruct Hinv as (d & C & _).
    assert (Hempty : s_live (d_stack st) = []).
    { unfold dfs_finished in Hf. rewrite Hb in Hf. cbn [orb] in Hf.
      apply stack_empty_spec in Hf; auto.
      - exact (dc_len _ _ _ _ C).
      - pose proof (dc_top _ _ _ _ C). rewrite (dc_cap _ _ _ _ C). lia. }
    assert (Hall : forall k v, walk g s k v -> marked (d_grid st) (cidx W v)).
    { intros k' v Hwv. induction Hwv as [|k' p q Hwp IHp Ha Ho]; auto.
      assert (Hpin : inside g p) by (apply (walk_inside g s k' p); auto).
      destruct (Hcl (cidx W p) (cidx_range g p Hpin) IHp) as [[]|[Hin|Hn]].
      - rewrite Hempty in Hin. destruct Hin.
      - apply Hn; auto. now rewrite cell_of_inside. }
    apply P; [now apply cidx_range|]. now apply (Hall k).
Qed.
End DfsComplete.

(** * What a solve leaves behind *)

Lemma memset_length l v n : length (memset l v n) = length l.
Proof.
  unfold memset. rewrite length_app, repeat_length, length_skipn. lia.
Qed.

Lemma popped_same g g0 r c :
  same_maze g g0 ->
  same_maze g (let g1 := mark_andnot g0 r c M_FRONT in
               if Z.land (aget 0 (marks g1) (r * cols g1 + c)) M_VISIT =? 0
               then mark_or g1 r c M_VISIT else g1).
Proof.
  intros SM. cbv zeta.
  destruct (_ =? 0); [apply same_maze_mark_or|]; now apply same_maze_mark_andnot.
Qed.

Lemma cleared_same g r c :
  same_maze g (mark_or (mkGrid (rows g) (cols g) (cells g)
                               (memset (marks g) M_NONE (rows g * cols g))) r c M_FRONT).
Proof.
  apply same_maze_mark_or. repeat split. cbn [marks]. apply memset_length.
Qed.

Lemma bfs_visit_same g r c st k :
  same_maze g (b_grid st) -> same_maze g (b_grid (bfs_visit r c st k)).
Proof.
  intros SM. unfold bfs_visit. destruct (_ && _); auto.
  cbn [b_grid]. now apply same_maze_mark_or.
Qed.

Lemma bfs_body_same g er ec st :
  same_maze g (b_grid st) -> same_maze g (b_grid (bfs_body er ec st)).
Proof.
  intros SM. unfold bfs_body, bfs_pop.
  destruct (queue_pop (b_queue st)) as [cur q].
  pose proof (popped_same g (b_grid st) (rc_r cur) (rc_c cur) SM) as SM1.
  cbv zeta in SM1 |- *.
  destruct (_ && _); cbn [b_grid]; auto.
  cbn [fold_left]. now repeat apply bfs_visit_same.
Qed.

Lemma bfs_run_same g er ec n :
  forall st, same_maze g (b_grid st) -> same_maze g (b_grid (bfs_run n er ec st)).
Proof.
  induction n as [|n IH]; intros st SM; cbn [bfs_run]; auto.
  destruct (bfs_finished st); auto. now apply IH, bfs_body_same.
Qed.

Lemma dfs_visit_same g r c st k :
  same_maze g (d_grid st) -> same_maze g (d_grid (dfs_visit r c st k)).
Proof.
  intros SM. unfold dfs_visit. destruct (_ && _); auto.
  cbn [d_grid]. now apply same_maze_mark_or.
Qed.

Lemma dfs_scan_same g r c ks :
  forall st, same_maze g (d_grid st) ->
             same_maze g (d_grid (fold_left (dfs_visit r c) ks st)).
Proof.
  induction ks as [|k ks IH]; intros st SM; cbn [fold_left]; auto.
  now apply IH, dfs_visit_same.
Qed.

Lemma recon_same g g0 parent cur fuel g' p :
  same_maze g g0 ->
  recon_loop fuel parent (cols g) g0 cur = Some (g', p) -> same_maze g g'.
Proof.
  intros (Hr & Hc & Hce & Hl) E. rewrite <- Hc in E.
  apply recon_loop_spec in E as (Hr' & Hc' & Hce' & Hl' & _).
  repeat split; congruence.
Qed.

Lemma reconstruct_same g g0 parent er ec fuel g' p :
  same_maze g g0 ->
  reconstruct_and_mark fuel g0 parent (cols g) er ec = Some (g', p) -> same_maze g g'.
Proof.
  intros SM. unfold reconstruct_and_mark.
  destruct (_ =? -1).
  - intros E. injection E as <- _. exact SM.
  - now apply recon_same.
Qed.

Section DfsSame.
Variable rand : nat -> Z.

Lemma dfs_body_same g er ec st :
  same_maze g (d_grid st) -> same_maze g (d_grid (dfs_body rand er ec st)).
Proof.
  intros SM. unfold dfs_body, dfs_pop.
  destruct (stack_pop (d_stack st)) as [cur q].
  pose proof (popped_same g (d_grid st) (rc_r cur) (rc_c cur) SM) as SM1.
  cbv zeta in SM1 |- *.
  destruct (_ && _); cbn [d_grid d_rng]; auto.
  destruct (shuffle_ints rand [0; 1; 2; 3] 4 (d_rng st)) as [order rng].
  now apply dfs_scan_same.
Qed.

Lemma dfs_run_same g er ec n :
  forall st, same_maze g (d_grid st) -> same_maze g (d_grid (dfs_run rand n er ec st)).
Proof.
  induction n as [|n IH]; intros st SM; cbn [dfs_run]; auto.
  destruct (dfs_finished st); auto. now apply IH, dfs_body_same.
Qed.
End DfsSame.

(** X15: Neither solver changes the maze: on a grid whose arrays have
    [rows * cols] entries, with the start and the end inside it, the grid
    returned has the dimensions and the cells of the grid passed in. *)
Theorem solve_keeps_maze (rand : nat -> Z) (fuel : nat) (g : Grid)
        (sr sc er ec : Z) (rng : nat) (g' : Grid) (path : list CellRC) :
  wf_grid g -> inside g (RC sr sc) -> inside g (RC er ec) ->
  solve_bfs fuel g sr sc er ec = Some (g', path) \/
  solve_dfs rand fuel g sr sc er ec rng = Some (g', path) ->
  rows g' = rows g /\ cols g' = cols g /\ cells g' = cells g /\
  length (marks g') = length (marks g).
Proof.
  intros WF Hs He [E|E].
  - unfold solve_bfs in E.
    destruct (bfs_finished _); [|discriminate].
    apply (reconstruct_same g) in E; auto.
    apply bfs_run_same. unfold bfs_init; cbn [b_grid]. apply cleared_same.
  - unfold solve_dfs in E.
    destruct (dfs_finished _); [|discriminate].
    apply (reconstruct_same g) in E; auto.
    apply dfs_run_same. unfold dfs_init; cbn [d_grid]. apply cleared_same.
Qed.

(** * No path mark before the reconstruction *)

Lemma bfs_visit_no_path r c st k :
  no_path (b_grid st) -> no_path (b_grid (bfs_visit r c st k)).
Proof.
  intros NP. unfold bfs_visit. destruct (_ && _); auto.
  cbn [b_grid]. now apply no_path_mark_or.
Qed.

Lemma bfs_body_no_path er ec st :
  no_path (b_grid st) -> no_path (b_grid (bfs_body er ec st)).
Proof.
  intros NP. unfold bfs_body.
  pose proof (bfs_pop_no_path st NP) as NP1.
  destruct (bfs_pop st) as [cur st1]. cbn [snd] in NP1.
  destruct (_ && _); cbn [b_grid]; auto.
  cbn [fold_left]. now repeat apply bfs_visit_no_path.
Qed.

Lemma bfs_run_no_path er ec n :
  forall st, no_path (b_grid st) -> no_path (b_grid (bfs_run n er ec st)).
Proof.
  induction n as [|n IH]; intros st NP; cbn [bfs_run]; auto.
  destruct (bfs_finished st); auto. now apply IH, bfs_body_no_path.
Qed.

Lemma dfs_visit_no_path r c st k :
  no_path (d_grid st) -> no_path (d_grid (dfs_visit r c st k)).
Proof.
  intros NP. unfold dfs_visit. destruct (_ && _); auto.
  cbn [d_grid]. now apply no_path_mark_or.
Qed.

Lemma dfs_scan_no_path r c ks :
  forall st, no_path (d_grid st) -> no_path (d_grid (fold_left (dfs_visit r c) ks st)).
Proof.
  induction ks as [|k ks IH]; intros st NP; cbn [fold_left]; auto.
  now apply IH, dfs_visit_no_path.
Qed.

Section DfsNoPath.
Variable rand : nat -> Z.

Lemma dfs_body_no_path er ec st :
  no_path (d_grid st) -> no_path (d_grid (dfs_body rand er ec st)).
Proof.
  intros NP. unfold dfs_body.
  pose proof (dfs_pop_no_path st NP) as NP1.
  destruct (dfs_pop st) as [cur st1]. cbn [snd] in NP1.
  destruct (_ && _); cbn [d_grid]; auto.
  destruct (shuffle_ints rand [0; 1; 2; 3] 4 (d_rng st1)) as [order rng].
  now apply dfs_scan_no_path.
Qed.

Lemma dfs_run_no_path er ec n :
  forall st, no_path (d_grid st) -> no_path (d_grid (dfs_run rand n er ec st)).
Proof.
  induction n as [|n IH]; intros st NP; cbn [dfs_run]; auto.
  destruct (dfs_finished st); auto. now apply IH, dfs_body_no_path.
Qed.
End DfsNoPath.

Lemma cleared_no_path g r c :
  Z.of_nat (length (marks g)) = rows g * cols g ->
  no_path (mark_or (mkGrid (rows g) (cols g) (cells g)
                           (memset (marks g) M_NONE (rows g * cols g))) r c M_FRONT).
Proof.
  intros Hl. apply no_path_mark_or; [reflexivity|]. now apply no_path_cleared.
Qed.

(** * The reconstruction over the links of a search *)

Section ReconResult.
Variables (g : Grid) (s e : CellRC) (parent : list Z) (d : Z -> nat) (g0 : Grid).
Hypothesis WF : wf_grid g.
Hypothesis He : inside g e.
Hypothesis TI : tree_inv g s parent d.
Hypothesis SM : same_maze g g0.
Hypothesis NP : no_path g0.

Local Abbreviation N := (rows g * cols g).
Local Abbreviation W := (cols g).

Lemma recon_result fuel :
  (Z.to_nat N <= fuel)%nat ->
  exists g' path,
    reconstruct_and_mark fuel g0 parent W (rc_r e) (rc_c e) = Some (g', path) /\
    same_maze g g' /\
    (path = [] <-> ~ discovered parent (cidx W e)) /\
    (path <> [] ->
     length path = S (d (cidx W e)) /\
     hd s path = e /\ last path e = s /\
     steps_adjacent path /\ NoDup path /\
     (forall c, In c path -> c = s \/ cell_open g c) /\
     walk g s (d (cidx W e)) e) /\
    (forall p, inside g p ->
               has_path (mark_get g' (rc_r p) (rc_c p)) = true <-> In p path).
Proof.
  intros Hfuel. unfold reconstruct_and_mark. fold (cidx W e).
  destruct (Z.eqb_spec (aget 0 parent (cidx W e)) (-1)) as [E|Hd].
  - exists g0, []. split; [reflexivity|]. split; [exact SM|].
    split; [|split].
    + split; [intros _ Hd; now apply Hd|reflexivity].
    + intros H. now contradiction H.
    + intros p Hp. unfold mark_get. rewrite NP. split; [discriminate|intros []].
  - pose proof (ti_start _ _ _ _ TI) as Hs.
    destruct (tree_recon g s parent d TI (cidx W e) g0 fuel (cidx_range g e He) Hd Hfuel)
      as (g' & p & E & Hlen & Hhd & Hlast & Hst & Hopen & Hnd & Hwalk).
    rewrite cell_of_inside in * by auto.
    exists g', p. split; [exact E|].
    assert (SM' : same_maze g g') by (apply (recon_same g g0 parent _ fuel g' p SM E)).
    split; [exact SM'|].
    assert (Hne : p <> []) by (intros ->; discriminate).
    split; [|split].
    + split; [intros; contradiction|intros H; contradiction].
    + intros _. repeat split; auto.
    + intros q Hq.
      assert (Hc0 : cols g0 = W) by apply SM.
      assert (Hc' : cols g' = W) by apply SM'.
      assert (Hl0 : Z.of_nat (length (marks g0)) = N).
      { destruct SM as (_ & _ & _ & ->). apply WF. }
      rewrite <- Hc0 in E.
      apply recon_loop_spec in E as (_ & _ & _ & _ & _ & _ & _ & Hmarks).
      unfold mark_get. rewrite Hc'. fold (cidx W q).
      rewrite Hmarks by (rewrite Hl0; now apply cidx_range).
      rewrite NP, Hc0. cbn [orb]. rewrite existsb_exists. split.
      * intros (c & Hc & Heq). apply Z.eqb_eq in Heq.
        assert (Hcin : inside g c).
        { destruct (Hopen c Hc) as [->|Ho]; auto. apply Ho. }
        apply (cidx_inj g) in Heq; auto. now subst.
      * intros Hin. exists q. split; auto. apply Z.eqb_refl.
Qed.
End ReconResult.

(** * The result of the two solvers *)

Lemma solve_bfs_result (g : Grid) (s e : CellRC) :
  wf_grid g -> inside g s -> inside g e ->
  exists g' path d,
    solve_bfs (S (Z.to_nat (rows g * cols g))) g (rc_r s) (rc_c s) (rc_r e) (rc_c e)
    = Some (g', path) /\
    same_maze g g' /\
    (path = [] <-> forall k, ~ walk g s k e) /\
    (path <> [] ->
     length path = S d /\
     hd s path = e /\ last path e = s /\
     steps_adjacent path /\ NoDup path /\
     (forall c, In c path -> c = s \/ cell_open g c) /\
     walk g s d e /\
     forall k, walk g s k e -> (d <= k)%nat) /\
    (forall p, inside g p ->
               has_path (mark_get g' (rc_r p) (rc_c p)) = true <-> In p path).
Proof.
  intros WF Hs He. unfold solve_bfs.
  set (st := bfs_run _ _ _ _).
  assert (Hf : bfs_finished st = true) by (apply bfs_solved_finished; auto).
  assert (Hinv : bfs_inv g s e st) by (apply bfs_run_inv, bfs_inv_init; auto).
  assert (NP : no_path (b_grid st)).
  { apply bfs_run_no_path. unfold bfs_init; cbn [b_grid]. apply cleared_no_path, WF. }
  rewrite Hf.
  pose proof Hinv as (d & C & _).
  destruct (recon_result g s e (b_parent st) d (b_grid st) WF He
                         (bc_tree _ _ _ _ C) (bc_maze _ _ _ _ C) NP
                         (S (Z.to_nat (rows g * cols g))) ltac:(lia))
    as (g' & path & E & SM' & Hnil & Hpath & Hmarks).
  exists g', path, (d (cidx (cols g) e)).
  split; [exact E|]. split; [exact SM'|]. split; [|split; [|exact Hmarks]].
  - rewrite Hnil. split.
    + intros Hnd k Hw. apply Hnd.
      apply (bfs_finished_reaches g s e WF Hs st k Hinv Hf Hw).
    + intros Hno Hd.
      apply (Hno (d (cidx (cols g) e))).
      pose proof (tree_walk g s (b_parent st) d (cidx (cols g) e)
                            (bc_tree _ _ _ _ C) (cidx_range g e He) Hd) as Hw.
      now rewrite cell_of_inside in Hw.
  - intros Hne. destruct (Hpath Hne) as (H1 & H2 & H3 & H4 & H5 & H6 & H7).
    repeat split; auto.
    intros k Hw. apply (bc_short _ _ _ _ C k e Hw).
    destruct (discovered_dec (b_parent st) (cidx (cols g) e)) as [Hd|Hd]; auto.
    apply Hnil in Hd. contradiction.
Qed.

Lemma solve_dfs_result (rand : nat -> Z) (g : Grid) (s e : CellRC) (rng : nat) :
  (forall n, 0 <= rand n) ->
  wf_grid g -> inside g s -> inside g e ->
  exists g' path d,
    solve_dfs rand (S (Z.to_nat (rows g * cols g))) g (rc_r s) (rc_c s) (rc_r e) (rc_c e) rng
    = Some (g', path) /\
    same_maze g g' /\
    (path = [] <-> forall k, ~ walk g s k e) /\
    (path <> [] ->
     length path = S d /\
     hd s path = e /\ last path e = s /\
     steps_adjacent path /\ NoDup path /\
     (forall c, In c path -> c = s \/ cell_open g c) /\
     walk g s d e) /\
    (forall p, inside g p ->
               has_path (mark_get g' (rc_r p) (rc_c p)) = true <-> In p path).
Proof.
  intros Hrand WF Hs He. unfold solve_dfs.
  pose proof (dfs_finished_reaches rand Hrand g s e WF Hs He rng
                                   (S (Z.to_nat (rows g * cols g)))) as Hreach.
  cbv zeta in Hreach.
  set (st := dfs_run _ _ _ _ _) in *.
  assert (Hf : dfs_finished st = true) by (apply dfs_solved_finished; auto).
  assert (Hinv : dfs_inv g s e st) by (apply dfs_run_inv, dfs_inv_init; auto).
  assert (NP : no_path (d_grid st)).
  { apply dfs_run_no_path. unfold dfs_init; cbn [d_grid]. apply cleared_no_path, WF. }
  rewrite Hf.
  pose proof Hinv as (d & C & _).
  destruct (recon_result g s e (d_parent st) d (d_grid st) WF He
                         (dc_tree _ _ _ _ C) (dc_maze _ _ _ _ C) NP
                         (S (Z.to_nat (rows g * cols g))) ltac:(lia))
    as (g' & path & E & SM' & Hnil & Hpath & Hmarks).
  exists g', path, (d (cidx (cols g) e)).
  split; [exact E|]. split; [exact SM'|]. split; [|split; [exact Hpath|exact Hmarks]].
  rewrite Hnil. split.
  - intros Hnd k Hw. apply Hnd. exact (Hreach k Hf Hw).
  - intros Hno Hd.
    apply (Hno (d (cidx (cols g) e))).
    pose proof (tree_walk g s (d_parent st) d (cidx (cols g) e)
                          (dc_tree _ _ _ _ C) (cidx_range g e He) Hd) as Hw.
    now rewrite cell_of_inside in Hw.
Qed.

(** X16: [solve_bfs] reports no path exactly when the end cannot be walked to
    from the start over open cells. *)
Theorem bfs_empty_iff_unreachable (g : Grid) (sr sc er ec : Z) :
  wf_grid g -> inside g (RC sr sc) -> inside g (RC er ec) ->
  exists g' path,
    solve_bfs (S (Z.to_nat (rows g * cols g))) g sr sc er ec = Some (g', path) /\
    (path = [] <-> forall k, ~ walk g (RC sr sc) k (RC er ec)).
Proof.
  intros WF Hs He.
  destruct (solve_bfs_result g (RC sr sc) (RC er ec) WF Hs He)
    as (g' & path & d & E & _ & Hnil & _).
  now exists g', path.
Qed.

(** X17: [solve_dfs] finds a path whenever the end can be walked to from the
    start: it reports no path exactly when there is none, and the path it
    reports is a walk over at most [rows * cols] cells. *)
Theorem dfs_empty_iff_unreachable (rand : nat -> Z) (g : Grid) (sr sc er ec : Z)
        (rng : nat) :
  (forall n, 0 <= rand n) ->
  wf_grid g -> inside g (RC sr sc) -> inside g (RC er ec) ->
  exists g' path,
    solve_dfs rand (S (Z.to_nat (rows g * cols g))) g sr sc er ec rng = Some (g', path) /\
    (path = [] <-> forall k, ~ walk g (RC sr sc) k (RC er ec)) /\
    (path <> [] ->
     walk g (RC sr sc) (length path - 1) (RC er ec) /\
     Z.of_nat (length path) <= rows g * cols g).
Proof.
  intros Hrand WF Hs He.
  destruct (solve_dfs_result rand g (RC sr sc) (RC er ec) rng Hrand WF Hs He)
    as (g' & path & d & E & _ & Hnil & Hpath & _).
  exists g', path. split; [exact E|]. split; [exact Hnil|].
  intros Hne. destruct (Hpath Hne) as (Hlen & _ & _ & _ & Hnd & Hopen & Hw).
  split.
  - rewrite Hlen. simpl. now rewrite Nat.sub_0_r.
  - apply (live_bound g path WF Hnd).
    intros c Hc. destruct (Hopen c Hc) as [->|Ho]; auto. apply Ho.
Qed.

(** X18: After either solver has returned, the cells whose mark has the
    [M_PATH] bit are exactly the cells of the path returned, whatever
    marks the grid carried before. *)
Theorem solve_marks_exactly_path (rand : nat -> Z) (g : Grid) (sr sc er ec : Z)
        (rng : nat) :
  (forall n, 0 <= rand n) ->
  wf_grid g -> inside g (RC sr sc) -> inside g (RC er ec) ->
  (exists g' path,
      solve_bfs (S (Z.to_nat (rows g * cols g))) g sr sc er ec = Some (g', path) /\
      forall r c, inside g (RC r c) ->
                  has_path (mark_get g' r c) = true <-> In (RC r c) path) /\
  (exists g' path,
      solve_dfs rand (S (Z.to_nat (rows g * cols g))) g sr sc er ec rng
      = Some (g', path) /\
      forall r c, inside g (RC r c) ->
                  has_path (mark_get g' r c) = true <-> In (RC r c) path).
Proof.
  intros Hrand WF Hs He. split.
  - destruct (solve_bfs_result g (RC sr sc) (RC er ec) WF Hs He)
      as (g' & path & d & E & _ & _ & _ & Hm).
    exists g', path. split; [exact E|]. intros r c Hin. apply (Hm (RC r c) Hin).
  - destruct (solve_dfs_result rand g (RC sr sc) (RC er ec) rng Hrand WF Hs He)
      as (g' & path & d & E & _ & _ & _ & Hm).
    exists g', path. split; [exact E|]. intros r c Hin. apply (Hm (RC r c) Hin).
Qed.

(** * The generated maze is enclosed *)

Section GenExtra.
Variable rand : nat -> Z.
Hypothesis rand_nonneg : forall n, 0 <= rand n.
Variable g : Grid.
Hypothesis WF : wf_grid g.
Hypothesis Hrodd : Z.odd (rows g) = true.
Hypothesis Hcodd : Z.odd (cols g) = true.
Hypothesis Hr3 : 3 <= rows g.
Hypothesis Hc3 : 3 <= cols g.

Local Abbreviation N := (rows g * cols g).
Local Abbreviation W := (cols g).

Lemma gen_init_extra rng :
  gen_enclosed g (gen_init g rng) /\ gen_calls g rng (gen_init g rng).
Proof.
  destruct (gen_fill_spec g WF) as (Sh & Hfill).
  pose proof (first_room g Hr3 Hc3) as Hroom.
  pose proof (interior_inside g _ (proj1 Hroom)) as Hin11.
  pose proof (cidx_range g _ Hin11) as Hi11.
  split.
  - intros p Hp. unfold gen_init; cbn [gn_grid].
    destruct p as [r c]. cbn [rc_r rc_c]. rewrite Hfill by auto.
    destruct (Z.odd r && Z.odd c) eqn:E; [right|now left].
    split; [reflexivity|].
    assert (Hrm : room g (RC r c)) by (apply inside_room; auto).
    split; [apply Hrm|].
    apply andb_true_iff in E as (-> & _). reflexivity.
  - unfold gen_calls, gen_init; cbn [gn_rng gn_vis].
    change (1 * W + 1) with (cidx W (RC 1 1)).
    destruct WF as (Hr & Hc & Hint & Hcl & Hml).
    rewrite count_visited_flip;
      [|rewrite repeat_length; lia|lia|apply aget_repeat; lia].
    replace (count_visited (repeat 0 (Z.to_nat N)) N) with O; [lia|].
    unfold count_visited, count_if.
    rewrite (filter_ext_in _ (fun _ => false)), filter_false; [reflexivity|].
    intros i Hi. apply in_idxs in Hi. rewrite aget_repeat by lia. reflexivity.
Qed.

Lemma gen_body_extra rng0 st :
  gen_inv g st -> 0 < gn_top st ->
  gen_enclosed g st -> gen_calls g rng0 st ->
  gen_enclosed g (gen_body rand st) /\ gen_calls g rng0 (gen_body rand st).
Proof.
  intros I Ht En Ca. unfold gen_body.
  set (cur := aget (RC 0 0) (gn_stack st) (gn_top st - 1)).
  destruct (gen_choices (gn_grid st) (gn_vis st) (rc_r cur) (rc_c cur))
    as [|k0 ks] eqn:Ech.
  - change (Z.of_nat (length (@nil Z)) >? 0) with false. cbv iota.
    split; [exact En|exact Ca].
  - set (choices := k0 :: ks) in *.
    set (ch := Z.of_nat (length choices)).
    assert (Hch : 0 < ch) by (unfold ch, choices; simpl length; lia).
    destruct (Z.gtb_spec ch 0); [|lia].
    set (pick := aget 0 choices (Z.rem (rand (gn_rng st)) ch)).
    assert (Hpick : In pick choices).
    { apply aget_in. apply Z.rem_bound_pos; auto. }
    rewrite <- Ech in Hpick.
    pose proof (gen_top_cell g st I Ht) as Hlive. cbv zeta in Hlive. fold cur in Hlive.
    pose proof (gi_shape _ _ I) as Sh.
    assert (Hcols : cols (gn_grid st) = W) by apply Sh.
    apply (gen_choices_spec g) in Hpick; auto.
    replace (RC (rc_r cur) (rc_c cur)) with cur in Hpick by (now destruct cur).
    destruct Hpick as (Hk & Hnbint & Hnbun).
    assert (Hcurin : In cur (gn_live st))
      by (rewrite Hlive; apply in_or_app; right; now left).
    destruct (gi_live _ _ I cur Hcurin) as ((Hcint & Hcroom) & Hcvis).
    pose proof (wall_between_inside g cur pick Hk Hcint) as Hwin.
    pose proof (interior_inside g _ Hnbint) as Hnbin.
    pose proof (cidx_range g _ Hnbin) as Hnbi.
    rewrite Hcols.
    fold (room_nbr cur pick). fold (wall_between cur pick).
    change (rc_r cur + fst (aget (0, 0) dirs pick)) with (rc_r (room_nbr cur pick)).
    change (rc_c cur + snd (aget (0, 0) dirs pick)) with (rc_c (room_nbr cur pick)).
    change (rc_r cur + Z.quot (fst (aget (0, 0) dirs pick)) 2)
      with (rc_r (wall_between cur pick)).
    change (rc_c cur + Z.quot (snd (aget (0, 0) dirs pick)) 2)
      with (rc_c (wall_between cur pick)).
    fold (cidx W (room_nbr cur pick)).
    split.
    + intros p Hp. cbn [gn_grid].
      rewrite (shape_get_set g WF) by auto.
      destruct ((rc_r (wall_between cur pick) =? rc_r p)
                && (rc_c (wall_between cur pick) =? rc_c p)) eqn:E; [|now apply En].
      right. split; [reflexivity|].
      apply andb_true_iff in E as (E1 & E2). apply Z.eqb_eq in E1, E2.
      destruct (dirs_spec cur pick Hk) as (dr & dc & Habs & Hnb & Hw).
      rewrite Hw in E1, E2. cbn [rc_r rc_c] in E1, E2.
      rewrite Hnb in Hnbint. unfold interior in Hnbint, Hcint |- *.
      cbn [rc_r rc_c] in Hnbint.
      apply is_room_odd in Hcroom as (a & b & Ha & Hb).
      split; [lia|].
      assert (Hcase : (dr = 0 /\ (dc = 1 \/ dc = -1)) \/ (dc = 0 /\ (dr = 1 \/ dr = -1)))
        by lia.
      destruct Hcase as [(-> & _)|(-> & _)].
      * replace (rc_r p) with (1 + 2 * a) by lia.
        rewrite Z.odd_add_mul_2. reflexivity.
      * replace (rc_c p) with (1 + 2 * b) by lia.
        rewrite Z.odd_add_mul_2. apply orb_true_r.
    + unfold gen_calls in *. cbn [gn_rng gn_vis].
      rewrite count_visited_flip; auto; try lia.
      exact (gi_vis_len _ _ I).
Qed.

Lemma gen_run_extra rng0 n :
  forall st, gen_inv g st -> gen_enclosed g st -> gen_calls g rng0 st ->
             gen_enclosed g (gen_run rand n st) /\ gen_calls g rng0 (gen_run rand n st).
Proof.
  induction n as [|n IH]; intros st I En Ca; cbn [gen_run]; auto.
  destruct (Z.gtb_spec (gn_top st) 0); auto.
  destruct (gen_body_extra rng0 st I ltac:(lia) En Ca) as (En' & Ca').
  apply IH; auto.
  now apply (gen_body_inv rand rand_nonneg g WF Hrodd Hcodd).
Qed.

Lemma generate_maze_result rng :
  exists st,
    generate_maze rand (Z.to_nat (2 * N)) g rng = Some (gn_grid st, gn_rng st) /\
    gen_inv g st /\ gn_top st <= 0 /\
    gen_enclosed g st /\ gen_calls g rng st /\
    (forall p, room g p -> visited (gn_vis st) (cidx W p)).
Proof.
  destruct (gen_init_inv g WF Hrodd Hcodd Hr3 Hc3 rng) as (I0 & Hm0 & _).
  destruct (gen_init_extra rng) as (En0 & Ca0).
  unfold generate_maze.
  set (st := gen_run rand _ _).
  assert (I : gen_inv g st) by (apply gen_run_inv; auto).
  assert (Ht : gn_top st <= 0).
  { apply (gen_run_done rand rand_nonneg g); auto. lia. }
  destruct (gen_run_extra rng (Z.to_nat (2 * N)) _ I0 En0 Ca0) as (En & Ca).
  fold st in En, Ca.
  exists st. destruct (Z.gtb_spec (gn_top st) 0); [lia|].
  split; [reflexivity|]. split; [exact I|]. split; [exact Ht|].
  split; [exact En|]. split; [exact Ca|].
  now apply all_rooms_visited.
Qed.
Lemma visited_rooms_count st :
  gen_inv g st ->
  (forall p, room g p -> visited (gn_vis st) (cidx W p)) ->
  count_visited (gn_vis st) N = length (room_cells (gn_grid st)).
Proof.
  intros I Hall. pose proof (gi_shape _ _ I) as Sh.
  unfold count_visited, count_if, room_cells.
  assert (Hcg : cols (gn_grid st) = cols g) by apply Sh.
  assert (Hrg : rows (gn_grid st) = rows g) by apply Sh.
  rewrite Hcg, Hrg. f_equal. apply filter_ext_in.
  intros i Hi. apply in_idxs in Hi.
  destruct (is_room (cell_of (cols g) i)) eqn:Eroom.
  - assert (Hv : visited (gn_vis st) (cidx (cols g) (cell_of (cols g) i))).
    { apply Hall. apply inside_room; auto. apply cell_of_range; auto. apply WF. }
    rewrite cidx_cell_of in Hv. unfold visited in Hv.
    apply negb_true_iff. now apply Z.eqb_neq.
  - apply negb_false_iff. apply Z.eqb_eq.
    destruct (Z.eq_dec (aget 0 (gn_vis st) i) 0) as [E|E]; auto.
    destruct (gi_vis_room _ _ I i Hi E) as (_ & Hroom). congruence.
Qed.
End GenExtra.

(** X19: After [generate_maze] every cell is a wall or open: the cells on the
    border and the cells with both coordinates even are walls, the cells
    with both coordinates odd are open. *)
Theorem generate_maze_enclosed (rand : nat -> Z) (g : Grid) (rng : nat) :
  (forall n, 0 <= rand n) ->
  wf_grid g ->
  Z.odd (rows g) = true -> Z.odd (cols g) = true ->
  11 <= rows g -> 11 <= cols g ->
  exists g' rng',
    generate_maze rand (Z.to_nat (2 * (rows g * cols g))) g rng = Some (g', rng') /\
    forall r c, inside g (RC r c) ->
      (grid_get g' r c = 0 \/ grid_get g' r c = 1) /\
      (r = 0 \/ r = rows g - 1 \/ c = 0 \/ c = cols g - 1 -> grid_get g' r c = 1) /\
      (Z.even r = true -> Z.even c = true -> grid_get g' r c = 1) /\
      (Z.odd r = true -> Z.odd c = true -> grid_get g' r c = 0).
Proof.
  intros Hrand WF Hro Hco Hr Hc.
  destruct (generate_maze_result rand Hrand g WF Hro Hco ltac:(lia) ltac:(lia) rng)
    as (st & E & I & _ & En & _).
  exists (gn_grid st), (gn_rng st). split; [exact E|].
  intros r c Hin. specialize (En (RC r c) Hin). cbn [rc_r rc_c] in En.
  split; [|split; [|split]].
  - destruct En as [En|(En & _)]; auto.
  - intros Hb. destruct En as [En|(_ & (Hi1 & Hi2) & _)]; auto.
    cbn [rc_r rc_c] in Hi1, Hi2. lia.
  - intros Her Hec. destruct En as [En|(_ & _ & Ho)]; auto.
    rewrite <- !Z.negb_even, Her, Hec in Ho. discriminate.
  - intros Hor Hoc. apply (gi_rooms_open _ _ I (RC r c) Hin).
    unfold is_room; cbn [rc_r rc_c]. now rewrite Hor, Hoc.
Qed.

(** X20: [generate_maze] calls [rand()] once for every wall it opens, that is
    once for every room but the first. *)
Theorem generate_maze_rand_calls (rand : nat -> Z) (g : Grid) (rng : nat) :
  (forall n, 0 <= rand n) ->
  wf_grid g ->
  Z.odd (rows g) = true -> Z.odd (cols g) = true ->
  11 <= rows g -> 11 <= cols g ->
  exists g' rng',
    generate_maze rand (Z.to_nat (2 * (rows g * cols g))) g rng = Some (g', rng') /\
    rng' = (rng + length (open_walls g'))%nat /\
    S rng' = (rng + length (room_cells g'))%nat.
Proof.
  intros Hrand WF Hro Hco Hr Hc.
  destruct (generate_maze_result rand Hrand g WF Hro Hco ltac:(lia) ltac:(lia) rng)
    as (st & E & I & _ & _ & Ca & Hall).
  exists (gn_grid st), (gn_rng st). split; [exact E|].
  unfold gen_calls in Ca.
  pose proof (gi_count _ _ I) as Hcount.
  pose proof (visited_rooms_count g WF Hro Hco st I Hall) as Hrooms.
  lia.
Qed.

(** * The theorems at concrete inputs *)

Lemma wf_corridor : wf_grid corridor.
Proof. unfold wf_grid, INT_MAX; simpl; lia. Defined.

Lemma rand_zero_nonneg : forall n, 0 <= rand_zero n.
Proof. intros n; unfold rand_zero; lia. Defined.

Lemma corridor_walk : walk corridor (RC 0 0) 2 (RC 0 2).
Proof.
  apply (walk_step corridor (RC 0 0) 1 (RC 0 1) (RC 0 2)).
  - apply (walk_step corridor (RC 0 0) 0 (RC 0 0) (RC 0 1)).
    + apply walk_here.
    + reflexivity.
    + split; reflexivity.
  - reflexivity.
  - split; reflexivity.
Defined.

Lemma bfs_shortest_path_witness :
  exists g' path,
    solve_bfs (S (Z.to_nat (rows corridor * cols corridor))) corridor 0 0 0 2
    = Some (g', path) /\
    hd (RC 0 0) path = RC 0 2 /\
    last path (RC 0 2) = RC 0 0 /\
    steps_adjacent path /\
    walk corridor (RC 0 0) (length path - 1) (RC 0 2) /\
    forall k', walk corridor (RC 0 0) k' (RC 0 2) -> (length path - 1 <= k')%nat.
Proof.
  apply (bfs_shortest_path corridor 0 0 0 2 2).
  - exact wf_corridor.
  - reflexivity.
  - reflexivity.
  - exact corridor_walk.
Defined.

Lemma parent_assigned_once_witness :
  (let pn := b_parent (bfs_run 1 0 2 (bfs_init corridor 0 0)) in
   let pm := b_parent (bfs_run 2 0 2 (bfs_init corridor 0 0)) in
   aget 0 pn 1 <> -1 -> aget 0 pm 1 = aget 0 pn 1) /\
  (let pn := d_parent (dfs_run rand_zero 1 0 2 (dfs_init corridor 0 0 0)) in
   let pm := d_parent (dfs_run rand_zero 2 0 2 (dfs_init corridor 0 0 0)) in
   aget 0 pn 1 <> -1 -> aget 0 pm 1 = aget 0 pn 1) /\
  (forall r c st k, aget 0 (b_parent st) 1 <> -1 ->
                    aget 0 (b_parent (bfs_visit r c st k)) 1 = aget 0 (b_parent st) 1) /\
  (forall r c st k, aget 0 (d_parent st) 1 <> -1 ->
                    aget 0 (d_parent (dfs_visit r c st k)) 1 = aget 0 (d_parent st) 1).
Proof.
  apply (parent_assigned_once rand_zero corridor 0 0 0 2 0 1 2 1). lia.
Defined.

Lemma generate_maze_spanning_tree_witness :
  exists g' rng',
    generate_maze rand_zero
                  (Z.to_nat (2 * (rows (fresh11) * cols (fresh11))))
                  (fresh11) 0
    = Some (g', rng') /\
    shape (fresh11) g' /\
    (forall p, inside (fresh11) p -> is_room p = true ->
               cell_open g' p /\ exists k, walk g' (RC 1 1) k p) /\
    S (length (open_walls g')) = length (room_cells g').
Proof.
  apply (generate_maze_spanning_tree rand_zero (fresh11) 0).
  - exact rand_zero_nonneg.
  - unfold wf_grid, INT_MAX; simpl; lia.
  - reflexivity.
  - reflexivity.
  - simpl; lia.
  - simpl; lia.
Defined.

Lemma dfs_path_valid_witness :
  exists g' path,
    solve_dfs rand_zero (S (Z.to_nat (rows corridor * cols corridor))) corridor 0 0 0 2 0
    = Some (g', path) /\
    (path <> [] ->
     NoDup path /\
     Forall (cell_open corridor) path /\
     steps_adjacent path /\
     hd (RC 0 0) path = RC 0 2 /\
     last path (RC 0 2) = RC 0 0).
Proof.
  apply (dfs_path_valid rand_zero corridor 0 0 0 2 0).
  - exact rand_zero_nonneg.
  - exact wf_corridor.
  - split; reflexivity.
  - reflexivity.
Defined.

Lemma reconstruct_unset_no_marks_witness :
  reconstruct_and_mark 3 corridor [-2; 0; -1] 3 0 2 = Some (corridor, []).
Proof.
  apply (reconstruct_unset_no_marks 3 corridor [-2; 0; -1] 3 0 2). reflexivity.
Defined.

(** Links that all point to smaller indices cannot form a cycle. *)
Lemma ancestor_decreasing (parent : list Z) (n : Z) :
  (forall i, 0 <= i < n -> -2 <= aget 0 parent i < i) ->
  forall k i, 0 <= i < n -> (0 < k)%nat -> ancestor parent k i < i.
Proof.
  intros H. induction k as [|k IH]; intros i Hi Hk; [lia|].
  rewrite ancestor_succ by lia.
  pose proof (H i Hi) as Hp.
  destruct k as [|k]; [simpl; lia|].
  destruct (Z.ltb_spec (aget 0 parent i) 0).
  - rewrite ancestor_sentinel by lia. lia.
  - specialize (IH (aget 0 parent i)). lia.
Qed.

Lemma corridor_parent_values i :
  0 <= i < 3 ->
  (i = 0 /\ aget 0 corridor_parent i = -2) \/
  (i = 1 /\ aget 0 corridor_parent i = 0) \/
  (i = 2 /\ aget 0 corridor_parent i = 1).
Proof.
  intros Hi. assert (i = 0 \/ i = 1 \/ i = 2) as [-> | [-> | ->]] by lia.
  - left. split; reflexivity.
  - right; left. split; reflexivity.
  - right; right. split; reflexivity.
Defined.

Lemma corridor_parent_tree : parent_tree 3 0 corridor_parent.
Proof.
  constructor.
  - reflexivity.
  - lia.
  - reflexivity.
  - intros i Hi. destruct (corridor_parent_values i Hi) as [[-> E] | [[-> E] | [-> E]]];
      rewrite E; intros; lia.
  - intros i Hi. destruct (corridor_parent_values i Hi) as [[-> E] | [[-> E] | [-> E]]];
      rewrite E; intros; try lia.
    + split; [lia|]. change (aget 0 corridor_parent 0) with (-2). lia.
    + split; [lia|]. change (aget 0 corridor_parent 1) with 0. lia.
  - intros i k Hi Hk.
    assert (ancestor corridor_parent k i < i); [|lia].
    apply (ancestor_decreasing corridor_parent 3); auto.
    intros j Hj. destruct (corridor_parent_values j Hj) as [[-> E] | [[-> E] | [-> E]]];
      rewrite E; lia.
Defined.

Lemma reconstruct_reaches_root_witness :
  exists g' path,
    reconstruct_and_mark (Z.to_nat (rows corridor * cols corridor)) corridor
                         corridor_parent (cols corridor) 0 2
    = Some (g', path) /\
    (0 < length path)%nat /\
    Z.of_nat (length path) <= rows corridor * cols corridor /\
    ancestor corridor_parent (length path) (0 * cols corridor + 2) = -2 /\
    last path (RC 0 2) = RC 0 0 /\
    has_path (mark_get g' 0 0) = true.
Proof.
  apply (reconstruct_reaches_root corridor corridor_parent 0 0 0 2).
  - exact wf_corridor.
  - exact corridor_parent_tree.
  - reflexivity.
  - reflexivity.
  - vm_compute; discriminate.
Defined.

Lemma search_terminates_witness :
  let fuel := S (Z.to_nat (rows corridor * cols corridor)) in
  let b := bfs_run fuel 0 2 (bfs_init corridor 0 0) in
  let d := dfs_run rand_zero fuel 0 2 (dfs_init corridor 0 0 0) in
  (bfs_finished b = true /\
   (b_brk b = false -> aget 0 (b_parent b) (0 * cols corridor + 2) = -1)) /\
  (dfs_finished d = true /\
   (d_brk d = false -> aget 0 (d_parent d) (0 * cols corridor + 2) = -1)) /\
  ((forall k, ~ walk corridor (RC 0 0) k (RC 0 2)) ->
   aget 0 (b_parent b) (0 * cols corridor + 2) = -1 /\
   aget 0 (d_parent d) (0 * cols corridor + 2) = -1).
Proof.
  apply (search_terminates rand_zero corridor 0 0 0 2 0).
  - exact rand_zero_nonneg.
  - exact wf_corridor.
  - reflexivity.
  - reflexivity.
Defined.

Lemma start_equals_end_single_cell_witness :
  (exists g',
      solve_bfs 1 corridor 0 1 0 1 = Some (g', [RC 0 1]) /\
      forall i, 0 <= i < rows corridor * cols corridor ->
                has_path (aget 0 (marks g') i) = (i =? 0 * cols corridor + 1)) /\
  (exists g',
      solve_dfs rand_zero 1 corridor 0 1 0 1 0 = Some (g', [RC 0 1]) /\
      forall i, 0 <= i < rows corridor * cols corridor ->
                has_path (aget 0 (marks g') i) = (i =? 0 * cols corridor + 1)).
Proof.
  apply (start_equals_end_single_cell rand_zero corridor 0 1 0 0).
  - exact wf_corridor.
  - reflexivity.
Defined.

Lemma frontier_capacity_never_exceeded_witness :
  (let st := bfs_run 1 0 2 (bfs_init corridor 0 0) in
   queue_safe (rows corridor * cols corridor) (b_parent st) (b_queue st) /\
   (forall i, aget 0 (b_parent st) i <> -1 ->
              aget 0 (b_parent (bfs_run (1 + 4) 0 2 (bfs_init corridor 0 0))) i <> -1) /\
   (bfs_finished st = false ->
    let cur := fst (bfs_pop st) in
    let st1 := snd (bfs_pop st) in
    let st2 := fold_left (bfs_visit (rc_r cur) (rc_c cur)) (firstn 4 [0; 1; 2; 3]) st1 in
    queue_safe (rows corridor * cols corridor) (b_parent st2) (b_queue st2) /\
    forall k, bfs_push_fresh (rc_r cur) (rc_c cur) st2 k)) /\
  (let st := dfs_run rand_zero 1 0 2 (dfs_init corridor 0 0 0) in
   stack_safe (rows corridor * cols corridor) (d_stack st) /\
   (forall i, aget 0 (marks (d_grid st)) i <> M_NONE ->
              aget 0 (marks (d_grid (dfs_run rand_zero (1 + 4) 0 2
                                             (dfs_init corridor 0 0 0)))) i
              <> M_NONE) /\
   (dfs_finished st = false ->
    let cur := fst (dfs_pop st) in
    let st1 := snd (dfs_pop st) in
    let sh := shuffle_ints rand_zero [0; 1; 2; 3] 4 (d_rng st1) in
    let st2 := fold_left (dfs_visit (rc_r cur) (rc_c cur)) (firstn 4 (fst sh))
                         (mkDfs (d_grid st1) (d_parent st1) (d_stack st1) (snd sh)
                                (d_brk st1)) in
    stack_safe (rows corridor * cols corridor) (d_stack st2) /\
    forall k, dfs_push_fresh (rc_r cur) (rc_c cur) st2 k)).
Proof.
  apply (frontier_capacity_never_exceeded rand_zero corridor 0 0 0 2 0 1 4).
  - exact rand_zero_nonneg.
  - exact wf_corridor.
  - reflexivity.
  - reflexivity.
Defined.

(** The breadth-first path through the corridor, end first. *)
Example corridor_bfs_path :
  option_map snd (solve_bfs 4 corridor 0 0 0 2) = Some [RC 0 2; RC 0 1; RC 0 0].
Proof. reflexivity. Qed.

(** * When the reconstruction returns *)



(** * One round of main *)

Lemma cell_open_same g g' p : same_maze g g' -> cell_open g p <-> cell_open g' p.
Proof.
  intros SM. unfold cell_open, inside.
  now rewrite (same_maze_is_inside g g'), (same_maze_grid_get g g') by auto.
Qed.

Lemma wf_grid_same g g' : same_maze g g' -> wf_grid g -> wf_grid g'.
Proof.
  intros (Hr & Hc & Hce & Hl) (H1 & H2 & H3 & H4 & H5).
  unfold wf_grid. rewrite Hr, Hc, Hce, Hl. auto.
Qed.

Lemma wf_grid_shape g g' : shape g g' -> wf_grid g -> wf_grid g'.
Proof.
  intros (Hr & Hc & Hm & Hl) (H1 & H2 & H3 & H4 & H5).
  unfold wf_grid. rewrite Hr, Hc, Hm, Hl. auto.
Qed.

(** X22: A round of the loop of [main] on a grid of odd dimensions, each at
    least 11: the maze is generated, the chosen solver returns, and the
    path it reports leads from the end [(rows - 2, cols - 2)] back to the
    start [(1, 1)] over open cells of the maze, in single steps and
    without repeating a cell; with breadth-first search no walk between
    the two is shorter.  The grid left behind has the same dimensions, so
    the next round starts under the same conditions. *)
Theorem main_round_solves (rand : nat -> Z) (algo_choice : Z) (g : Grid) (rng : nat) :
  (forall n, 0 <= rand n) ->
  wf_grid g ->
  Z.odd (rows g) = true -> Z.odd (cols g) = true ->
  11 <= rows g -> 11 <= cols g ->
  let s := RC 1 1 in
  let e := RC (rows g - 2) (cols g - 2) in
  exists g2 path,
    main_round rand (Z.to_nat (2 * (rows g * cols g))) (S (Z.to_nat (rows g * cols g)))
               algo_choice g rng = Some (g2, path) /\
    hd s path = e /\ last path e = s /\
    steps_adjacent path /\ NoDup path /\
    Forall (cell_open g2) path /\
    (algo_choice <> 1 ->
     forall k, walk g2 s k e -> (length path - 1 <= k)%nat) /\
    wf_grid g2 /\ rows g2 = rows g /\ cols g2 = cols g.
Proof.
  intros Hrand WF Hro Hco Hr Hc s e.
  destruct (generate_maze_result rand Hrand g WF Hro Hco ltac:(lia) ltac:(lia) rng)
    as (st & E & I & _ & _ & _ & Hall).
  unfold main_round. rewrite E.
  set (g1 := gn_grid st).
  pose proof (gi_shape _ _ I) as Sh. fold g1 in Sh.
  assert (Hr1 : rows g1 = rows g) by apply Sh.
  assert (Hc1 : cols g1 = cols g) by apply Sh.
  assert (WF1 : wf_grid g1) by (now apply (wf_grid_shape g)).
  assert (Hsroom : room g s) by (apply first_room; lia).
  assert (Heroom : room g e).
  { split; [unfold interior, e; cbn [rc_r rc_c]; lia|].
    unfold is_room, e; cbn [rc_r rc_c]. rewrite !Z.odd_sub, Hro, Hco. reflexivity. }
  assert (Hs : inside g s) by (apply interior_inside, Hsroom).
  assert (He : inside g e) by (apply interior_inside, Heroom).
  assert (Hs1 : inside g1 s) by (now apply (shape_inside g g1)).
  assert (He1 : inside g1 e) by (now apply (shape_inside g g1)).
  assert (Hso : cell_open g1 s).
  { split; auto. apply (gi_rooms_open _ _ I s Hs). apply Hsroom. }
  assert (Hw : exists k, walk g1 s k e).
  { destruct (gi_reach _ _ I (cidx (cols g) e) (cidx_range g e He) (Hall e Heroom))
      as (k & Hk).
    exists k. now rewrite cell_of_inside in Hk. }
  destruct Hw as (k0 & Hw).
  destruct (Z.eqb_spec algo_choice 1) as [Ea|Ea].
  - destruct (solve_dfs_result rand g1 s e (gn_rng st) Hrand WF1 Hs1 He1)
      as (g2 & path & d & Es & SM & Hnil & Hpath & _).
    unfold s, e in Es; cbn [rc_r rc_c] in Es. rewrite Hr1, Hc1 in Es.
    exists g2, path. split; [exact Es|].
    assert (Hne : path <> []) by (intros En; exact (proj1 Hnil En k0 Hw)).
    destruct (Hpath Hne) as (Hlen & Hhd & Hlast & Hst & Hnd & Hopen & _).
    split; [exact Hhd|]. split; [exact Hlast|]. split; [exact Hst|]. split; [exact Hnd|].
    split; [|split; [intros; contradiction|]].
    + apply Forall_forall. intros c Hin. apply (cell_open_same g1 g2 c SM).
      destruct (Hopen c Hin) as [->|Ho]; auto.
    + split; [now apply (wf_grid_same g1)|].
      destruct SM as (-> & -> & _). auto.
  - destruct (solve_bfs_result g1 s e WF1 Hs1 He1)
      as (g2 & path & d & Es & SM & Hnil & Hpath & _).
    unfold s, e in Es; cbn [rc_r rc_c] in Es. rewrite Hr1, Hc1 in Es.
    exists g2, path. split; [exact Es|].
    assert (Hne : path <> []) by (intros En; exact (proj1 Hnil En k0 Hw)).
    destruct (Hpath Hne) as (Hlen & Hhd & Hlast & Hst & Hnd & Hopen & _ & Hshort).
    split; [exact Hhd|]. split; [exact Hlast|]. split; [exact Hst|]. split; [exact Hnd|].
    split; [|split].
    + apply Forall_forall. intros c Hin. apply (cell_open_same g1 g2 c SM).
      destruct (Hopen c Hin) as [->|Ho]; auto.
    + intros _ k Hk. rewrite Hlen. simpl. rewrite Nat.sub_0_r.
      apply Hshort. apply (walk_mono g2 g1); auto.
      intros q. apply (cell_open_same g1 g2 q SM).
    + split; [now apply (wf_grid_same g1)|].
      destruct SM as (-> & -> & _). auto.
Qed.

(** * The frame drawn by draw_grid *)

Lemma append_nil_r s : String.append s String.EmptyString = s.
Proof. induction s as [|a s IH]; simpl; congruence. Qed.

Lemma append_assoc a b c :
  String.append (String.append a b) c = String.append a (String.append b c).
Proof. induction a as [|x a IH]; simpl; congruence. Qed.

Lemma for_loop_ext {S : Type} (body body' : Z -> S -> S) hi step :
  (forall i s, body i s = body' i s) ->
  forall fuel i s, for_loop fuel i hi step body s = for_loop fuel i hi step body' s.
Proof.
  intros Hext. induction fuel as [|fuel IH]; intros i s; simpl; auto.
  destruct (i <? hi); auto. now rewrite Hext, IH.
Qed.

Lemma for_loop_cat (f : Z -> String.string) hi :
  forall (k : nat) i out,
    0 <= i -> i + Z.of_nat k = hi ->
    for_loop k i hi 1 (fun j o => String.append o (f j)) out
    = String.append out (cat_all (map f (map Z.of_nat (seq (Z.to_nat i) k)))).
Proof.
  induction k as [|k IH]; intros i out Hi Hk.
  - simpl. now rewrite append_nil_r.
  - cbn [for_loop]. destruct (Z.ltb_spec i hi); [|lia].
    rewrite IH by lia. rewrite append_assoc. cbn [seq map cat_all fold_right].
    rewrite Z2Nat.id by lia.
    replace (Z.to_nat (i + 1)) with (S (Z.to_nat i)) by lia.
    reflexivity.
Qed.

Lemma for_range_cat (f : Z -> String.string) n out :
  0 <= n ->
  for_range 0 n 1 (fun j o => String.append o (f j)) out
  = String.append out (cat_all (map f (idxs n))).
Proof.
  intros Hn. unfold for_range, idxs. rewrite Z.sub_0_r.
  apply (for_loop_cat f n (Z.to_nat n) 0 out); lia.
Qed.

(** X23: [draw_grid] writes the cursor-home sequence and then one line for
    every row, top to bottom; a line holds the blocks of the cells of the
    row, left to right, and ends with a newline. *)
Theorem draw_grid_rows (g : Grid) (sr sc er ec : Z) :
  0 <= rows g -> 0 <= cols g ->
  draw_grid g sr sc er ec
  = String.append move_cursor_home
      (cat_all (map (fun r =>
                       String.append
                         (cat_all (map (fun c => draw_cell g sr sc er ec r c)
                                       (idxs (cols g))))
                         newline)
                    (idxs (rows g)))).
Proof.
  intros Hr Hc. unfold draw_grid.
  rewrite <- (for_range_cat
                (fun r => String.append
                            (cat_all (map (fun c => draw_cell g sr sc er ec r c)
                                          (idxs (cols g))))
                            newline)) by auto.
  unfold for_range. apply for_loop_ext. intros r out.
  fold (for_range 0 (cols g) 1
                  (fun c line => String.append line (draw_cell g sr sc er ec r c)) out).
  rewrite (for_range_cat (fun c => draw_cell g sr sc er ec r c)) by auto.
  apply append_assoc.
Qed.






(** * The further theorems at concrete inputs *)

Lemma stack_push_pop_witness :
  let s := stack_create 2 in
  let v := RC 1 1 in
  fst (stack_pop (stack_push s v)) = v /\
  s_top (snd (stack_pop (stack_push s v))) = s_top s /\
  s_cap (snd (stack_pop (stack_push s v))) = s_cap s /\
  s_live (snd (stack_pop (stack_push s v))) = s_live s.
Proof.
  apply (stack_push_pop (stack_create 2) (RC 1 1)).
  - reflexivity.
  - simpl; lia.
Defined.

Lemma stack_push_all_keeps_first_witness :
  let s := fold_left stack_push [RC 0 0; RC 0 1; RC 0 2] (stack_create 2) in
  s_live s = firstn (Z.to_nat 2) [RC 0 0; RC 0 1; RC 0 2] /\
  s_top s = Z.min 2 (Z.of_nat (length [RC 0 0; RC 0 1; RC 0 2])) /\
  (stack_empty s = true <-> 2 = 0 \/ [RC 0 0; RC 0 1; RC 0 2] = []).
Proof.
  apply (stack_push_all_keeps_first 2 [RC 0 0; RC 0 1; RC 0 2]). lia.
Defined.

Lemma q_wf_create3 : q_wf (queue_create 3).
Proof. unfold q_wf; simpl; lia. Defined.

Lemma q_wf_one : q_wf (queue_push (queue_create 2) (RC 1 1)).
Proof. unfold q_wf; simpl; lia. Defined.

Lemma queue_push_appends_witness :
  q_wf (queue_push (queue_create 3) (RC 1 1)) /\
  q_contents (queue_push (queue_create 3) (RC 1 1))
  = q_contents (queue_create 3) ++ [RC 1 1].
Proof.
  apply (queue_push_appends (queue_create 3) (RC 1 1)).
  - exact q_wf_create3.
  - vm_compute. reflexivity.
Defined.

Lemma queue_pop_takes_first_witness :
  let q := queue_push (queue_create 2) (RC 1 1) in
  queue_empty q = false /\
  fst (queue_pop q) = RC 1 1 /\
  q_wf (snd (queue_pop q)) /\
  q_contents (snd (queue_pop q)) = [].
Proof.
  apply (queue_pop_takes_first (queue_push (queue_create 2) (RC 1 1)) (RC 1 1) []).
  - exact q_wf_one.
  - reflexivity.
Defined.

Lemma queue_empty_no_contents_witness :
  queue_empty (queue_create 3) = true <-> q_contents (queue_create 3) = [].
Proof.
  apply (queue_empty_no_contents (queue_create 3)). exact q_wf_create3.
Defined.

Lemma queue_push_full_reads_empty_witness :
  let q := queue_push (queue_create 2) (RC 1 1) in
  queue_empty (queue_push q (RC 2 2)) = true /\
  q_contents (queue_push q (RC 2 2)) = [].
Proof.
  apply (queue_push_full_reads_empty (queue_push (queue_create 2) (RC 1 1)) (RC 2 2)).
  - exact q_wf_one.
  - reflexivity.
Defined.

Lemma cell_index_roundtrip_witness :
  (forall p, inside corridor p ->
             0 <= cidx (cols corridor) p < rows corridor * cols corridor /\
             cell_of (cols corridor) (cidx (cols corridor) p) = p) /\
  (forall i, 0 <= i < rows corridor * cols corridor ->
             inside corridor (cell_of (cols corridor) i) /\
             cidx (cols corridor) (cell_of (cols corridor) i) = i).
Proof. apply (cell_index_roundtrip corridor). exact wf_corridor. Defined.

Lemma grid_set_get_witness :
  grid_get (grid_set corridor 0 1 1) 0 1
  = (if (0 =? 0) && (1 =? 1) then to_uchar 1 else grid_get corridor 0 1) /\
  (0 <= 1 < 256 -> grid_get (grid_set corridor 0 1 1) 0 1 = 1) /\
  mark_get (grid_set corridor 0 1 1) 0 1 = mark_get corridor 0 1 /\
  wf_grid (grid_set corridor 0 1 1).
Proof.
  apply (grid_set_get corridor 0 1 1 0 1).
  - exact wf_corridor.
  - reflexivity.
  - reflexivity.
Defined.

Lemma mark_set_get_witness :
  mark_get (mark_set corridor 0 1 4) 0 1
  = (if (0 =? 0) && (1 =? 1) then to_uchar 4 else mark_get corridor 0 1) /\
  (0 <= 4 < 256 -> mark_get (mark_set corridor 0 1 4) 0 1 = 4) /\
  grid_get (mark_set corridor 0 1 4) 0 1 = grid_get corridor 0 1.
Proof.
  apply (mark_set_get corridor 0 1 4 0 1).
  - exact wf_corridor.
  - reflexivity.
  - reflexivity.
Defined.

(** A value that is not a byte is stored reduced: 257 reads back as 1 and
    300 as 44. *)
Example set_reduces_to_byte :
  grid_get (grid_set corridor 0 1 257) 0 1 = 1 /\
  mark_get (mark_set corridor 0 1 300) 0 1 = 44.
Proof. split; reflexivity. Qed.

Lemma mark_or_andnot_bits_witness :
  Z.testbit (mark_get (mark_or corridor 0 1 M_FRONT) 0 1) 1
  = (if (0 =? 0) && (1 =? 1)
     then Z.testbit (mark_get corridor 0 1) 1 || Z.testbit M_FRONT 1
     else Z.testbit (mark_get corridor 0 1) 1) /\
  Z.testbit (mark_get (mark_andnot corridor 0 1 M_FRONT) 0 1) 1
  = (if (0 =? 0) && (1 =? 1)
     then Z.testbit (mark_get corridor 0 1) 1 && negb (Z.testbit M_FRONT 1)
     else Z.testbit (mark_get corridor 0 1) 1) /\
  0 <= mark_get (mark_or corridor 0 1 M_FRONT) 0 1 < 256 /\
  0 <= mark_get (mark_andnot corridor 0 1 M_FRONT) 0 1 < 256 /\
  cells (mark_or corridor 0 1 M_FRONT) = cells corridor /\
  cells (mark_andnot corridor 0 1 M_FRONT) = cells corridor.
Proof.
  apply (mark_or_andnot_bits corridor 0 1 M_FRONT 0 1 1).
  - exact wf_corridor.
  - reflexivity.
  - reflexivity.
  - lia.
Defined.


(** [fresh11] is the grid [grid_init] makes for 11 rows and 11 columns;
    with too little memory, or a negative size, it makes none. *)
Example grid_init_fresh11 :
  grid_init (repeat 7 200) (repeat 9 200) 11 11 = Some fresh11 /\
  grid_init (repeat 7 200) (repeat 9 100) 11 11 = None /\
  grid_init (repeat 7 200) (repeat 9 200) (-1) 3 = None.
Proof. repeat split; reflexivity. Qed.

Lemma shuffle_ints_permutes_witness :
  Permutation (fst (shuffle_ints rand_zero [0; 1; 2; 3] 4 0)) [0; 1; 2; 3] /\
  snd (shuffle_ints rand_zero [0; 1; 2; 3] 4 0) = (0 + Z.to_nat (4 - 1))%nat /\
  (forall k, 4 <= k ->
             aget 0 (fst (shuffle_ints rand_zero [0; 1; 2; 3] 4 0)) k
             = aget 0 [0; 1; 2; 3] k).
Proof.
  apply (shuffle_ints_permutes rand_zero [0; 1; 2; 3] 4 0).
  - exact rand_zero_nonneg.
  - simpl; lia.
Defined.

Lemma main_config_dimensions_witness :
  let cfg := main_config (Some 20) None None None in
  11 <= cfg_cols cfg <= INT_MAX /\ 11 <= cfg_rows cfg <= INT_MAX /\
  Z.odd (cfg_cols cfg) = true /\ Z.odd (cfg_rows cfg) = true /\
  (Some 20 = None -> cfg_cols cfg = 31) /\ (@None Z = None -> cfg_rows cfg = 21) /\
  (forall x, Some 20 = Some x -> x <= cfg_cols cfg /\ (11 <= x -> cfg_cols cfg <= x + 1)) /\
  (forall x, None = Some x -> x <= cfg_rows cfg /\ (11 <= x -> cfg_rows cfg <= x + 1)) /\
  (forall x, Some 20 = Some x ->
             cfg_cols cfg = if x <? 11 then 11 else if Z.even x then x + 1 else x) /\
  (forall x, None = Some x ->
             cfg_rows cfg = if x <? 11 then 11 else if Z.even x then x + 1 else x) /\
  (forall g, rows g = cfg_rows cfg -> cols g = cfg_cols cfg ->
             room g (RC 1 1) /\ room g (RC (rows g - 2) (cols g - 2))).
Proof.
  apply (main_config_dimensions (Some 20) None None None).
  - intros x E. injection E as <-. unfold INT_MAX. lia.
  - intros x E. discriminate E.
Defined.

Lemma solve_keeps_maze_witness :
  rows (mkGrid 1 3 [0; 0; 0] [5; 5; 5]) = rows corridor /\
  cols (mkGrid 1 3 [0; 0; 0] [5; 5; 5]) = cols corridor /\
  cells (mkGrid 1 3 [0; 0; 0] [5; 5; 5]) = cells corridor /\
  length (marks (mkGrid 1 3 [0; 0; 0] [5; 5; 5])) = length (marks corridor).
Proof.
  apply (solve_keeps_maze rand_zero 4 corridor 0 0 0 2 0
                          (mkGrid 1 3 [0; 0; 0] [5; 5; 5])
                          [RC 0 2; RC 0 1; RC 0 0]).
  - exact wf_corridor.
  - reflexivity.
  - reflexivity.
  - left. reflexivity.
Defined.

Lemma bfs_empty_iff_unreachable_witness :
  exists g' path,
    solve_bfs (S (Z.to_nat (rows corridor * cols corridor))) corridor 0 0 0 2
    = Some (g', path) /\
    (path = [] <-> forall k, ~ walk corridor (RC 0 0) k (RC 0 2)).
Proof.
  apply (bfs_empty_iff_unreachable corridor 0 0 0 2).
  - exact wf_corridor.
  - reflexivity.
  - reflexivity.
Defined.

Lemma dfs_empty_iff_unreachable_witness :
  exists g' path,
    solve_dfs rand_zero (S (Z.to_nat (rows corridor * cols corridor))) corridor 0 0 0 2 0
    = Some (g', path) /\
    (path = [] <-> forall k, ~ walk corridor (RC 0 0) k (RC 0 2)) /\
    (path <> [] ->
     walk corridor (RC 0 0) (length path - 1) (RC 0 2) /\
     Z.of_nat (length path) <= rows corridor * cols corridor).
Proof.
  apply (dfs_empty_iff_unreachable rand_zero corridor 0 0 0 2 0).
  - exact rand_zero_nonneg.
  - exact wf_corridor.
  - reflexivity.
  - reflexivity.
Defined.

Lemma solve_marks_exactly_path_witness :
  (exists g' path,
      solve_bfs (S (Z.to_nat (rows corridor * cols corridor))) corridor 0 0 0 2
      = Some (g', path) /\
      forall r c, inside corridor (RC r c) ->
                  has_path (mark_get g' r c) = true <-> In (RC r c) path) /\
  (exists g' path,
      solve_dfs rand_zero (S (Z.to_nat (rows corridor * cols corridor))) corridor 0 0 0 2 0
      = Some (g', path) /\
      forall r c, inside corridor (RC r c) ->
                  has_path (mark_get g' r c) = true <-> In (RC r c) path).
Proof.
  apply (solve_marks_exactly_path rand_zero corridor 0 0 0 2 0).
  - exact rand_zero_nonneg.
  - exact wf_corridor.
  - reflexivity.
  - reflexivity.
Defined.

Lemma wf_fresh11 : wf_grid fresh11.
Proof. unfold wf_grid, INT_MAX; simpl; lia. Defined.

Lemma generate_maze_enclosed_witness :
  exists g' rng',
    generate_maze rand_zero
                  (Z.to_nat (2 * (rows fresh11 * cols fresh11)))
                  fresh11 0
    = Some (g', rng') /\
    forall r c, inside fresh11 (RC r c) ->
      (grid_get g' r c = 0 \/ grid_get g' r c = 1) /\
      (r = 0 \/ r = rows fresh11 - 1 \/ c = 0 \/ c = cols fresh11 - 1 ->
       grid_get g' r c = 1) /\
      (Z.even r = true -> Z.even c = true -> grid_get g' r c = 1) /\
      (Z.odd r = true -> Z.odd c = true -> grid_get g' r c = 0).
Proof.
  apply (generate_maze_enclosed rand_zero fresh11 0).
  - exact rand_zero_nonneg.
  - exact wf_fresh11.
  - reflexivity.
  - reflexivity.
  - simpl; lia.
  - simpl; lia.
Defined.

Lemma generate_maze_rand_calls_witness :
  exists g' rng',
    generate_maze rand_zero
                  (Z.to_nat (2 * (rows fresh11 * cols fresh11)))
                  fresh11 0
    = Some (g', rng') /\
    rng' = (0 + length (open_walls g'))%nat /\
    S rng' = (0 + length (room_cells g'))%nat.
Proof.
  apply (generate_maze_rand_calls rand_zero fresh11 0).
  - exact rand_zero_nonneg.
  - exact wf_fresh11.
  - reflexivity.
  - reflexivity.
  - simpl; lia.
  - simpl; lia.
Defined.

Lemma main_round_solves_witness :
  let g := fresh11 in
  let s := RC 1 1 in
  let e := RC (rows g - 2) (cols g - 2) in
  exists g2 path,
    main_round rand_zero (Z.to_nat (2 * (rows g * cols g))) (S (Z.to_nat (rows g * cols g)))
               2 g 0 = Some (g2, path) /\
    hd s path = e /\ last path e = s /\
    steps_adjacent path /\ NoDup path /\
    Forall (cell_open g2) path /\
    (2 <> 1 ->
     forall k, walk g2 s k e -> (length path - 1 <= k)%nat) /\
    wf_grid g2 /\ rows g2 = rows g /\ cols g2 = cols g.
Proof.
  apply (main_round_solves rand_zero 2 fresh11 0).
  - exact rand_zero_nonneg.
  - exact wf_fresh11.
  - reflexivity.
  - reflexivity.
  - simpl; lia.
  - simpl; lia.
Defined.

Lemma draw_grid_rows_witness :
  draw_grid corridor 0 0 0 2
  = String.append move_cursor_home
      (cat_all (map (fun r =>
                       String.append
                         (cat_all (map (fun c => draw_cell corridor 0 0 0 2 r c)
                                       (idxs (cols corridor))))
                         newline)
                    (idxs (rows corridor)))).
Proof.
  apply (draw_grid_rows corridor 0 0 0 2).
  - simpl; lia.
  - simpl; lia.
Defined.


(** The frame of the solved corridor: start, path, end. *)
Example corridor_frame :
  option_map (fun x => draw_grid (fst x) 0 0 0 2) (solve_bfs 4 corridor 0 0 0 2)
  = Some (String.append move_cursor_home
            (String.append (block COL_SE)
               (String.append (block COL_PATH)
                  (String.append (block COL_SE) newline)))).
Proof. reflexivity. Qed.
